(** * Befixed: the puzzle state machines and the game state store

    A shallow embedding of the puzzle subsystem (PuzzleController, its
    five variants and PuzzleFactory) and of the state store (StateManager)
    of the Befixed narrative game, with the properties of its
    specification stated and proved over it.

    Conventions of the embedding:
    - JavaScript numbers that the code uses as counters, milliseconds and
      quantities are integers ([Z]); dial values and frequencies, the
      difficulty modifier and the time bonus of the score are exact
      rationals ([Q]).
    - [Map] objects are finite maps ([gmap]); a missing key is [None].
    - The global event bus and the feedback shown to the player are a log
      of [Signal]s: every method returns the signals it emitted, and a
      callback installed on a puzzle is a signal that the factory handles.
    - Timers are explicit: a running [setInterval] is a flag on the
      instance and one firing is a call of [tick]; a [setTimeout], or the
      rest of an [async] method behind its first [await], is a [Pending]
      continuation that the method returns and that [resume] runs.  A
      method that awaits only a pause is run to its end in one step.
    - The page is present as far as the code reads it back: whether the
      puzzle content element exists and how many step elements the
      sequence display holds. *)

From Stdlib Require Import ZArith QArith Qround Qabs Qminmax Lia Ascii String.
From stdpp Require Import base option list gmap strings.

#[local] Set Warnings "-register-all".
Local Open Scope Z_scope.

(** ** JavaScript values *)

Module Js.

Inductive Value : Type :=
| VUndefined
| VNull
| VBool (b : bool)
| VNum (n : Z)
| VStr (s : string).

#[global] Instance Value_eq_dec : EqDecision Value.
Proof. solve_decision. Defined.

(** A completion of a call that may throw. *)
Inductive Completion (A : Type) : Type :=
| Return (a : A)
| Throw (e : string).
Arguments Return {A} a.
Arguments Throw {A} e.

(** ToBoolean. *)
Definition truthy (v : Value) : bool :=
  match v with
  | VUndefined | VNull => false
  | VBool b => b
  | VNum n => negb (n =? 0)
  | VStr s => negb (String.eqb s "")
  end.

(** [a || b]. *)
Definition or_else (a b : Value) : Value := if truthy a then a else b.

(** [n || d] on a number that may be missing. *)
Definition num_or (o : option Z) (d : Z) : Z :=
  match o with
  | Some n => if n =? 0 then d else n
  | None => d
  end.

(** [a === b] on primitives. *)
Definition strict_eq (a b : Value) : bool := bool_decide (a = b).

Definition digit_of (a : ascii) : option Z :=
  let n := Z.of_nat (nat_of_ascii a) in
  if (48 <=? n) && (n <=? 57) then Some (n - 48) else None.

Fixpoint digits_to_number (acc : Z) (s : string) : option Z :=
  match s with
  | EmptyString => Some acc
  | String a s' =>
      match digit_of a with
      | Some d => digits_to_number (acc * 10 + d) s'
      | None => None
      end
  end.

(** StringToNumber on decimal integer literals; [None] is NaN.  Other
    numeric literals (fractions, exponents, hexadecimal, surrounding
    white space) are outside the integer model and read as NaN. *)
Definition string_to_number (s : string) : option Z :=
  match s with
  | EmptyString => Some 0
  | String "-"%char (String a r) => Z.opp <$> digits_to_number 0 (String a r)
  | String "+"%char (String a r) => digits_to_number 0 (String a r)
  | _ => digits_to_number 0 s
  end.

(** ToNumber; [None] is NaN. *)
Definition to_number (v : Value) : option Z :=
  match v with
  | VUndefined => None
  | VNull => Some 0
  | VBool b => Some (if b then 1 else 0)
  | VNum n => Some n
  | VStr s => string_to_number s
  end.

(** [a < b]: two strings compare as strings, anything else as numbers,
    and a comparison with NaN is false. *)
Definition lt (a b : Value) : bool :=
  match a, b with
  | VStr s, VStr t => String.ltb s t
  | _, _ =>
      match to_number a, to_number b with
      | Some x, Some y => x <? y
      | _, _ => false
      end
  end.

(** [a <= b]. *)
Definition le (a b : Value) : bool :=
  match a, b with
  | VStr s, VStr t => negb (String.ltb t s)
  | _, _ =>
      match to_number a, to_number b with
      | Some x, Some y => x <=? y
      | _, _ => false
      end
  end.

Definition gt (a b : Value) : bool := lt b a.
Definition ge (a b : Value) : bool := le b a.

End Js.

Export Js.

(** ** Signals: the event bus and the feedback shown to the player *)

(** A reward of a puzzle definition, by its [type] field. *)
Inductive Reward : Type :=
| RewardItem (id : string) (quantity : option Z)
| RewardFlag (id : string)
| RewardVariable (name : string) (value : Value)
| RewardOther.

Inductive Signal : Type :=
| StateChange (type : string)
| FlagSet (flag : string) (value : bool)
| VariableSet (name : string) (value : Value)
| ItemAdd (itemId : string) (quantity total : Z)
| ItemRemove (itemId : string) (quantity remaining : Z)
| PuzzleStart (puzzleId type title : string)
| PuzzleUpdate (puzzleId : string) (progress : Q) (attempts : Z)
| PuzzleHint (puzzleId : string) (hintIndex : Z) (hint : option string)
| PuzzleComplete (puzzleId : string) (score attempts hintsUsed timeRemaining : Z)
                 (rewards : list Reward)
| PuzzleFail (puzzleId reason : string) (attempts : Z)
| PuzzleReset (puzzleId : string)
| UiNotification (message : string)
| SfxPlay (sound : string)
| Feedback (success : bool) (message : string)
| FeedbackOffBy (diff : Q)          (* [`Off by ${diff.toFixed(0)} Hz`] *)
| HintPanel (hint : string)
| Instruction (text : string)
| RoundInstruction (round : Z)      (* [`Round ${this.round}!`] *)
| OnComplete (puzzleId : string) (score : Z) (rewards : list Reward)
| OnFail (puzzleId reason : string).

(** ** StateManager *)

Module StateManager.

Record t : Type := mk {
  state : gmap string Value;
  flags : gmap string bool;
  variables : gmap string Value;
  inventory : gmap string Z
}.

(** A key of a condition object is any value; the maps are keyed by
    strings, so any other key is absent. *)
Definition lookup_key {A} (m : gmap string A) (key : Value) : option A :=
  match key with
  | VStr k => m !! k
  | _ => None
  end.

(** [reset]: the store after [init]. *)
Definition reset : t :=
  {| state := <["currentChapter" := VNum 0]>
                (<["currentScene" := VNull]>
                  (<["playtime" := VNum 0]>
                    (<["gameStarted" := VBool false]> ∅)));
     flags := ∅; variables := ∅; inventory := ∅ |}.

Definition get (s : t) (key : string) (defaultValue : Value) : Value :=
  default defaultValue (state s !! key).

Definition setFlag (s : t) (flag : string) (value : bool) : t * list Signal :=
  ({| state := state s; flags := <[flag := value]> (flags s);
      variables := variables s; inventory := inventory s |},
   [FlagSet flag value]).

Definition getFlag (s : t) (flag : string) : bool :=
  default false (flags s !! flag).

Definition hasFlagV (s : t) (flag : Value) : bool :=
  match lookup_key (flags s) flag with
  | Some v => bool_decide (v = true)
  | None => false
  end.

Definition hasFlag (s : t) (flag : string) : bool := hasFlagV s (VStr flag).

Definition setVariable (s : t) (name : string) (value : Value) : t * list Signal :=
  ({| state := state s; flags := flags s;
      variables := <[name := value]> (variables s); inventory := inventory s |},
   [VariableSet name value]).

Definition getVariableV (s : t) (name : Value) (defaultValue : Value) : Value :=
  default defaultValue (lookup_key (variables s) name).

Definition getVariable (s : t) (name : string) (defaultValue : Value) : Value :=
  getVariableV s (VStr name) defaultValue.

(** [this.inventory.get(itemId) || 0]. *)
Definition getItemQuantityV (s : t) (itemId : Value) : Z :=
  num_or (lookup_key (inventory s) itemId) 0.

Definition getItemQuantity (s : t) (itemId : string) : Z :=
  getItemQuantityV s (VStr itemId).

Definition addItem (s : t) (itemId : string) (quantity : Z) : t * list Signal :=
  let current := getItemQuantity s itemId in
  ({| state := state s; flags := flags s; variables := variables s;
      inventory := <[itemId := current + quantity]> (inventory s) |},
   [ItemAdd itemId quantity (current + quantity)]).

(** The result is the returned boolean, the store and the signals. *)
Definition removeItem (s : t) (itemId : string) (quantity : Z)
  : bool * t * list Signal :=
  let current := getItemQuantity s itemId in
  if current <? quantity then (false, s, [])
  else
    let newQuantity := current - quantity in
    (true,
     {| state := state s; flags := flags s; variables := variables s;
        inventory := if newQuantity <=? 0 then delete itemId (inventory s)
                     else <[itemId := newQuantity]> (inventory s) |},
     [ItemRemove itemId quantity (Z.max 0 newQuantity)]).

(** [hasItem(itemId, quantity)], the quantity being any value. *)
Definition hasItem (s : t) (itemId : Value) (quantity : Value) : bool :=
  Js.ge (VNum (getItemQuantityV s itemId)) quantity.

Definition compareValues (a operator b : Value) : bool :=
  if decide (operator = VStr "==") then strict_eq a b
  else if decide (operator = VStr "===") then strict_eq a b
  else if decide (operator = VStr "!=") then negb (strict_eq a b)
  else if decide (operator = VStr "!==") then negb (strict_eq a b)
  else if decide (operator = VStr ">") then Js.gt a b
  else if decide (operator = VStr ">=") then Js.ge a b
  else if decide (operator = VStr "<") then Js.lt a b
  else if decide (operator = VStr "<=") then Js.le a b
  else strict_eq a b.

(** A condition is a primitive value (a string is a flag name) or an
    object; a field that an object lacks is [VUndefined], a missing
    [condition] is the primitive [VUndefined], and [conditions] is
    [None] when it is not an array. *)
Inductive Condition : Type :=
| CondValue (v : Value)
| CondObject (type key operator value : Value)
             (conditions : option (list Condition))
             (condition : Condition).

(** The [case] labels of the [switch (type)]. *)
Inductive Tag : Type :=
| TFlag | TNotFlag | TVariable | TItem | TChapter | TAnd | TOr | TNot | TDefault.

Definition recognized : list Value :=
  [VStr "flag"; VStr "notFlag"; VStr "variable"; VStr "item";
   VStr "chapter"; VStr "and"; VStr "or"; VStr "not"].

Definition switch_type (type : Value) : Tag :=
  if decide (type = VStr "flag") then TFlag
  else if decide (type = VStr "notFlag") then TNotFlag
  else if decide (type = VStr "variable") then TVariable
  else if decide (type = VStr "item") then TItem
  else if decide (type = VStr "chapter") then TChapter
  else if decide (type = VStr "and") then TAnd
  else if decide (type = VStr "or") then TOr
  else if decide (type = VStr "not") then TNot
  else TDefault.

Definition not_an_array : string := "condition.conditions is not an array".

Fixpoint evaluateCondition (s : t) (c : Condition) : Completion bool :=
  match c with
  | CondValue (VStr flag) => Return (hasFlag s flag)
  | CondValue _ => Return true
  | CondObject type key operator value conditions condition =>
      match switch_type type with
      | TFlag => Return (hasFlagV s key)
      | TNotFlag => Return (negb (hasFlagV s key))
      | TVariable =>
          Return (compareValues (getVariableV s key (VNum 0)) operator value)
      | TItem => Return (hasItem s key (or_else value (VNum 1)))
      | TChapter =>
          Return (compareValues (get s "currentChapter" VNull) operator value)
      | TAnd =>
          match conditions with
          | None => Throw not_an_array
          | Some cs =>
              (fix every (l : list Condition) : Completion bool :=
                 match l with
                 | [] => Return true
                 | c' :: l' =>
                     match evaluateCondition s c' with
                     | Return true => every l'
                     | Return false => Return false
                     | Throw e => Throw e
                     end
                 end) cs
          end
      | TOr =>
          match conditions with
          | None => Throw not_an_array
          | Some cs =>
              (fix some (l : list Condition) : Completion bool :=
                 match l with
                 | [] => Return false
                 | c' :: l' =>
                     match evaluateCondition s c' with
                     | Return true => Return true
                     | Return false => some l'
                     | Throw e => Throw e
                     end
                 end) cs
          end
      | TNot =>
          match evaluateCondition s condition with
          | Return b => Return (negb b)
          | Throw e => Throw e
          end
      | TDefault => Return true
      end
  end.

End StateManager.

(** ** PuzzleController: the base contract of every puzzle *)

Module PuzzleController.

(** [a || b] on a string that may be missing. *)
Definition str_or (o : option string) (d : string) : string :=
  match o with
  | Some s => if String.eqb s "" then d else s
  | None => d
  end.

(** The configuration object handed to the constructor. *)
Record Config : Type := mkConfig {
  cfg_id : option string;
  cfg_type : option string;
  cfg_title : option string;
  cfg_difficulty : option string;
  cfg_maxAttempts : option Z;
  cfg_timeLimit : option Z;
  cfg_hints : option (list string);
  cfg_maxHints : option Z;
  cfg_rewards : option (list Reward);
  cfg_onComplete : bool;           (* the configuration carries a callback *)
  cfg_onFail : bool
}.

(** The fields that only the constructors write. *)
Record Settings : Type := mkSettings {
  id : string;
  type : string;
  title : string;
  difficulty : string;
  maxAttempts : option Z;          (* [None] is [Infinity] *)
  timeLimit : Z;                   (* 0 = no time limit *)
  hints : list string;
  maxHints : Z;
  rewards : list Reward
}.

Record t : Type := mk {
  settings : Settings;
  onComplete : bool;               (* a completion callback is installed *)
  onFail : bool;                   (* a failure callback is installed *)
  isActive : bool;
  isComplete : bool;
  isFailed : bool;
  attempts : Z;
  timeRemaining : Z;
  score : Z;
  hintsUsed : Z;
  timerInterval : bool             (* the interval timer is running *)
}.

(** [new PuzzleController(config)]; [stamp] is the text of
    [`puzzle_${Date.now()}`]. *)
Definition new (stamp : string) (config : Config) : t :=
  let hs := default [] (cfg_hints config) in
  let limit := num_or (cfg_timeLimit config) 0 in
  {| settings :=
       {| id := str_or (cfg_id config) stamp;
          type := str_or (cfg_type config) "generic";
          title := str_or (cfg_title config) "Puzzle";
          difficulty := str_or (cfg_difficulty config) "normal";
          maxAttempts :=
            match cfg_maxAttempts config with
            | Some n => if n =? 0 then None else Some n
            | None => None
            end;
          timeLimit := limit;
          hints := hs;
          maxHints := num_or (cfg_maxHints config) (Z.of_nat (length hs));
          rewards := default [] (cfg_rewards config) |};
     onComplete := cfg_onComplete config; onFail := cfg_onFail config;
     isActive := false; isComplete := false; isFailed := false;
     attempts := 0; timeRemaining := limit; score := 0; hintsUsed := 0;
     timerInterval := false |}.

Definition set_callbacks (c f : bool) (p : t) : t :=
  mk (settings p) c f (isActive p) (isComplete p) (isFailed p) (attempts p)
     (timeRemaining p) (score p) (hintsUsed p) (timerInterval p).
Definition set_isActive (b : bool) (p : t) : t :=
  mk (settings p) (onComplete p) (onFail p) b (isComplete p) (isFailed p)
     (attempts p) (timeRemaining p) (score p) (hintsUsed p) (timerInterval p).
Definition set_isComplete (b : bool) (p : t) : t :=
  mk (settings p) (onComplete p) (onFail p) (isActive p) b (isFailed p)
     (attempts p) (timeRemaining p) (score p) (hintsUsed p) (timerInterval p).
Definition set_isFailed (b : bool) (p : t) : t :=
  mk (settings p) (onComplete p) (onFail p) (isActive p) (isComplete p) b
     (attempts p) (timeRemaining p) (score p) (hintsUsed p) (timerInterval p).
Definition set_attempts (n : Z) (p : t) : t :=
  mk (settings p) (onComplete p) (onFail p) (isActive p) (isComplete p)
     (isFailed p) n (timeRemaining p) (score p) (hintsUsed p) (timerInterval p).
Definition set_timeRemaining (n : Z) (p : t) : t :=
  mk (settings p) (onComplete p) (onFail p) (isActive p) (isComplete p)
     (isFailed p) (attempts p) n (score p) (hintsUsed p) (timerInterval p).
Definition set_score (n : Z) (p : t) : t :=
  mk (settings p) (onComplete p) (onFail p) (isActive p) (isComplete p)
     (isFailed p) (attempts p) (timeRemaining p) n (hintsUsed p) (timerInterval p).
Definition set_hintsUsed (n : Z) (p : t) : t :=
  mk (settings p) (onComplete p) (onFail p) (isActive p) (isComplete p)
     (isFailed p) (attempts p) (timeRemaining p) (score p) n (timerInterval p).
Definition set_timerInterval (b : bool) (p : t) : t :=
  mk (settings p) (onComplete p) (onFail p) (isActive p) (isComplete p)
     (isFailed p) (attempts p) (timeRemaining p) (score p) (hintsUsed p) b.

(** Assignments to [this.type] and [this.timeLimit] in the constructors
    of the subclasses. *)
Definition set_type (ty : string) (p : t) : t :=
  let st := settings p in
  mk (mkSettings (id st) ty (title st) (difficulty st) (maxAttempts st)
                 (timeLimit st) (hints st) (maxHints st) (rewards st))
     (onComplete p) (onFail p) (isActive p) (isComplete p) (isFailed p)
     (attempts p) (timeRemaining p) (score p) (hintsUsed p) (timerInterval p).
Definition set_timeLimit (n : Z) (p : t) : t :=
  let st := settings p in
  mk (mkSettings (id st) (type st) (title st) (difficulty st) (maxAttempts st)
                 n (hints st) (maxHints st) (rewards st))
     (onComplete p) (onFail p) (isActive p) (isComplete p) (isFailed p)
     (attempts p) (timeRemaining p) (score p) (hintsUsed p) (timerInterval p).

(** [startTimer]: any running interval is cleared and a new one is set. *)
Definition startTimer (p : t) : t := set_timerInterval true p.

Definition stopTimer (p : t) : t := set_timerInterval false p.

(** [attempts >= maxAttempts]. *)
Definition attemptsExhausted (p : t) : bool :=
  match maxAttempts (settings p) with
  | Some m => m <=? attempts p
  | None => false
  end.

(** The own keys of the [difficultyModifiers] table; 0.8 and 1.2 are the
    rationals 8/10 and 12/10.  A difficulty that names a property which
    every object inherits ("constructor", "toString") is outside the model. *)
Definition difficultyModifiers (d : string) : option Q :=
  if String.eqb d "easy" then Some (8 # 10)%Q
  else if String.eqb d "normal" then Some 1%Q
  else if String.eqb d "hard" then Some (12 # 10)%Q
  else if String.eqb d "expert" then Some (15 # 10)%Q
  else None.

(** [difficultyModifiers[this.difficulty] || 1]. *)
Definition difficultyFactor (d : string) : Q :=
  default 1%Q (difficultyModifiers d).

(** [Math.floor((this.timeRemaining / this.timeLimit) * 20)]. *)
Definition timeBonus (p : t) : Z :=
  Qfloor (inject_Z (timeRemaining p) / inject_Z (timeLimit (settings p)) * 20)%Q.

(** The value of [baseScore] before the difficulty modifier. *)
Definition baseScore (p : t) : Z :=
  let baseScore := 100 in
  let baseScore := baseScore - (attempts p - 1) * 10 in
  let baseScore := baseScore - hintsUsed p * 15 in
  if (0 <? timeLimit (settings p)) && (0 <? timeRemaining p)
  then baseScore + timeBonus p
  else baseScore.

Definition calculateScore (p : t) : t :=
  let scaled := (inject_Z (baseScore p) * difficultyFactor (difficulty (settings p)))%Q in
  set_score (Z.max 0 (Qfloor scaled)) p.

(** [complete]: the feedback, the pause and the emission are one step. *)
Definition complete (p : t) : t * list Signal :=
  let p := set_isActive false p in
  let p := set_isComplete true p in
  let p := stopTimer p in
  let p := calculateScore p in
  (p,
   [Feedback true "Puzzle Complete!";
    PuzzleComplete (id (settings p)) (score p) (attempts p) (hintsUsed p)
                   (timeRemaining p) (rewards (settings p))]
   ++ (if onComplete p
       then [OnComplete (id (settings p)) (score p) (rewards (settings p))]
       else [])).

(** [fail(reason)]. *)
Definition fail (reason : string) (p : t) : t * list Signal :=
  let p := set_isActive false p in
  let p := set_isFailed true p in
  let p := stopTimer p in
  (p,
   [Feedback false reason; PuzzleFail (id (settings p)) reason (attempts p)]
   ++ (if onFail p then [OnFail (id (settings p)) reason] else [])).

Definition timeUp (p : t) : t * list Signal :=
  fail "Time's up!" (stopTimer p).

(** One firing of the interval callback of [startTimer]; a cleared
    interval does not fire. *)
Definition tick (p : t) : t * list Signal :=
  if timerInterval p then
    let p := set_timeRemaining (timeRemaining p - 1000) p in
    if timeRemaining p <=? 0 then timeUp p else (p, [])
  else (p, []).

Definition start (p : t) : t * list Signal :=
  let p := set_isActive true p in
  let p := set_isComplete false p in
  let p := set_isFailed false p in
  let p := set_attempts 0 p in
  let p := set_hintsUsed 0 p in
  let p := set_timeRemaining (timeLimit (settings p)) p in
  let p := if 0 <? timeLimit (settings p) then startTimer p else p in
  (p, [PuzzleStart (id (settings p)) (type (settings p)) (title (settings p))]).

Definition reset (p : t) : t * list Signal :=
  let p := set_attempts 0 p in
  let p := set_timeRemaining (timeLimit (settings p)) p in
  let p := set_isComplete false p in
  let p := set_isFailed false p in
  let p := if 0 <? timeLimit (settings p) then startTimer p else p in
  (p, [PuzzleReset (id (settings p))]).

(** [this.hints[i]]; [None] is [undefined]. *)
Definition hintAt (p : t) (i : Z) : option string :=
  if i <? 0 then None else hints (settings p) !! Z.to_nat i.

(** [useHint]: the returned hint, the instance and the signals. *)
Definition useHint (p : t) : option string * t * list Signal :=
  if (maxHints (settings p) <=? hintsUsed p)
     || (Z.of_nat (length (hints (settings p))) <=? hintsUsed p)
  then (None, p, [UiNotification "No more hints available"])
  else
    let hint := hintAt p (hintsUsed p) in
    let p := set_hintsUsed (hintsUsed p + 1) p in
    let p := set_score (Z.max 0 (score p - 10)) p in
    (hint, p,
     [HintPanel (default "undefined" hint);
      PuzzleHint (id (settings p)) (hintsUsed p - 1) hint]).

Definition destroy (p : t) : t :=
  set_isActive false (stopTimer p).

End PuzzleController.

(** ** The variants of the base contract *)

(** A puzzle class extends [PuzzleController]: it carries the base
    fields, its own working state, and its overrides of [getSolution],
    [validateSolution] and, for one variant, [complete]. *)
Class Variant (P : Type) : Type := {
  base : P -> PuzzleController.t;
  with_base : PuzzleController.t -> P -> P;
  (** [this.validateSolution(this.getSolution())]. *)
  solutionValid : P -> bool;
  (** What an override of [complete] emits before [super.complete()]. *)
  completePrelude : list Signal;
  base_with_base : forall b p, base (with_base b p) = b;
  solutionValid_with_base :
    forall b p, solutionValid (with_base b p) = solutionValid p
}.

Module Puzzle.
Import PuzzleController.

Section Generic.
Context {P : Type} `{Variant P}.

(** A base method run on an instance of the variant. *)
Definition lift (f : t -> t * list Signal) (p : P) : P * list Signal :=
  let '(b, sigs) := f (base p) in (with_base b p, sigs).

(** [this.complete()], through the variant's override. *)
Definition complete (p : P) : P * list Signal :=
  let '(p', sigs) := lift PuzzleController.complete p in
  (p', completePrelude ++ sigs).

Definition fail (reason : string) (p : P) : P * list Signal :=
  lift (PuzzleController.fail reason) p.

Definition tick (p : P) : P * list Signal := lift PuzzleController.tick p.

(** [submit]: the returned boolean, the instance and the signals. *)
Definition submit (p : P) : bool * P * list Signal :=
  let p := with_base (set_attempts (attempts (base p) + 1) (base p)) p in
  if solutionValid p then
    let '(p', sigs) := complete p in (true, p', sigs)
  else if attemptsExhausted (base p) then
    let '(p', sigs) := fail "Maximum attempts reached" p in (false, p', sigs)
  else (false, p, [Feedback false "Incorrect solution. Try again!"]).

End Generic.

(** The generic puzzle: [getSolution] is [null], nothing validates. *)
#[global, refine] Instance generic : Variant PuzzleController.t :=
  {| base := fun p => p;
     with_base := fun b _ => b;
     solutionValid := fun _ => false;
     completePrelude := [] |}.
Proof. all: reflexivity. Defined.

End Puzzle.

(** ** Callbacks scheduled with [setTimeout] or behind an [await] *)

Inductive Continuation : Type :=
| KShowSequence      (* [showSequence()] *)
| KReplay            (* [resetSequenceDisplay(); showSequence()] *)
| KNextRound         (* [resetSequenceDisplay(); render(); ...; showSequence()] *)
| KComplete          (* [this.complete()] *)
| KSubmit.           (* [this.submit()] *)

#[global] Instance Continuation_eq_dec : EqDecision Continuation.
Proof. solve_decision. Defined.

Inductive Pending : Type :=
| After (ms : Z) (k : Continuation).

(** ** RepairSequencePuzzle *)

Module RepairSequencePuzzle.

Inductive Phase : Type := Ready | Showing | Input | Checking.

#[global] Instance Phase_eq_dec : EqDecision Phase.
Proof. solve_decision. Defined.

Record Action : Type := mkAction {
  action_id : string;
  icon : string;
  label : string
}.

Record Config : Type := mkConfig {
  cfg_sequence : option (list string);
  cfg_displayTime : option Z;
  cfg_inputTime : option Z;
  cfg_actions : option (list Action);
  cfg_maxRounds : option Z
}.

Record t : Type := mk {
  super : PuzzleController.t;
  sequence : list string;
  displayTime : Z;
  inputTime : Z;
  actions : list Action;
  phase : Phase;
  currentStep : Z;
  playerInput : list string;
  round : Z;
  maxRounds : Z;
  contentElement : bool;     (* [init] found the puzzle content element *)
  stepEls : nat              (* [.sequence-step] elements in the document *)
}.

Definition defaultSequence : list string := ["⚙️"; "🔧"; "⚡"; "💧"].

Definition defaultActions : list Action :=
  [mkAction "gear" "⚙️" "Gear"; mkAction "wrench" "🔧" "Wrench";
   mkAction "spark" "⚡" "Power"; mkAction "oil" "💧" "Oil"].

Definition set_super (b : PuzzleController.t) (p : t) : t :=
  mk b (sequence p) (displayTime p) (inputTime p) (actions p) (phase p)
     (currentStep p) (playerInput p) (round p) (maxRounds p)
     (contentElement p) (stepEls p).
Definition set_sequence (l : list string) (p : t) : t :=
  mk (super p) l (displayTime p) (inputTime p) (actions p) (phase p)
     (currentStep p) (playerInput p) (round p) (maxRounds p)
     (contentElement p) (stepEls p).
Definition set_phase (ph : Phase) (p : t) : t :=
  mk (super p) (sequence p) (displayTime p) (inputTime p) (actions p) ph
     (currentStep p) (playerInput p) (round p) (maxRounds p)
     (contentElement p) (stepEls p).
Definition set_currentStep (n : Z) (p : t) : t :=
  mk (super p) (sequence p) (displayTime p) (inputTime p) (actions p) (phase p)
     n (playerInput p) (round p) (maxRounds p) (contentElement p) (stepEls p).
Definition set_playerInput (l : list string) (p : t) : t :=
  mk (super p) (sequence p) (displayTime p) (inputTime p) (actions p) (phase p)
     (currentStep p) l (round p) (maxRounds p) (contentElement p) (stepEls p).
Definition set_round (n : Z) (p : t) : t :=
  mk (super p) (sequence p) (displayTime p) (inputTime p) (actions p) (phase p)
     (currentStep p) (playerInput p) n (maxRounds p) (contentElement p) (stepEls p).
Definition set_contentElement (b : bool) (p : t) : t :=
  mk (super p) (sequence p) (displayTime p) (inputTime p) (actions p) (phase p)
     (currentStep p) (playerInput p) (round p) (maxRounds p) b (stepEls p).
Definition set_stepEls (n : nat) (p : t) : t :=
  mk (super p) (sequence p) (displayTime p) (inputTime p) (actions p) (phase p)
     (currentStep p) (playerInput p) (round p) (maxRounds p) (contentElement p) n.

(** [new RepairSequencePuzzle(config)]. *)
Definition new (stamp : string) (common : PuzzleController.Config)
           (config : Config) : t :=
  let input := num_or (cfg_inputTime config) 5000 in
  {| super :=
       PuzzleController.set_timeLimit input
         (PuzzleController.set_type "repair-sequence"
            (PuzzleController.new stamp common));
     sequence := default defaultSequence (cfg_sequence config);
     displayTime := num_or (cfg_displayTime config) 1000;
     inputTime := input;
     actions := default defaultActions (cfg_actions config);
     phase := Ready;
     currentStep := 0;
     playerInput := [];
     round := 1;
     maxRounds := num_or (cfg_maxRounds config) 3;
     contentElement := false;
     stepEls := 0 |}.

(** [solution.every((icon, i) => icon === this.sequence[i])]. *)
Fixpoint everyMatches (i : nat) (solution target : list string) : bool :=
  match solution with
  | [] => true
  | icon :: rest =>
      bool_decide (target !! i = Some icon) && everyMatches (S i) rest target
  end.

Definition validateSolution (p : t) (solution : list string) : bool :=
  if negb (length solution =? length (sequence p))%nat then false
  else everyMatches 0 solution (sequence p).

Definition getSolution (p : t) : list string := playerInput p.

#[global, refine] Instance variant : Variant t :=
  {| base := super;
     with_base := set_super;
     solutionValid := fun p => validateSolution p (getSolution p);
     completePrelude := [] |}.
Proof. all: reflexivity. Defined.

(** [render]: without a content element nothing is drawn; with one the
    display gets a step element for each entry of the sequence. *)
Definition render (p : t) : t :=
  if contentElement p then set_stepEls (length (sequence p)) p else p.

(** [init]; [dom] tells whether the page has the puzzle content element. *)
Definition init (dom : bool) (p : t) : t := set_contentElement dom p.

Definition start (p : t) : t * list Signal * list Pending :=
  let '(b, sigs) := PuzzleController.start (super p) in
  (render (set_super b p), sigs, [After 1000 KShowSequence]).

Definition startInputPhase (p : t) : t * list Signal :=
  let p := set_phase Input p in
  let p := set_playerInput [] p in
  let p := set_currentStep 0 p in
  let p := set_super (PuzzleController.set_timeRemaining (inputTime p) (super p)) p in
  (p, [Instruction "Enter the sequence!"]).

(** [showSequence], run to its end.  The loop touches one step element
    for each entry of the sequence; when one is missing the call stops
    with a TypeError and the input phase does not start. *)
Definition showSequence (p : t) : t * list Signal :=
  let p := set_phase Showing p in
  let shown := [Instruction "Watch carefully..."] in
  if (length (sequence p) <=? stepEls p)%nat then
    let '(p', sigs) := startInputPhase p in
    (p', shown ++ repeat (SfxPlay "sequence_show") (length (sequence p)) ++ sigs)
  else (p, shown ++ repeat (SfxPlay "sequence_show") (stepEls p)).

(** [Math.floor(Math.random() * this.actions.length)] for a draw [u]. *)
Definition randomIndex (u : Q) (p : t) : Z :=
  Qfloor (u * inject_Z (Z.of_nat (length (actions p))))%Q.

(** [extendSequence]; [None] is the TypeError of reading [icon] of
    [undefined]. *)
Definition extendSequence (u : Q) (p : t) : option t :=
  let i := randomIndex u p in
  if i <? 0 then None
  else
    match actions p !! Z.to_nat i with
    | Some randomAction => Some (set_sequence (sequence p ++ [icon randomAction]) p)
    | None => None
    end.

(** [handleWrongInput], up to its first [await]. *)
Definition handleWrongInput (p : t) : t * list Signal * list Pending :=
  let p := set_phase Checking p in
  (p, [Instruction "Wrong! Watch again..."], [After 1500 KReplay]).

(** [handleTimeUp], up to its first [await]. *)
Definition handleTimeUp (p : t) : t * list Signal * list Pending :=
  if negb (bool_decide (phase p = Input)) then (p, [], [])
  else
    let p := set_phase Checking p in
    (p, [Instruction "Time's up! Watch again..."], [After 1500 KReplay]).

(** [handleSequenceComplete], up to its first [await]; the awaited
    [complete] is run to its end. *)
Definition handleSequenceComplete (u : Q) (p : t)
  : t * list Signal * list Pending :=
  let p := set_phase Checking p in
  if round p <? maxRounds p then
    let p := set_round (round p + 1) p in
    match extendSequence u p with
    | Some p' => (p', [RoundInstruction (round p)], [After 1500 KNextRound])
    | None => (p, [RoundInstruction (round p)], [])
    end
  else
    let '(p', sigs) := Puzzle.complete p in (p', sigs, []).

(** [handleInput(icon)]; [u] is the draw of [Math.random] should the
    sequence be extended. *)
Definition handleInput (u : Q) (icon : string) (p : t)
  : t * list Signal * list Pending :=
  if negb (bool_decide (phase p = Input)) then (p, [], [])
  else
    let p := set_playerInput (playerInput p ++ [icon]) p in
    let stepIndex := (length (playerInput p) - 1)%nat in
    let isCorrect := bool_decide (sequence p !! stepIndex = Some icon) in
    if (stepIndex <? stepEls p)%nat && negb isCorrect then
      let '(p', sigs, pend) := handleWrongInput p in
      (p', SfxPlay "input_wrong" :: sigs, pend)
    else
      let heard :=
        if (stepIndex <? stepEls p)%nat then [SfxPlay "input_correct"] else [] in
      if (length (playerInput p) =? length (sequence p))%nat then
        let '(p', sigs, pend) := handleSequenceComplete u p in
        (p', heard ++ sigs, pend)
      else (p, heard, []).

(** The callbacks of this class, when they fire. *)
Definition resume (k : Continuation) (p : t) : t * list Signal :=
  match k with
  | KShowSequence | KReplay => showSequence p
  | KNextRound => showSequence (render p)
  | KComplete => Puzzle.complete p
  | KSubmit => let '(_, p', sigs) := Puzzle.submit p in (p', sigs)
  end.

(** [reset]. *)
Definition reset (p : t) : t * list Signal :=
  let p := set_phase Ready p in
  let p := set_currentStep 0 p in
  let p := set_playerInput [] p in
  let p := set_round 1 p in
  let p := set_sequence (take 4 (sequence p)) p in
  let '(b, sigs) := PuzzleController.reset (super p) in
  (render (set_super b p), sigs).

End RepairSequencePuzzle.

(** ** ResonancePuzzle *)

Module ResonancePuzzle.

Record Dial : Type := mkDial {
  dial_id : string;
  dial_label : string;
  dial_min : Q;
  dial_max : Q;
  dial_step : Q
}.

Record Config : Type := mkConfig {
  cfg_targetPattern : option (list Q);
  cfg_tolerance : option Q;
  cfg_dials : option (list Dial)
}.

Record t : Type := mk {
  super : PuzzleController.t;
  targetPattern : list Q;
  tolerance : Q;
  dials : list Dial;
  dialValues : gmap string Q;
  currentNote : nat;
  matchedNotes : list nat
}.

(** [x || d] on a number that may be missing. *)
Definition q_or (o : option Q) (d : Q) : Q :=
  match o with
  | Some x => if Qeq_bool x 0 then d else x
  | None => d
  end.

Definition defaultDials : list Dial :=
  [mkDial "frequency" "Frequency" 200 1000 10;
   mkDial "amplitude" "Amplitude" 0 100 5;
   mkDial "phase" "Phase" 0 360 15].

(** [this.dialValues[dial.id] = (dial.min + dial.max) / 2] for each dial. *)
Definition centred (ds : list Dial) (values : gmap string Q) : gmap string Q :=
  foldl (fun m d => <[dial_id d := ((dial_min d + dial_max d) / 2)%Q]> m) values ds.

Definition set_super (b : PuzzleController.t) (p : t) : t :=
  mk b (targetPattern p) (tolerance p) (dials p) (dialValues p)
     (currentNote p) (matchedNotes p).
Definition set_dialValues (m : gmap string Q) (p : t) : t :=
  mk (super p) (targetPattern p) (tolerance p) (dials p) m
     (currentNote p) (matchedNotes p).
Definition set_currentNote (n : nat) (p : t) : t :=
  mk (super p) (targetPattern p) (tolerance p) (dials p) (dialValues p)
     n (matchedNotes p).
Definition set_matchedNotes (l : list nat) (p : t) : t :=
  mk (super p) (targetPattern p) (tolerance p) (dials p) (dialValues p)
     (currentNote p) l.

(** [new ResonancePuzzle(config)]. *)
Definition new (stamp : string) (common : PuzzleController.Config)
           (config : Config) : t :=
  let ds := default defaultDials (cfg_dials config) in
  {| super := PuzzleController.set_type "resonance" (PuzzleController.new stamp common);
     targetPattern := default [440; 523; 659; 784]%Q (cfg_targetPattern config);
     tolerance := q_or (cfg_tolerance config) 20;
     dials := ds;
     dialValues := centred ds ∅;
     currentNote := 0;
     matchedNotes := [] |}.

Definition getSolution (p : t) : list nat := matchedNotes p.

Definition validateSolution (p : t) (solution : list nat) : bool :=
  (length solution =? length (targetPattern p))%nat.

#[global, refine] Instance variant : Variant t :=
  {| base := super;
     with_base := set_super;
     solutionValid := fun p => validateSolution p (getSolution p);
     completePrelude := [] |}.
Proof. all: reflexivity. Defined.

(** [Math.round(x)]. *)
Definition round (x : Q) : Z := Qfloor (x + (1 # 2))%Q.

(** The drag handler of a dial: the value the drag started from is
    moved by [delta] hundredths of the range of the dial, rounded to a
    multiple of its step and clamped to its range.  A step of zero is
    outside the model. *)
Definition handleMove (dialId : string) (startValue delta : Q) (p : t) : t :=
  match List.find (fun d => String.eqb (dial_id d) dialId) (dials p) with
  | None => p
  | Some dialConfig =>
      let range := (dial_max dialConfig - dial_min dialConfig)%Q in
      let valueChange := (delta / 100 * range)%Q in
      let newValue := (startValue + valueChange)%Q in
      let newValue :=
        (inject_Z (round (newValue / dial_step dialConfig)) * dial_step dialConfig)%Q in
      let newValue := Qmax (dial_min dialConfig) (Qmin (dial_max dialConfig) newValue) in
      set_dialValues (<[dialId := newValue]> (dialValues p)) p
  end.

(** [this.dialValues.frequency || 440]. *)
Definition currentFrequency (p : t) : Q :=
  q_or (dialValues p !! "frequency") 440.

(** [lockNote]; the lookup fails exactly when
    [currentNote >= targetPattern.length], the early return. *)
Definition lockNote (p : t) : t * list Signal * list Pending :=
  match targetPattern p !! currentNote p with
  | None => (p, [], [])
  | Some targetFreq =>
      let currentFreq := currentFrequency p in
      let diff := Qabs (targetFreq - currentFreq) in
      if Qle_bool diff (tolerance p) then
        let p := set_matchedNotes (matchedNotes p ++ [currentNote p]) p in
        let p := set_currentNote (S (currentNote p)) p in
        (p,
         [SfxPlay "note_locked";
          PuzzleUpdate (PuzzleController.id (PuzzleController.settings (super p)))
            (inject_Z (Z.of_nat (currentNote p))
             / inject_Z (Z.of_nat (length (targetPattern p))))%Q
            (PuzzleController.attempts (super p))],
         if (length (targetPattern p) <=? currentNote p)%nat
         then [After 500 KComplete] else [])
      else (p, [FeedbackOffBy diff; SfxPlay "note_wrong"], [])
  end.

(** The callbacks of this class, when they fire. *)
Definition resume (k : Continuation) (p : t) : t * list Signal :=
  match k with
  | KComplete => Puzzle.complete p
  | KSubmit => let '(_, p', sigs) := Puzzle.submit p in (p', sigs)
  | _ => (p, [])
  end.

Definition reset (p : t) : t * list Signal :=
  let p := set_currentNote 0 p in
  let p := set_matchedNotes [] p in
  let p := set_dialValues (centred (dials p) (dialValues p)) p in
  let '(b, sigs) := PuzzleController.reset (super p) in
  (set_super b p, sigs).

Definition destroy (p : t) : t :=
  set_super (PuzzleController.destroy (super p)) p.

End ResonancePuzzle.

(** ** The other three variants: their working state and validators *)

Module MechanicalPuzzle.

Record t : Type := mk {
  super : PuzzleController.t;
  slots : list string;
  solution : gmap string string;       (* slotId -> partId *)
  placedParts : gmap string string     (* slotId -> partId *)
}.

Record Config : Type := mkConfig {
  cfg_slots : option (list string);
  cfg_solution : option (gmap string string)
}.

Definition new (stamp : string) (common : PuzzleController.Config)
           (config : Config) : t :=
  {| super := PuzzleController.set_type "mechanical" (PuzzleController.new stamp common);
     slots := default [] (cfg_slots config);
     solution := default ∅ (cfg_solution config);
     placedParts := ∅ |}.

Definition set_super (b : PuzzleController.t) (p : t) : t :=
  mk b (slots p) (solution p) (placedParts p).

Definition reset (p : t) : t * list Signal :=
  let '(b, sigs) := PuzzleController.reset (super p) in
  (mk b (slots p) (solution p) ∅, sigs).

Definition getSolution (p : t) : gmap string string := placedParts p.

(** Every entry of the target mapping is found in the given one. *)
Definition validateSolution (p : t) (given : gmap string string) : bool :=
  forallb (fun '(slotId, correctPartId) =>
             bool_decide (given !! slotId = Some correctPartId))
          (map_to_list (solution p)).

#[global, refine] Instance variant : Variant t :=
  {| base := super;
     with_base := set_super;
     solutionValid := fun p => validateSolution p (getSolution p);
     completePrelude := [] |}.
Proof. all: reflexivity. Defined.

End MechanicalPuzzle.

Module SpellCraftingPuzzle.

Record t : Type := mk {
  super : PuzzleController.t;
  maxIngredients : Z;
  recipe : list string;
  selectedIngredients : list string
}.

Record Config : Type := mkConfig {
  cfg_maxIngredients : option Z;
  cfg_recipe : option (list string)
}.

Definition new (stamp : string) (common : PuzzleController.Config)
           (config : Config) : t :=
  {| super := PuzzleController.set_type "spell-crafting"
                (PuzzleController.new stamp common);
     maxIngredients := num_or (cfg_maxIngredients config) 5;
     recipe := default [] (cfg_recipe config);
     selectedIngredients := [] |}.

Definition set_super (b : PuzzleController.t) (p : t) : t :=
  mk b (maxIngredients p) (recipe p) (selectedIngredients p).

Definition reset (p : t) : t * list Signal :=
  let '(b, sigs) := PuzzleController.reset (super p) in
  (mk b (maxIngredients p) (recipe p) [], sigs).

Definition getSolution (p : t) : list string := selectedIngredients p.

(** The loop over the recipe, from index [i]. *)
Fixpoint recipeMatches (i : nat) (rest : list string) (given : list string) : bool :=
  match rest with
  | [] => true
  | r :: rest' =>
      if bool_decide (given !! i = Some r) then recipeMatches (S i) rest' given
      else false
  end.

Definition validateSolution (p : t) (given : list string) : bool :=
  if negb (length given =? length (recipe p))%nat then false
  else recipeMatches 0 (recipe p) given.

(** [complete] is overridden: a sound is played before [super.complete()]. *)
#[global, refine] Instance variant : Variant t :=
  {| base := super;
     with_base := set_super;
     solutionValid := fun p => validateSolution p (getSolution p);
     completePrelude := [SfxPlay "spell_success"] |}.
Proof. all: reflexivity. Defined.

End SpellCraftingPuzzle.

Module DiagnosisPuzzle.

Record t : Type := mk {
  super : PuzzleController.t;
  correctDiagnosis : string;
  selectedDiagnosis : option string    (* [None] is [null] *)
}.

Record Config : Type := mkConfig {
  cfg_correctDiagnosis : option string
}.

Definition new (stamp : string) (common : PuzzleController.Config)
           (config : Config) : t :=
  {| super := PuzzleController.set_type "diagnosis" (PuzzleController.new stamp common);
     correctDiagnosis := default "" (cfg_correctDiagnosis config);
     selectedDiagnosis := None |}.

Definition set_super (b : PuzzleController.t) (p : t) : t :=
  mk b (correctDiagnosis p) (selectedDiagnosis p).

Definition reset (p : t) : t * list Signal :=
  let '(b, sigs) := PuzzleController.reset (super p) in
  (mk b (correctDiagnosis p) None, sigs).

Definition validateSolution (p : t) (diagnosis : option string) : bool :=
  bool_decide (diagnosis = Some (correctDiagnosis p)).

#[global, refine] Instance variant : Variant t :=
  {| base := super;
     with_base := set_super;
     solutionValid := fun p => validateSolution p (selectedDiagnosis p);
     completePrelude := [] |}.
Proof. all: reflexivity. Defined.

End DiagnosisPuzzle.

(** ** PuzzleFactory *)

Module PuzzleFactory.

(** A configuration object, with the fields every constructor reads. *)
Record Config : Type := mkConfig {
  common : PuzzleController.Config;
  mechanical : MechanicalPuzzle.Config;
  spellCrafting : SpellCraftingPuzzle.Config;
  diagnosis : DiagnosisPuzzle.Config;
  repairSequence : RepairSequencePuzzle.Config;
  resonance : ResonancePuzzle.Config
}.

(** A puzzle object, by its class. *)
Inductive Instance : Type :=
| Generic (p : PuzzleController.t)
| Mechanical (p : MechanicalPuzzle.t)
| SpellCrafting (p : SpellCraftingPuzzle.t)
| Diagnosis (p : DiagnosisPuzzle.t)
| RepairSequence (p : RepairSequencePuzzle.t)
| Resonance (p : ResonancePuzzle.t).

Definition base_of (o : Instance) : PuzzleController.t :=
  match o with
  | Generic p => p
  | Mechanical p => MechanicalPuzzle.super p
  | SpellCrafting p => SpellCraftingPuzzle.super p
  | Diagnosis p => DiagnosisPuzzle.super p
  | RepairSequence p => RepairSequencePuzzle.super p
  | Resonance p => ResonancePuzzle.super p
  end.

(** A method of the base class that no subclass overrides. *)
Definition inherited (f : PuzzleController.t -> PuzzleController.t * list Signal)
           (o : Instance) : Instance * list Signal :=
  match o with
  | Generic p => let '(p', s) := Puzzle.lift f p in (Generic p', s)
  | Mechanical p => let '(p', s) := Puzzle.lift f p in (Mechanical p', s)
  | SpellCrafting p => let '(p', s) := Puzzle.lift f p in (SpellCrafting p', s)
  | Diagnosis p => let '(p', s) := Puzzle.lift f p in (Diagnosis p', s)
  | RepairSequence p => let '(p', s) := Puzzle.lift f p in (RepairSequence p', s)
  | Resonance p => let '(p', s) := Puzzle.lift f p in (Resonance p', s)
  end.

Definition submit (o : Instance) : Instance * list Signal :=
  match o with
  | Generic p => let '(_, p', s) := Puzzle.submit p in (Generic p', s)
  | Mechanical p => let '(_, p', s) := Puzzle.submit p in (Mechanical p', s)
  | SpellCrafting p => let '(_, p', s) := Puzzle.submit p in (SpellCrafting p', s)
  | Diagnosis p => let '(_, p', s) := Puzzle.submit p in (Diagnosis p', s)
  | RepairSequence p => let '(_, p', s) := Puzzle.submit p in (RepairSequence p', s)
  | Resonance p => let '(_, p', s) := Puzzle.submit p in (Resonance p', s)
  end.

Definition complete (o : Instance) : Instance * list Signal :=
  match o with
  | Generic p => let '(p', s) := Puzzle.complete p in (Generic p', s)
  | Mechanical p => let '(p', s) := Puzzle.complete p in (Mechanical p', s)
  | SpellCrafting p => let '(p', s) := Puzzle.complete p in (SpellCrafting p', s)
  | Diagnosis p => let '(p', s) := Puzzle.complete p in (Diagnosis p', s)
  | RepairSequence p => let '(p', s) := Puzzle.complete p in (RepairSequence p', s)
  | Resonance p => let '(p', s) := Puzzle.complete p in (Resonance p', s)
  end.

Definition reset (o : Instance) : Instance * list Signal :=
  match o with
  | Generic p => let '(p', s) := PuzzleController.reset p in (Generic p', s)
  | Mechanical p => let '(p', s) := MechanicalPuzzle.reset p in (Mechanical p', s)
  | SpellCrafting p => let '(p', s) := SpellCraftingPuzzle.reset p in (SpellCrafting p', s)
  | Diagnosis p => let '(p', s) := DiagnosisPuzzle.reset p in (Diagnosis p', s)
  | RepairSequence p => let '(p', s) := RepairSequencePuzzle.reset p in (RepairSequence p', s)
  | Resonance p => let '(p', s) := ResonancePuzzle.reset p in (Resonance p', s)
  end.

Definition useHint (o : Instance) : Instance * list Signal :=
  inherited (fun b => let '(_, b', s) := PuzzleController.useHint b in (b', s)) o.

Definition tick (o : Instance) : Instance * list Signal :=
  inherited PuzzleController.tick o.

Definition destroy (o : Instance) : Instance :=
  fst (inherited (fun b => (PuzzleController.destroy b, [])) o).

(** [init]: only the sequence puzzle keeps what it found in the page. *)
Definition init (dom : bool) (o : Instance) : Instance :=
  match o with
  | RepairSequence p => RepairSequence (RepairSequencePuzzle.init dom p)
  | _ => o
  end.

Definition start (o : Instance) : Instance * list Signal * list Pending :=
  match o with
  | RepairSequence p =>
      let '(p', s, pend) := RepairSequencePuzzle.start p in (RepairSequence p', s, pend)
  | _ => let '(o', s) := inherited PuzzleController.start o in (o', s, [])
  end.

(** A scheduled callback of an instance fires. *)
Definition resume (k : Continuation) (o : Instance) : Instance * list Signal :=
  match o with
  | RepairSequence p =>
      let '(p', s) := RepairSequencePuzzle.resume k p in (RepairSequence p', s)
  | Resonance p =>
      let '(p', s) := ResonancePuzzle.resume k p in (Resonance p', s)
  | _ =>
      match k with
      | KComplete => complete o
      | KSubmit => submit o
      | _ => (o, [])
      end
  end.

Definition handleInput (u : Q) (icon : string) (o : Instance)
  : Instance * list Signal * list Pending :=
  match o with
  | RepairSequence p =>
      let '(p', s, pend) := RepairSequencePuzzle.handleInput u icon p in
      (RepairSequence p', s, pend)
  | _ => (o, [], [])
  end.

Definition handleTimeUp (o : Instance) : Instance * list Signal * list Pending :=
  match o with
  | RepairSequence p =>
      let '(p', s, pend) := RepairSequencePuzzle.handleTimeUp p in
      (RepairSequence p', s, pend)
  | _ => (o, [], [])
  end.

Definition lockNote (o : Instance) : Instance * list Signal * list Pending :=
  match o with
  | Resonance p =>
      let '(p', s, pend) := ResonancePuzzle.lockNote p in (Resonance p', s, pend)
  | _ => (o, [], [])
  end.

(** The factory with everything it holds a reference to.  [objects] is
    the store of the puzzle objects constructed so far, a reference
    being an index into it: timers and listeners keep an object alive
    after the factory's slot has moved on. *)
Record t : Type := mk {
  state : StateManager.t;
  puzzleConfigs : gmap string Config;
  objects : list Instance;
  currentPuzzle : option nat;
  timers : list (nat * Pending);
  emitted : list Signal;
  dom : bool                         (* the page has the puzzle elements *)
}.

(** [create(type, config)]; an unregistered type gives the generic
    puzzle.  The registry holds the six default types. *)
Definition create (stamp : string) (type : option string) (config : Config)
  : Instance :=
  let typeIs ty := bool_decide (type = Some ty) in
  if typeIs "mechanical"
  then Mechanical (MechanicalPuzzle.new stamp (common config) (mechanical config))
  else if typeIs "spell-crafting"
  then SpellCrafting (SpellCraftingPuzzle.new stamp (common config) (spellCrafting config))
  else if typeIs "diagnosis"
  then Diagnosis (DiagnosisPuzzle.new stamp (common config) (diagnosis config))
  else if typeIs "repair-sequence"
  then RepairSequence
         (RepairSequencePuzzle.new stamp (common config) (repairSequence config))
  else if typeIs "resonance"
  then Resonance (ResonancePuzzle.new stamp (common config) (resonance config))
  else Generic (PuzzleController.new stamp (common config)).

Definition createById (stamp : string) (f : t) (puzzleId : string)
  : option Instance :=
  match puzzleConfigs f !! puzzleId with
  | None => None
  | Some config =>
      Some (create stamp (PuzzleController.cfg_type (common config)) config)
  end.

Definition currentId (f : t) : option string :=
  match currentPuzzle f with
  | Some r =>
      (fun o => PuzzleController.id (PuzzleController.settings (base_of o)))
        <$> objects f !! r
  | None => None
  end.

Definition applyReward (s : StateManager.t) (reward : Reward)
  : StateManager.t * list Signal :=
  match reward with
  | RewardItem id quantity => StateManager.addItem s id (num_or quantity 1)
  | RewardFlag id => StateManager.setFlag s id true
  | RewardVariable name value => StateManager.setVariable s name value
  | RewardOther => (s, [])
  end.

Fixpoint applyRewards (s : StateManager.t) (rewards : list Reward)
  : StateManager.t * list Signal :=
  match rewards with
  | [] => (s, [])
  | reward :: rest =>
      let '(s1, sigs1) := applyReward s reward in
      let '(s2, sigs2) := applyRewards s1 rest in
      (s2, sigs1 ++ sigs2)
  end.

(** [handlePuzzleComplete(result)]: the flag and the score are filed
    under the puzzle that occupies the slot when the callback runs. *)
Definition handlePuzzleComplete (f : t) (resultScore : Z) (resultRewards : list Reward)
  : StateManager.t * list Signal :=
  let '(s1, sigs1) :=
    match currentId f with
    | Some pid =>
        let '(s, a) :=
          StateManager.setFlag (state f) ("puzzle_" +:+ pid +:+ "_complete") true in
        let '(s, b) :=
          StateManager.setVariable s ("puzzle_" +:+ pid +:+ "_score") (VNum resultScore) in
        (s, a ++ b)
    | None => (state f, [])
    end in
  let '(s2, sigs2) := applyRewards s1 resultRewards in
  (s2, sigs1 ++ sigs2).

(** [failures + 1] on what the variable holds. *)
Definition plusOne (v : Value) : Value :=
  match v with
  | VNum n => VNum (n + 1)
  | VStr s => VStr (s +:+ "1")
  | VBool b => VNum (if b then 2 else 1)
  | VNull => VNum 1
  | VUndefined => VUndefined     (* NaN is not a value of the model *)
  end.

Definition handlePuzzleFail (f : t) : StateManager.t * list Signal :=
  match currentId f with
  | Some pid =>
      let name := "puzzle_" +:+ pid +:+ "_failures" in
      let failures := StateManager.getVariable (state f) name (VNum 0) in
      StateManager.setVariable (state f) name (plusOne failures)
  | None => (state f, [])
  end.

Definition with_state (s : StateManager.t) (sigs : list Signal) (f : t) : t :=
  mk s (puzzleConfigs f) (objects f) (currentPuzzle f) (timers f)
     (emitted f ++ sigs) (dom f).

(** The signals of a puzzle reach the bus in order; the two callbacks
    that the factory installed run its handlers. *)
Fixpoint deliver (sigs : list Signal) (f : t) : t :=
  match sigs with
  | [] => f
  | sig :: rest =>
      let f := with_state (state f) [sig] f in
      let f :=
        match sig with
        | OnComplete _ sc rw =>
            let '(s, out) := handlePuzzleComplete f sc rw in with_state s out f
        | OnFail _ _ =>
            let '(s, out) := handlePuzzleFail f in with_state s out f
        | _ => f
        end in
      deliver rest f
  end.

(** One method call on the object behind a reference. *)
Definition call (r : nat) (m : Instance -> Instance * list Signal * list Pending)
           (f : t) : t :=
  match objects f !! r with
  | None => f
  | Some o =>
      let '(o', sigs, pend) := m o in
      deliver sigs
        (mk (state f) (puzzleConfigs f) (<[r := o']> (objects f))
            (currentPuzzle f) (timers f ++ map (pair r) pend) (emitted f) (dom f))
  end.

Definition quiet (m : Instance -> Instance * list Signal)
  : Instance -> Instance * list Signal * list Pending :=
  fun o => let '(o', sigs) := m o in (o', sigs, []).

(** What [startPuzzle] is given: an identifier or an inline configuration. *)
Inductive Request : Type :=
| ById (puzzleId : string)
| Inline (config : Config).

(** The first statement of [startPuzzle]:
    [if (this.currentPuzzle?.isActive) this.currentPuzzle.destroy()]. *)
Definition stopCurrent (f : t) : t :=
  match currentPuzzle f with
  | Some r =>
      match objects f !! r with
      | Some o =>
          if PuzzleController.isActive (base_of o)
          then call r (fun o => (destroy o, [], [])) f
          else f
      | None => f
      end
  | None => f
  end.

(** [startPuzzle(puzzle)], run to its end; the result tells whether a
    puzzle was returned. *)
Definition startPuzzle (stamp : string) (puzzle : Request) (f : t) : bool * t :=
  let f := stopCurrent f in
  let created :=
    match puzzle with
    | ById puzzleId => Some (createById stamp f puzzleId)
    | Inline config =>
        match PuzzleController.cfg_type (common config) with
        | Some ty =>
            if String.eqb ty "" then None
            else Some (Some (create stamp (Some ty) config))
        | None => None
        end
    end in
  match created with
  | None => (false, f)                   (* invalid configuration: the slot is kept *)
  | Some None =>
      (false, mk (state f) (puzzleConfigs f) (objects f) None (timers f)
                 (emitted f) (dom f))
  | Some (Some o) =>
      let r := length (objects f) in
      let o := fst (inherited (fun b => (PuzzleController.set_callbacks true true b, [])) o) in
      let f := mk (state f) (puzzleConfigs f) (objects f ++ [o]) (Some r)
                  (timers f) (emitted f) (dom f) in
      let f := call r (fun o => (init (dom f) o, [], [])) f in
      (true, call r start f)
  end.

(** What can happen to the factory and the objects it created. *)
Inductive Event : Type :=
| EStartPuzzle (stamp : string) (puzzle : Request)
| ETick (r : nat)                        (* the interval of an object fires *)
| EFire (r : nat) (k : Continuation)     (* a scheduled callback fires *)
| ESubmit (r : nat)                      (* the submit button *)
| EReset (r : nat)                       (* the reset button *)
| EHint (r : nat)                        (* the hint button *)
| EInput (r : nat) (u : Q) (icon : string)   (* an action button *)
| EInputTimeUp (r : nat)                    (* the input timer of a sequence puzzle *)
| ELockNote (r : nat).                      (* the lock button *)

Definition scheduled (r : nat) (k : Continuation) (f : t) : bool :=
  existsb (fun '(r', After _ k') =>
             bool_decide (r' = r) && bool_decide (k' = k)) (timers f).

Fixpoint unschedule (r : nat) (k : Continuation) (l : list (nat * Pending))
  : list (nat * Pending) :=
  match l with
  | [] => []
  | (r', After ms k') :: rest =>
      if bool_decide (r' = r) && bool_decide (k' = k) then rest
      else (r', After ms k') :: unschedule r k rest
  end.

Definition step (e : Event) (f : t) : t :=
  match e with
  | EStartPuzzle stamp puzzle => snd (startPuzzle stamp puzzle f)
  | ETick r => call r (quiet tick) f
  | EFire r k =>
      if scheduled r k f then
        call r (quiet (resume k))
             (mk (state f) (puzzleConfigs f) (objects f) (currentPuzzle f)
                 (unschedule r k (timers f)) (emitted f) (dom f))
      else f
  | ESubmit r => call r (quiet submit) f
  | EReset r => call r (quiet reset) f
  | EHint r => call r (quiet useHint) f
  | EInput r u icon => call r (handleInput u icon) f
  | EInputTimeUp r => call r handleTimeUp f
  | ELockNote r => call r lockNote f
  end.

Definition run (es : list Event) (f : t) : t := foldl (fun f e => step e f) f es.

(** [new PuzzleFactory(stateManager)] with the configurations loaded. *)
Definition new (s : StateManager.t) (configs : gmap string Config) (page : bool) : t :=
  mk s configs [] None [] [] page.

End PuzzleFactory.

(** ** The specification's own operators on completions *)

(** [evaluate(A) && evaluate(B)]: the right operand is evaluated only
    when the left one returned [true]. *)
Definition and_then (a b : Completion bool) : Completion bool :=
  match a with
  | Return true => b
  | Return false => Return false
  | Throw e => Throw e
  end.

(** [!evaluate(A)]. *)
Definition negated (a : Completion bool) : Completion bool :=
  match a with
  | Return b => Return (negb b)
  | Throw e => Throw e
  end.

(** Every count that [getItemQuantity] reports is non-negative. *)
Definition counts_nonneg (s : StateManager.t) : Prop :=
  forall itemId, 0 <= StateManager.getItemQuantity s itemId.

(** The calls that change the inventory. *)
Inductive InventoryCall : Type :=
| CallAdd (itemId : string) (quantity : Z)
| CallRemove (itemId : string) (quantity : Z).

Definition inventoryCall (c : InventoryCall) (s : StateManager.t) : StateManager.t :=
  match c with
  | CallAdd itemId quantity => fst (StateManager.addItem s itemId quantity)
  | CallRemove itemId quantity => snd (fst (StateManager.removeItem s itemId quantity))
  end.

(** A call whose quantity, when it adds, is not negative. *)
Definition adds_nonneg (c : InventoryCall) : Prop :=
  match c with
  | CallAdd _ quantity => 0 <= quantity
  | CallRemove _ _ => True
  end.

(** [n] firings of the countdown interval, with what they emit. *)
Fixpoint ticks (n : nat) (p : PuzzleController.t) : PuzzleController.t * list Signal :=
  match n with
  | O => (p, [])
  | S n' =>
      let '(p1, sigs1) := PuzzleController.tick p in
      let '(p2, sigs2) := ticks n' p1 in
      (p2, sigs1 ++ sigs2)
  end.

(** The firings of the 1000 ms interval that fall within [ms] milliseconds
    of wall clock, when nothing else runs. *)
Definition elapse (ms : Z) (p : PuzzleController.t) : PuzzleController.t * list Signal :=
  ticks (Z.to_nat (ms / 1000)) p.

(** The number of firings after which a countdown of [remaining]
    milliseconds is at or below zero. *)
Definition deadlineTicks (remaining : Z) : Z := (remaining + 999) / 1000.

(** What the failure of a puzzle emits. *)
Definition failureSignals (p : PuzzleController.t) (reason : string) : list Signal :=
  [Feedback false reason;
   PuzzleFail (PuzzleController.id (PuzzleController.settings p)) reason
              (PuzzleController.attempts p)]
  ++ (if PuzzleController.onFail p
      then [OnFail (PuzzleController.id (PuzzleController.settings p)) reason]
      else []).

(** A timed expert puzzle, as the constructor builds it. *)
Definition expertConfig : PuzzleController.Config :=
  {| PuzzleController.cfg_id := Some "loom";
     PuzzleController.cfg_type := Some "spell-crafting";
     PuzzleController.cfg_title := None;
     PuzzleController.cfg_difficulty := Some "expert";
     PuzzleController.cfg_maxAttempts := None;
     PuzzleController.cfg_timeLimit := Some 5000;
     PuzzleController.cfg_hints := None;
     PuzzleController.cfg_maxHints := None;
     PuzzleController.cfg_rewards := None;
     PuzzleController.cfg_onComplete := false;
     PuzzleController.cfg_onFail := false |}.

(** The spell puzzle built from it, started, with the one ingredient of
    its recipe selected. *)
Definition expertSpell : SpellCraftingPuzzle.t :=
  let fresh :=
    SpellCraftingPuzzle.new "puzzle_0" expertConfig
      (SpellCraftingPuzzle.mkConfig None (Some ["moonpetal"])) in
  SpellCraftingPuzzle.mk
    (fst (PuzzleController.start (SpellCraftingPuzzle.super fresh)))
    (SpellCraftingPuzzle.maxIngredients fresh)
    (SpellCraftingPuzzle.recipe fresh)
    ["moonpetal"].

(** The incremented attempt count has reached the configured maximum. *)
Definition maximumReached (p : PuzzleController.t) : Prop :=
  match PuzzleController.maxAttempts (PuzzleController.settings p) with
  | Some m => m <= PuzzleController.attempts p + 1
  | None => False
  end.

(** A sequence puzzle that shows each step for 100 ms; the input time,
    and with it the time limit, is the default 5000 ms. *)
Definition quickSequenceConfig : PuzzleFactory.Config :=
  {| PuzzleFactory.common :=
       PuzzleController.mkConfig (Some "valve") (Some "repair-sequence") None None
         None (Some 5000) None None None false false;
     PuzzleFactory.mechanical := MechanicalPuzzle.mkConfig None None;
     PuzzleFactory.spellCrafting := SpellCraftingPuzzle.mkConfig None None;
     PuzzleFactory.diagnosis := DiagnosisPuzzle.mkConfig None;
     PuzzleFactory.repairSequence :=
       RepairSequencePuzzle.mkConfig None (Some 100) None None None;
     PuzzleFactory.resonance := ResonancePuzzle.mkConfig None None None |}.

(** A generic puzzle with the given identifier, attempt limit and time limit. *)
Definition genericConfig (puzzleId : string) (maxAttempts timeLimit : option Z)
  : PuzzleFactory.Config :=
  {| PuzzleFactory.common :=
       PuzzleController.mkConfig (Some puzzleId) (Some "generic") None None
         maxAttempts timeLimit None None None false false;
     PuzzleFactory.mechanical := MechanicalPuzzle.mkConfig None None;
     PuzzleFactory.spellCrafting := SpellCraftingPuzzle.mkConfig None None;
     PuzzleFactory.diagnosis := DiagnosisPuzzle.mkConfig None;
     PuzzleFactory.repairSequence :=
       RepairSequencePuzzle.mkConfig None None None None None;
     PuzzleFactory.resonance := ResonancePuzzle.mkConfig None None None |}.

(** A page with the puzzle elements and no puzzle yet. *)
Definition emptyFactory : PuzzleFactory.t :=
  PuzzleFactory.new StateManager.reset ∅ true.

Definition isPuzzleFail (sig : Signal) : bool :=
  match sig with
  | PuzzleFail _ _ _ => true
  | _ => false
  end.


(** The base fields of the object behind a reference. *)
Definition baseAt (f : PuzzleFactory.t) (r : nat) : option PuzzleController.t :=
  PuzzleFactory.base_of <$> PuzzleFactory.objects f !! r.

(** Only the object in the factory's slot is flagged active. *)
Definition one_active (f : PuzzleFactory.t) : Prop :=
  forall r p, baseAt f r = Some p -> PuzzleController.isActive p = true ->
              PuzzleFactory.currentPuzzle f = Some r.

(** No object is flagged active. *)
Definition all_inactive (f : PuzzleFactory.t) : Prop :=
  forall r p, baseAt f r = Some p -> PuzzleController.isActive p = false.

Definition isStartPuzzle (e : PuzzleFactory.Event) : bool :=
  match e with
  | PuzzleFactory.EStartPuzzle _ _ => true
  | _ => false
  end.

(** A step of an object other than [start]: the hint count does not
    shrink and the object is not made active. *)
Definition keeps (p p' : PuzzleController.t) : Prop :=
  PuzzleController.hintsUsed p <= PuzzleController.hintsUsed p'
  /\ (PuzzleController.isActive p' = true -> PuzzleController.isActive p = true).

(** The sequence puzzle of [quickSequenceConfig] during its first 5001 ms:
    the interval fires at 1000, 2000, ..., 5000 ms; the show starts at
    1000 ms and, with four steps of 100 + 200 ms each, hands over to the
    input phase at 2200 ms, between the second and the third firing. *)
Definition quickSequenceRun : list PuzzleFactory.Event :=
  [PuzzleFactory.EStartPuzzle "puzzle_0" (PuzzleFactory.Inline quickSequenceConfig);
   PuzzleFactory.ETick 0; PuzzleFactory.ETick 0;
   PuzzleFactory.EFire 0 KShowSequence;
   PuzzleFactory.ETick 0; PuzzleFactory.ETick 0; PuzzleFactory.ETick 0].

(** A generic puzzle with a time limit of 5000 ms, constructed. *)
Definition timedPuzzle : PuzzleController.t :=
  PuzzleController.new "puzzle_0"
    (PuzzleController.mkConfig (Some "clock") None None None None (Some 5000)
       None None None false false).

(** A resonance puzzle of one note, which the frequency dial meets at its
    initial position (600 Hz). *)
Definition oneNoteConfig : PuzzleFactory.Config :=
  {| PuzzleFactory.common :=
       PuzzleController.mkConfig (Some "chime") (Some "resonance") None None
         None None None None None false false;
     PuzzleFactory.mechanical := MechanicalPuzzle.mkConfig None None;
     PuzzleFactory.spellCrafting := SpellCraftingPuzzle.mkConfig None None;
     PuzzleFactory.diagnosis := DiagnosisPuzzle.mkConfig None;
     PuzzleFactory.repairSequence :=
       RepairSequencePuzzle.mkConfig None None None None None;
     PuzzleFactory.resonance := ResonancePuzzle.mkConfig (Some [600%Q]) None None |}.

(** A factory that knows a timed puzzle "lock" with one attempt and a
    puzzle "lamp". *)
Definition twoPuzzleFactory : PuzzleFactory.t :=
  PuzzleFactory.new StateManager.reset
    (<["lock" := genericConfig "lock" (Some 1) (Some 5000)]>
       (<["lamp" := genericConfig "lamp" None None]> ∅))
    true.

(** The chime is started and its only note locked: its completion is
    scheduled and the puzzle is still active.  Then the lamp is started. *)
Definition chimeThenLamp : list PuzzleFactory.Event :=
  [PuzzleFactory.EStartPuzzle "puzzle_0" (PuzzleFactory.Inline oneNoteConfig);
   PuzzleFactory.ELockNote 0;
   PuzzleFactory.EStartPuzzle "puzzle_1" (PuzzleFactory.ById "lamp")].

(** The lock is started, failed by its one wrong submission and reset
    with the reset button.  Then the lamp is started. *)
Definition lockResetThenLamp : list PuzzleFactory.Event :=
  [PuzzleFactory.EStartPuzzle "puzzle_0" (PuzzleFactory.ById "lock");
   PuzzleFactory.ESubmit 0;
   PuzzleFactory.EReset 0;
   PuzzleFactory.EStartPuzzle "puzzle_1" (PuzzleFactory.ById "lamp")].

(** The signals put on the bus after the first [n]. *)
Definition emittedAfter (n : nat) (f : PuzzleFactory.t) : list Signal :=
  drop n (PuzzleFactory.emitted f).

(** The icons are entered one after the other; the callbacks that the
    inputs schedule are collected. *)
Fixpoint enterAll (u : Q) (icons : list string) (p : RepairSequencePuzzle.t)
  : RepairSequencePuzzle.t * list Pending :=
  match icons with
  | [] => (p, [])
  | icon :: rest =>
      let '(p1, _, pend1) := RepairSequencePuzzle.handleInput u icon p in
      let '(p2, pend2) := enterAll u rest p1 in
      (p2, pend1 ++ pend2)
  end.

(** The scheduled callbacks fire, in order. *)
Definition fireAll (pend : list Pending) (p : RepairSequencePuzzle.t)
  : RepairSequencePuzzle.t :=
  foldl (fun p '(After _ k) => fst (RepairSequencePuzzle.resume k p)) p pend.

(** One fully correct round: the target sequence is entered and what
    this schedules runs.  [u] is the draw that extends the sequence. *)
Definition playRound (u : Q) (p : RepairSequencePuzzle.t) : RepairSequencePuzzle.t :=
  let '(p', pend) := enterAll u (RepairSequencePuzzle.sequence p) p in
  fireAll pend p'.

(** Consecutive fully correct rounds, one for each draw. *)
Fixpoint playRounds (draws : list Q) (p : RepairSequencePuzzle.t)
  : RepairSequencePuzzle.t :=
  match draws with
  | [] => p
  | u :: rest => playRounds rest (playRound u p)
  end.

(** The start of an input phase in a page that shows the puzzle: the
    display has a step element for each entry of a non-empty sequence and
    there are action buttons. *)
Definition inputReady (p : RepairSequencePuzzle.t) : Prop :=
  RepairSequencePuzzle.phase p = RepairSequencePuzzle.Input
  /\ RepairSequencePuzzle.playerInput p = []
  /\ RepairSequencePuzzle.contentElement p = true
  /\ RepairSequencePuzzle.stepEls p = length (RepairSequencePuzzle.sequence p)
  /\ RepairSequencePuzzle.sequence p <> []
  /\ RepairSequencePuzzle.actions p <> [].

(** A draw of [Math.random]. *)
Definition isDraw (u : Q) : Prop := (0 <= u)%Q /\ (u < 1)%Q.

(** A sequence puzzle of three rounds and four steps, with the given
    display time of a step; the input time, and with it the time limit of
    the countdown, is the default 5000 ms. *)
Definition sequenceConfig (displayTime : option Z) : PuzzleFactory.Config :=
  {| PuzzleFactory.common :=
       PuzzleController.mkConfig (Some "pump") (Some "repair-sequence") None None
         None None None None None false false;
     PuzzleFactory.mechanical := MechanicalPuzzle.mkConfig None None;
     PuzzleFactory.spellCrafting := SpellCraftingPuzzle.mkConfig None None;
     PuzzleFactory.diagnosis := DiagnosisPuzzle.mkConfig None;
     PuzzleFactory.repairSequence :=
       RepairSequencePuzzle.mkConfig None displayTime None None (Some 3);
     PuzzleFactory.resonance := ResonancePuzzle.mkConfig None None None |}.

(** The sequence puzzle behind a reference. *)
Definition sequenceAt (f : PuzzleFactory.t) (r : nat) : option RepairSequencePuzzle.t :=
  match PuzzleFactory.objects f !! r with
  | Some (PuzzleFactory.RepairSequence p) => Some p
  | _ => None
  end.


(** The scenario with steps shown for 100 ms, up to its first input
    phase: the puzzle is started in a page that shows it, the countdown
    fires at 1000 and 2000 ms, and the show, begun at 1000 ms, hands over
    to the input phase at 2200 ms (four steps of 100 + 200 ms). *)
Definition scenarioShown : list PuzzleFactory.Event :=
  [PuzzleFactory.EStartPuzzle "puzzle_0" (PuzzleFactory.Inline (sequenceConfig (Some 100)));
   PuzzleFactory.ETick 0; PuzzleFactory.ETick 0;
   PuzzleFactory.EFire 0 KShowSequence].

(** The sequence puzzle of the scenario at the start of its first input
    phase. *)
Definition scenarioSequence : RepairSequencePuzzle.t :=
  default
    (RepairSequencePuzzle.new "puzzle_0"
       (PuzzleFactory.common (sequenceConfig (Some 100)))
       (PuzzleFactory.repairSequence (sequenceConfig (Some 100))))
    (sequenceAt (PuzzleFactory.run scenarioShown emptyFactory) 0).




(** A resonance puzzle whose frequency dial ranges from 0 Hz and whose
    one target note is 440 Hz, started; the player drags the dial from the
    middle of its range down to its minimum. *)
Definition zeroDialChime : ResonancePuzzle.t :=
  let fresh :=
    ResonancePuzzle.new "puzzle_0"
      (PuzzleController.mkConfig (Some "chime") (Some "resonance") None None
         None None None None None false false)
      (ResonancePuzzle.mkConfig (Some [440%Q]) None
         (Some [ResonancePuzzle.mkDial "frequency" "Frequency" 0 1000 10])) in
  let started :=
    ResonancePuzzle.set_super (fst (PuzzleController.start (ResonancePuzzle.super fresh)))
      fresh in
  ResonancePuzzle.handleMove "frequency" 500 (-100) started.

(** The dial is set to each frequency in turn and the note locked; the
    callbacks that this schedules are collected. *)
Fixpoint lockEach (frequencies : list Q) (p : ResonancePuzzle.t)
  : ResonancePuzzle.t * list Pending :=
  match frequencies with
  | [] => (p, [])
  | frequency :: rest =>
      let tuned :=
        ResonancePuzzle.set_dialValues
          (<["frequency" := frequency]> (ResonancePuzzle.dialValues p)) p in
      let '(p1, _, pend1) := ResonancePuzzle.lockNote tuned in
      let '(p2, pend2) := lockEach rest p1 in
      (p2, pend1 ++ pend2)
  end.

(** The frequency that [lockNote] reads off a dial at [frequency]. *)
Definition heard (frequency : Q) : Q := ResonancePuzzle.q_or (Some frequency) 440.

(** The default resonance puzzle, started. *)
Definition defaultChime : ResonancePuzzle.t :=
  let fresh :=
    ResonancePuzzle.new "puzzle_0"
      (PuzzleController.mkConfig (Some "chime") (Some "resonance") None None
         None None None None None false false)
      (ResonancePuzzle.mkConfig None None None) in
  ResonancePuzzle.set_super (fst (PuzzleController.start (ResonancePuzzle.super fresh)))
    fresh.

(** The frequency that [lockNote] reads is within the tolerance of [target]. *)
Definition inTolerance (p : ResonancePuzzle.t) (target : Q) : Prop :=
  (Qabs (target - ResonancePuzzle.currentFrequency p) <= ResonancePuzzle.tolerance p)%Q.

(** [lockNote] recorded the current note and moved on to the next. *)
Definition advanced (p p' : ResonancePuzzle.t) : Prop :=
  ResonancePuzzle.matchedNotes p'
  = ResonancePuzzle.matchedNotes p ++ [ResonancePuzzle.currentNote p]
  /\ ResonancePuzzle.currentNote p' = S (ResonancePuzzle.currentNote p).

(** ** StateManager: the flag methods beside [setFlag] *)

Module StateManagerFlags.
Import StateManager.

(** [clearFlag]: the entry is deleted and the bus is told the value [false]. *)
Definition clearFlag (s : t) (flag : string) : t * list Signal :=
  ({| state := state s; flags := delete flag (flags s);
      variables := variables s; inventory := inventory s |},
   [FlagSet flag false]).

(** [hasAllFlags(...flags)]: [flags.every(flag => this.hasFlag(flag))]. *)
Definition hasAllFlags (s : t) (flags : list string) : bool :=
  forallb (hasFlag s) flags.

(** [hasAnyFlag(...flags)]: [flags.some(flag => this.hasFlag(flag))]. *)
Definition hasAnyFlag (s : t) (flags : list string) : bool :=
  existsb (hasFlag s) flags.

End StateManagerFlags.

(** ** Condition objects as the chapter files write them *)

(** [{ type: 'and', conditions: [...] }]. *)
Definition condAnd (conditions : list StateManager.Condition) : StateManager.Condition :=
  StateManager.CondObject (VStr "and") VUndefined VUndefined VUndefined
    (Some conditions) (StateManager.CondValue VUndefined).

(** [{ type: 'or', conditions: [...] }]. *)
Definition condOr (conditions : list StateManager.Condition) : StateManager.Condition :=
  StateManager.CondObject (VStr "or") VUndefined VUndefined VUndefined
    (Some conditions) (StateManager.CondValue VUndefined).

(** [{ type: 'not', condition: c }]. *)
Definition condNot (condition : StateManager.Condition) : StateManager.Condition :=
  StateManager.CondObject (VStr "not") VUndefined VUndefined VUndefined None condition.

(** A bare flag name. *)
Definition condFlagNamed (flag : string) : StateManager.Condition :=
  StateManager.CondValue (VStr flag).

(** [{ type: 'item', key: itemId, value: v }]; a missing [value] is
    [VUndefined]. *)
Definition condItem (itemId : string) (value : Value) : StateManager.Condition :=
  StateManager.CondObject (VStr "item") (VStr itemId) VUndefined value None
    (StateManager.CondValue VUndefined).

(** Every [and] and [or] node that an evaluation can reach carries an
    array of conditions. *)
Fixpoint wellFormed (c : StateManager.Condition) : bool :=
  match c with
  | StateManager.CondValue _ => true
  | StateManager.CondObject type _ _ _ conditions condition =>
      match StateManager.switch_type type with
      | StateManager.TAnd | StateManager.TOr =>
          match conditions with
          | Some cs => forallb wellFormed cs
          | None => false
          end
      | StateManager.TNot => wellFormed condition
      | _ => true
      end
  end.

(** The two stores answer every flag query alike. *)
Definition sameFlagAnswers (s1 s2 : StateManager.t) : Prop :=
  forall flag, StateManager.hasFlagV s1 flag = StateManager.hasFlagV s2 flag.

(** ** Pressing the hint button repeatedly *)

(** [n] calls of [useHint]: what each call returned, in order, and the
    puzzle afterwards. *)
Fixpoint useHints (n : nat) (p : PuzzleController.t)
  : list (option string) * PuzzleController.t :=
  match n with
  | O => ([], p)
  | S n' =>
      let '(hint, p1, _) := PuzzleController.useHint p in
      let '(given, p2) := useHints n' p1 in
      (hint :: given, p2)
  end.

(** The smaller of [maxHints] and [hints.length]. *)
Definition hintLimit (p : PuzzleController.t) : nat :=
  Z.to_nat (Z.min (PuzzleController.maxHints (PuzzleController.settings p))
                  (Z.of_nat (length (PuzzleController.hints (PuzzleController.settings p))))).

(** ** What the rewards of a puzzle add up to *)

(** The quantity of [itemId] that the item rewards of a list grant:
    [reward.quantity || 1] for each reward of that item. *)
Fixpoint itemsGranted (itemId : string) (rewards : list Reward) : Z :=
  match rewards with
  | [] => 0
  | RewardItem id quantity :: rest =>
      (if String.eqb id itemId then num_or quantity 1 else 0) + itemsGranted itemId rest
  | _ :: rest => itemsGranted itemId rest
  end.

(** The list has a variable reward that writes [name]. *)
Definition writesVariable (name : string) (rewards : list Reward) : bool :=
  existsb (fun reward => match reward with
                         | RewardVariable n _ => String.eqb n name
                         | _ => false
                         end) rewards.

(** The variable under which [handlePuzzleFail] counts the failures of
    the puzzle named [puzzleId]. *)
Definition failuresName (puzzleId : string) : string :=
  "puzzle_" +:+ puzzleId +:+ "_failures".

(** ** Puzzles of a type that has no class of its own *)

(** The types that [registerDefaultTypes] maps to a subclass. *)
Definition specialised : list string :=
  ["mechanical"; "spell-crafting"; "diagnosis"; "repair-sequence"; "resonance"].

Definition isGeneric (o : PuzzleFactory.Instance) : bool :=
  match o with
  | PuzzleFactory.Generic _ => true
  | _ => false
  end.

(** No object of the base class is complete, and every scheduled
    callback belongs to an object of another class. *)
Definition genericsUnsolved (f : PuzzleFactory.t) : Prop :=
  (forall r p, PuzzleFactory.objects f !! r = Some (PuzzleFactory.Generic p) ->
               PuzzleController.isComplete p = false)
  /\ (forall r pending, In (r, pending) (PuzzleFactory.timers f) ->
                        exists o, PuzzleFactory.objects f !! r = Some o
                                  /\ isGeneric o = false).

(** A method that keeps the class of the object it is called on and that,
    on an object of the base class, neither completes it nor schedules a
    callback. *)
Definition genericSafe
           (m : PuzzleFactory.Instance ->
                PuzzleFactory.Instance * list Signal * list Pending)
           (o : PuzzleFactory.Instance) : Prop :=
  let '(o', _, pend) := m o in
  match o with
  | PuzzleFactory.Generic p =>
      exists p', o' = PuzzleFactory.Generic p'
                 /\ (PuzzleController.isComplete p = false ->
                     PuzzleController.isComplete p' = false)
                 /\ pend = []
  | _ => isGeneric o' = false
  end.

(** ** SpellCraftingPuzzle: the ingredient shelf *)

Module SpellCraftingShelf.
Import SpellCraftingPuzzle.




End SpellCraftingShelf.



(** ** The notes of the resonance puzzle, in order *)

(** The matched notes are the indices below the current note, in order,
    and the current note is not beyond the pattern. *)
Definition notesInOrder (p : ResonancePuzzle.t) : Prop :=
  ResonancePuzzle.matchedNotes p = seq 0 (ResonancePuzzle.currentNote p)
  /\ (ResonancePuzzle.currentNote p <= length (ResonancePuzzle.targetPattern p))%nat.

(** Every object that the factory created satisfies [Q]. *)
Definition everyObject (Q : PuzzleFactory.Instance -> Prop) (f : PuzzleFactory.t) : Prop :=
  forall r o, PuzzleFactory.objects f !! r = Some o -> Q o.

(** The method keeps [Q]. *)
Definition preserves (Q : PuzzleFactory.Instance -> Prop)
           (m : PuzzleFactory.Instance ->
                PuzzleFactory.Instance * list Signal * list Pending) : Prop :=
  forall o, Q o -> Q (fst (fst (m o))).

(** [Q] holds of every constructed object and every method of an object
    keeps it. *)
Definition objectInvariant (Q : PuzzleFactory.Instance -> Prop) : Prop :=
  (forall stamp type config, Q (PuzzleFactory.create stamp type config))
  /\ preserves Q (fun o =>
       (fst (PuzzleFactory.inherited
               (fun b => (PuzzleController.set_callbacks true true b, [])) o), [], []))
  /\ (forall page, preserves Q (fun o => (PuzzleFactory.init page o, [], [])))
  /\ preserves Q PuzzleFactory.start
  /\ preserves Q (fun o => (PuzzleFactory.destroy o, [], []))
  /\ preserves Q (PuzzleFactory.quiet PuzzleFactory.tick)
  /\ (forall k, preserves Q (PuzzleFactory.quiet (PuzzleFactory.resume k)))
  /\ preserves Q (PuzzleFactory.quiet PuzzleFactory.submit)
  /\ preserves Q (PuzzleFactory.quiet PuzzleFactory.reset)
  /\ preserves Q (PuzzleFactory.quiet PuzzleFactory.useHint)
  /\ (forall u icon, preserves Q (PuzzleFactory.handleInput u icon))
  /\ preserves Q PuzzleFactory.handleTimeUp
  /\ preserves Q PuzzleFactory.lockNote.

(** The notes of a resonance puzzle are in order. *)
Definition resonanceInOrder (o : PuzzleFactory.Instance) : Prop :=
  match o with
  | PuzzleFactory.Resonance p => notesInOrder p
  | _ => True
  end.

(** ** The counters of a puzzle *)

(** The attempt count, the hint count and the score are not negative,
    and no more hints were used than the puzzle gives out. *)
Definition countersInRange (p : PuzzleController.t) : Prop :=
  0 <= PuzzleController.attempts p
  /\ 0 <= PuzzleController.hintsUsed p
  /\ PuzzleController.hintsUsed p <= Z.of_nat (hintLimit p)
  /\ 0 <= PuzzleController.score p.

Definition objectCountersInRange (o : PuzzleFactory.Instance) : Prop :=
  countersInRange (PuzzleFactory.base_of o).

(** ** helpers.js: numbers and arrays *)

Module Helpers.

(** [clamp(value, min, max)]: [Math.min(Math.max(value, min), max)]. *)
Definition clamp (value min max : Q) : Q := Qmin (Qmax value min) max.

(** [randomInt(min, max)] for a draw [u] of [Math.random]. *)
Definition randomInt (u : Q) (min max : Z) : Z :=
  Qfloor (u * inject_Z (max - min + 1))%Q + min.

(** [randomPick(array)] for a draw [u]; [None] is [undefined]. *)
Definition randomPick {A} (u : Q) (array : list A) : option A :=
  let i := Qfloor (u * inject_Z (Z.of_nat (length array)))%Q in
  if i <? 0 then None else array !! Z.to_nat i.

(** [[result[i], result[j]] = [result[j], result[i]]] on two indices of
    the array.  An index beyond the array, which a draw in [0,1) never
    gives, is outside the model: the array is then left as it is. *)
Definition swap {A} (i j : nat) (result : list A) : list A :=
  match result !! i, result !! j with
  | Some x, Some y => <[j := x]> (<[i := y]> result)
  | _, _ => result
  end.

(** The loop of [shuffle] from index [i] down to 1; [random k] is the
    draw of the [k]-th call of [Math.random]. *)
Fixpoint shuffleFrom {A} (i : nat) (random : nat -> Q) (k : nat) (result : list A)
  : list A :=
  match i with
  | O => result
  | S i' =>
      let j := Z.to_nat (Qfloor (random k * inject_Z (Z.of_nat (i + 1)))%Q) in
      shuffleFrom i' random (S k) (swap i j result)
  end.

(** [shuffle(array)]: the copy that the loop worked on. *)
Definition shuffle {A} (random : nat -> Q) (array : list A) : list A :=
  shuffleFrom (length array - 1) random 0 array.

End Helpers.

(** ** StateManager: the journal as data, snapshots and the history *)

Module StateManagerHistory.

(** An object of the journal; its fields hold primitive values. *)
Definition JournalObject : Type := gmap string Value.

Record Journal : Type := mkJournal {
  entries : list JournalObject;
  characters : gmap string JournalObject;
  items : gmap string JournalObject
}.

(** The object that [getAll] returns: every [Map] as a plain object. *)
Record Snapshot : Type := mkSnapshot {
  snap_state : gmap string Value;
  snap_flags : gmap string bool;
  snap_variables : gmap string Value;
  snap_inventory : gmap string Z;
  snap_journal : Journal
}.

(** The state manager with its journal and its history. *)
Record t : Type := mk {
  store : StateManager.t;
  journal : Journal;
  history : list Snapshot
}.

Definition maxHistory : nat := 50.

Definition getAll (s : t) : Snapshot :=
  {| snap_state := StateManager.state (store s);
     snap_flags := StateManager.flags (store s);
     snap_variables := StateManager.variables (store s);
     snap_inventory := StateManager.inventory (store s);
     snap_journal := journal s |}.

(** [deepClone] of an object whose values are primitives.  The copy is
    filled by assignment, [cloned[key] = ...], and an assignment to the
    key [__proto__] goes to the setter that every object inherits, which
    creates no own property: that key is missing from the copy. *)
Definition cloneObject {A} (o : gmap string A) : gmap string A :=
  delete "__proto__" o.

(** [deepClone(snapshot)]. *)
Definition deepClone (snapshot : Snapshot) : Snapshot :=
  {| snap_state := cloneObject (snap_state snapshot);
     snap_flags := cloneObject (snap_flags snapshot);
     snap_variables := cloneObject (snap_variables snapshot);
     snap_inventory := cloneObject (snap_inventory snapshot);
     snap_journal :=
       {| entries := cloneObject <$> entries (snap_journal snapshot);
          characters := cloneObject (cloneObject <$> characters (snap_journal snapshot));
          items := cloneObject (cloneObject <$> items (snap_journal snapshot)) |} |}.

(** [loadAll(data)] on a snapshot: every part of it is an object, so
    every part is loaded. *)
Definition loadAll (data : Snapshot) (s : t) : t * list Signal :=
  ({| store :=
        {| StateManager.state := snap_state data;
           StateManager.flags := snap_flags data;
           StateManager.variables := snap_variables data;
           StateManager.inventory := snap_inventory data |};
      journal := snap_journal data;
      history := history s |},
   [StateChange "load"]).

(** [saveToHistory]: the snapshot is pushed, and the oldest one is
    shifted out when the history has grown beyond [maxHistory]. *)
Definition saveToHistory (s : t) : t :=
  let pushed := history s ++ [deepClone (getAll s)] in
  {| store := store s; journal := journal s;
     history := if (maxHistory <? length pushed)%nat then drop 1 pushed else pushed |}.

(** [restoreFromHistory]: the returned boolean, the state manager and the
    signals. *)
Definition restoreFromHistory (s : t) : bool * t * list Signal :=
  match last (history s) with
  | None => (false, s, [])
  | Some previousState =>
      let popped :=
        {| store := store s; journal := journal s;
           history := take (length (history s) - 1) (history s) |} in
      let '(s', sigs) := loadAll previousState popped in
      (true, s', sigs)
  end.

End StateManagerHistory.

(** No object of the snapshot has an own key [__proto__]. *)
Definition protoFree (snapshot : StateManagerHistory.Snapshot) : Prop :=
  StateManagerHistory.snap_state snapshot !! "__proto__" = None
  /\ StateManagerHistory.snap_flags snapshot !! "__proto__" = None
  /\ StateManagerHistory.snap_variables snapshot !! "__proto__" = None
  /\ StateManagerHistory.snap_inventory snapshot !! "__proto__" = None
  /\ Forall (fun o => o !! "__proto__" = None)
       (StateManagerHistory.entries (StateManagerHistory.snap_journal snapshot))
  /\ StateManagerHistory.characters (StateManagerHistory.snap_journal snapshot)
       !! "__proto__" = None
  /\ StateManagerHistory.items (StateManagerHistory.snap_journal snapshot)
       !! "__proto__" = None
  /\ map_Forall (fun _ o => o !! "__proto__" = None)
       (StateManagerHistory.characters (StateManagerHistory.snap_journal snapshot))
  /\ map_Forall (fun _ o => o !! "__proto__" = None)
       (StateManagerHistory.items (StateManagerHistory.snap_journal snapshot)).

(** The calls that change the history. *)
Inductive HistoryCall : Type :=
| CallSave
| CallRestore.

Definition historyCall (c : HistoryCall) (s : StateManagerHistory.t)
  : StateManagerHistory.t :=
  match c with
  | CallSave => StateManagerHistory.saveToHistory s
  | CallRestore => snd (fst (StateManagerHistory.restoreFromHistory s))
  end.

(** A store with one flag set and nothing saved yet. *)
Definition savedManager : StateManagerHistory.t :=
  {| StateManagerHistory.store :=
       fst (StateManager.setFlag StateManager.reset "door_open" true);
     StateManagerHistory.journal := StateManagerHistory.mkJournal [] ∅ ∅;
     StateManagerHistory.history := [] |}.

(** [savedManager] after [saveToHistory] and a change of the flag. *)
Definition changedManager : StateManagerHistory.t :=
  {| StateManagerHistory.store :=
       fst (StateManager.setFlag (StateManagerHistory.store savedManager)
              "door_open" false);
     StateManagerHistory.journal := StateManagerHistory.journal savedManager;
     StateManagerHistory.history :=
       StateManagerHistory.history (StateManagerHistory.saveToHistory savedManager) |}.

(** ** Concrete puzzles and stores for the scenarios below *)

(** A puzzle with three hints of which two may be used, started. *)
Definition hintedPuzzle : PuzzleController.t :=
  fst (PuzzleController.start
         (PuzzleController.new "puzzle_0"
            (PuzzleController.mkConfig (Some "valve") None None None None None
               (Some ["Look at the gears"; "Start with the largest"; "Turn clockwise"])
               (Some 2) None false false))).

(** The lamp of [twoPuzzleFactory], started. *)
Definition lampStarted : PuzzleFactory.t :=
  PuzzleFactory.run
    [PuzzleFactory.EStartPuzzle "puzzle_0" (PuzzleFactory.ById "lamp")]
    twoPuzzleFactory.

(** A puzzle of a type that no class is registered for. *)
Definition riddleConfig : PuzzleFactory.Config :=
  {| PuzzleFactory.common :=
       PuzzleController.mkConfig (Some "sphinx") (Some "riddle") None None
         None None None None None false false;
     PuzzleFactory.mechanical := MechanicalPuzzle.mkConfig None None;
     PuzzleFactory.spellCrafting := SpellCraftingPuzzle.mkConfig None None;
     PuzzleFactory.diagnosis := DiagnosisPuzzle.mkConfig None;
     PuzzleFactory.repairSequence :=
       RepairSequencePuzzle.mkConfig None None None None None;
     PuzzleFactory.resonance := ResonancePuzzle.mkConfig None None None |}.

(** The riddle is started and submitted twice. *)
Definition riddleRun : list PuzzleFactory.Event :=
  [PuzzleFactory.EStartPuzzle "puzzle_0" (PuzzleFactory.Inline riddleConfig);
   PuzzleFactory.ESubmit 0; PuzzleFactory.ESubmit 0].


(** * Properties of the state store *)

Section StateManagerFacts.
Import StateManager.

Lemma switch_type_default type :
  type ∉ recognized -> switch_type type = TDefault.
Proof.
  intros Hn. unfold switch_type.
  repeat (case_decide as Hd;
          [ exfalso; apply Hn; rewrite Hd; unfold recognized;
            repeat (first [ apply list_elem_of_here | apply list_elem_of_further ])
          | clear Hd ]).
  reflexivity.
Qed.

Lemma getItemQuantity_lookup s itemId :
  getItemQuantity s itemId = default 0 (inventory s !! itemId).
Proof.
  unfold getItemQuantity, getItemQuantityV, lookup_key, num_or.
  destruct (inventory s !! itemId) as [n|]; simpl; [|reflexivity].
  destruct (Z.eqb_spec n 0); congruence.
Qed.

Lemma getItemQuantity_addItem s itemId quantity other :
  getItemQuantity (fst (addItem s itemId quantity)) other =
  if decide (itemId = other) then getItemQuantity s itemId + quantity
  else getItemQuantity s other.
Proof.
  rewrite !getItemQuantity_lookup. unfold addItem. simpl.
  rewrite lookup_insert. case_decide; simpl.
  - rewrite getItemQuantity_lookup. reflexivity.
  - reflexivity.
Qed.

Lemma removeItem_fails s itemId quantity :
  getItemQuantity s itemId < quantity ->
  removeItem s itemId quantity = (false, s, []).
Proof.
  intros Hlt. unfold removeItem.
  destruct (Z.ltb_spec (getItemQuantity s itemId) quantity); [reflexivity | lia].
Qed.

Lemma getItemQuantity_removeItem s itemId quantity other :
  getItemQuantity s itemId >= quantity ->
  getItemQuantity (snd (fst (removeItem s itemId quantity))) other =
  if decide (itemId = other) then getItemQuantity s itemId - quantity
  else getItemQuantity s other.
Proof.
  intros Hge. unfold removeItem.
  destruct (Z.ltb_spec (getItemQuantity s itemId) quantity); [lia|].
  rewrite (getItemQuantity_lookup _ other). simpl.
  destruct (Z.leb_spec (getItemQuantity s itemId - quantity) 0) as [Hz|Hz].
  - rewrite lookup_delete. case_decide; simpl.
    + lia.
    + rewrite getItemQuantity_lookup. reflexivity.
  - rewrite lookup_insert. case_decide; simpl.
    + reflexivity.
    + rewrite getItemQuantity_lookup. reflexivity.
Qed.

Lemma counts_nonneg_addItem s itemId quantity :
  counts_nonneg s -> 0 <= quantity ->
  counts_nonneg (fst (addItem s itemId quantity)).
Proof.
  intros Hs Hq other. rewrite getItemQuantity_addItem.
  case_decide; [specialize (Hs itemId); lia | apply Hs].
Qed.

Lemma counts_nonneg_removeItem s itemId quantity :
  counts_nonneg s -> counts_nonneg (snd (fst (removeItem s itemId quantity))).
Proof.
  intros Hs other.
  destruct (Z.lt_ge_cases (getItemQuantity s itemId) quantity) as [Hlt|Hge].
  - rewrite removeItem_fails by exact Hlt. apply Hs.
  - rewrite getItemQuantity_removeItem by lia.
    case_decide; [lia | apply Hs].
Qed.

Lemma counts_nonneg_reset : counts_nonneg reset.
Proof.
  intros itemId. rewrite getItemQuantity_lookup. simpl. rewrite lookup_empty. simpl. lia.
Qed.

Lemma counts_nonneg_calls (calls : list InventoryCall) s :
  counts_nonneg s -> Forall adds_nonneg calls ->
  counts_nonneg (foldl (fun s c => inventoryCall c s) s calls).
Proof.
  revert s. induction calls as [|c calls IH]; intros s Hs Hall; simpl.
  - exact Hs.
  - inversion Hall as [|? ? Hc Hrest]; subst. apply IH; [|exact Hrest].
    destruct c as [itemId quantity|itemId quantity]; simpl in *.
    + apply counts_nonneg_addItem; assumption.
    + apply counts_nonneg_removeItem; assumption.
Qed.

End StateManagerFacts.

(** C4. For every game state and all conditions A and B, the condition
    [{type:'and', conditions:[A,B]}] evaluates to [evaluate(A) &&
    evaluate(B)] (to the conjunction of the two booleans when both
    return), [{type:'not', condition:A}] evaluates to [!evaluate(A)], and
    a flag check on a name absent from the flag store evaluates to false,
    as does [hasFlag]. *)
Theorem evaluateCondition_and_not_absent_flag :
  forall (s : StateManager.t) (A B : StateManager.Condition)
         (key operator value : Value)
         (conditions : option (list StateManager.Condition))
         (condition : StateManager.Condition),
    StateManager.evaluateCondition s
      (StateManager.CondObject (VStr "and") key operator value (Some [A; B]) condition)
    = and_then (StateManager.evaluateCondition s A) (StateManager.evaluateCondition s B)
    /\ (forall a b,
          StateManager.evaluateCondition s A = Return a ->
          StateManager.evaluateCondition s B = Return b ->
          StateManager.evaluateCondition s
            (StateManager.CondObject (VStr "and") key operator value (Some [A; B]) condition)
          = Return (a && b))
    /\ StateManager.evaluateCondition s
         (StateManager.CondObject (VStr "not") key operator value conditions A)
       = negated (StateManager.evaluateCondition s A)
    /\ (forall name : string,
          StateManager.flags s !! name = None ->
          StateManager.hasFlag s name = false
          /\ StateManager.evaluateCondition s
               (StateManager.CondObject (VStr "flag") (VStr name) operator value
                  conditions condition) = Return false
          /\ StateManager.evaluateCondition s (StateManager.CondValue (VStr name))
             = Return false).
Proof.
  intros s A B key operator value conditions condition.
  assert (Hand :
    StateManager.evaluateCondition s
      (StateManager.CondObject (VStr "and") key operator value (Some [A; B]) condition)
    = and_then (StateManager.evaluateCondition s A) (StateManager.evaluateCondition s B)).
  { change (StateManager.evaluateCondition s
              (StateManager.CondObject (VStr "and") key operator value (Some [A; B]) condition))
      with (match StateManager.evaluateCondition s A with
            | Return true =>
                match StateManager.evaluateCondition s B with
                | Return true => Return true
                | Return false => Return false
                | Throw e => Throw e
                end
            | Return false => Return false
            | Throw e => Throw e
            end).
    destruct (StateManager.evaluateCondition s A) as [[|]|]; simpl; try reflexivity.
    destruct (StateManager.evaluateCondition s B) as [[|]|]; reflexivity. }
  split; [exact Hand|]. split.
  - intros a b Ha Hb. rewrite Hand, Ha, Hb. destruct a; reflexivity.
  - split.
    + reflexivity.
    + intros name Hnone.
      assert (Hflag : StateManager.hasFlag s name = false).
      { unfold StateManager.hasFlag, StateManager.hasFlagV, StateManager.lookup_key.
        rewrite Hnone. reflexivity. }
      split; [exact Hflag|]. split.
      * change (Return (StateManager.hasFlagV s (VStr name)) = Return false).
        f_equal. exact Hflag.
      * simpl. f_equal. exact Hflag.
Qed.

Lemma evaluateCondition_and_not_absent_flag_witness :
  StateManager.hasFlag StateManager.reset "met_wizard" = false
  /\ StateManager.evaluateCondition StateManager.reset
       (StateManager.CondObject (VStr "and") VUndefined VUndefined VUndefined
          (Some [StateManager.CondValue (VStr "met_wizard");
                 StateManager.CondValue VNull])
          (StateManager.CondValue VUndefined))
     = Return false.
Proof.
  pose proof (evaluateCondition_and_not_absent_flag StateManager.reset
                (StateManager.CondValue (VStr "met_wizard"))
                (StateManager.CondValue VNull)
                VUndefined VUndefined VUndefined None
                (StateManager.CondValue VUndefined)) as (Hand & _ & _ & Hflag).
  split.
  - apply (Hflag "met_wizard"). reflexivity.
  - rewrite Hand. reflexivity.
Defined.

(** C5. For every game state, a condition object whose type tag is none
    of flag, notFlag, variable, item, chapter, and, or, not evaluates to
    true: it neither evaluates to false nor throws. *)
Theorem evaluateCondition_unknown_type :
  forall (s : StateManager.t) (type key operator value : Value)
         (conditions : option (list StateManager.Condition))
         (condition : StateManager.Condition),
    type ∉ StateManager.recognized ->
    StateManager.evaluateCondition s
      (StateManager.CondObject type key operator value conditions condition)
    = Return true.
Proof.
  intros s type key operator value conditions condition Hn.
  simpl. rewrite (switch_type_default type Hn). reflexivity.
Qed.

Lemma evaluateCondition_unknown_type_witness :
  StateManager.evaluateCondition StateManager.reset
    (StateManager.CondObject (VStr "hasFlag") (VStr "met_wizard") VUndefined
       VUndefined None (StateManager.CondValue VUndefined))
  = Return true.
Proof.
  apply evaluateCondition_unknown_type.
  unfold StateManager.recognized. intros Hin.
  repeat (apply elem_of_cons in Hin as [Hin|Hin]; [discriminate Hin|]).
  inversion Hin.
Defined.

(** C6, as the specification states it, fails: no call rejects a negative
    quantity, and adding one leaves a negative count. *)
Lemma addItem_negative_quantity_negative_count :
  StateManager.getItemQuantity
    (fst (StateManager.addItem StateManager.reset "gear" (-1))) "gear" = -1
  /\ ~ counts_nonneg (fst (StateManager.addItem StateManager.reset "gear" (-1))).
Proof.
  assert (H : StateManager.getItemQuantity
                (fst (StateManager.addItem StateManager.reset "gear" (-1))) "gear" = -1).
  { rewrite getItemQuantity_addItem. rewrite decide_True by reflexivity.
    rewrite getItemQuantity_lookup. reflexivity. }
  split; [exact H|]. intros Hc. specialize (Hc "gear"). lia.
Qed.

(** C6, amended. [removeItem(id, qty)] returns false and changes nothing
    (and emits nothing) whenever [qty] exceeds the current count of [id];
    on a store whose counts are non-negative, [addItem(id, q)] followed by
    [removeItem(id, q)] succeeds and gives every item its prior count;
    [removeItem] keeps the counts non-negative whatever its quantity, and
    [addItem] does when the quantity it adds is not negative, so from the
    initial store no sequence of such calls reaches a negative count. *)
Theorem removeItem_guard_and_add_remove_roundtrip :
  forall (s : StateManager.t) (itemId : string),
    (forall qty, StateManager.getItemQuantity s itemId < qty ->
                 StateManager.removeItem s itemId qty = (false, s, []))
    /\ (forall q, counts_nonneg s ->
          let s1 := fst (StateManager.addItem s itemId q) in
          let r := StateManager.removeItem s1 itemId q in
          fst (fst r) = true
          /\ forall other, StateManager.getItemQuantity (snd (fst r)) other
                           = StateManager.getItemQuantity s other)
    /\ (forall qty, counts_nonneg s ->
          counts_nonneg (snd (fst (StateManager.removeItem s itemId qty))))
    /\ (forall q, counts_nonneg s -> 0 <= q ->
          counts_nonneg (fst (StateManager.addItem s itemId q)))
    /\ (forall calls, Forall adds_nonneg calls ->
          counts_nonneg (foldl (fun s c => inventoryCall c s) StateManager.reset calls)).
Proof.
  intros s itemId. split; [|split; [|split; [|split]]].
  - intros qty Hlt. apply removeItem_fails. exact Hlt.
  - intros q Hs s1 r.
    assert (Hcount : StateManager.getItemQuantity s1 itemId
                     = StateManager.getItemQuantity s itemId + q).
    { unfold s1. rewrite getItemQuantity_addItem. rewrite decide_True by reflexivity.
      reflexivity. }
    pose proof (Hs itemId) as Hnn. split.
    + unfold r, StateManager.removeItem.
      destruct (Z.ltb_spec (StateManager.getItemQuantity s1 itemId) q); [lia|reflexivity].
    + intros other. unfold r.
      rewrite getItemQuantity_removeItem by lia.
      case_decide as Hd.
      * subst other. lia.
      * unfold s1. rewrite getItemQuantity_addItem. rewrite decide_False by exact Hd.
        reflexivity.
  - intros qty Hs. apply counts_nonneg_removeItem. exact Hs.
  - intros q Hs Hq. apply counts_nonneg_addItem; assumption.
  - intros calls Hall. apply counts_nonneg_calls; [apply counts_nonneg_reset | exact Hall].
Qed.

Lemma removeItem_guard_and_add_remove_roundtrip_witness :
  StateManager.removeItem StateManager.reset "gear" 1 = (false, StateManager.reset, [])
  /\ counts_nonneg
       (foldl (fun s c => inventoryCall c s) StateManager.reset
              [CallAdd "gear" 2; CallRemove "gear" 1; CallRemove "gear" 5]).
Proof.
  pose proof (removeItem_guard_and_add_remove_roundtrip StateManager.reset "gear")
    as (Hfail & _ & _ & _ & Hrun).
  split.
  - apply Hfail. vm_compute. reflexivity.
  - apply Hrun. repeat constructor; simpl; lia.
Defined.

(** * Properties of the base contract *)

Section ScoreFacts.
Import PuzzleController.

Lemma difficultyFactor_nonneg d : (0 <= difficultyFactor d)%Q.
Proof.
  unfold difficultyFactor, difficultyModifiers.
  repeat (match goal with |- context [String.eqb ?a ?b] => destruct (String.eqb a b) end;
          [simpl; discriminate|]).
  simpl. discriminate.
Qed.

Lemma timeBonus_le_20 p :
  0 < timeLimit (settings p) -> timeRemaining p <= timeLimit (settings p) ->
  timeBonus p <= 20.
Proof.
  intros Hpos Hle. unfold timeBonus.
  rewrite <- (Qfloor_Z 20). apply Qfloor_resp_le.
  apply Qle_trans with (1 * 20)%Q; [|unfold Qle; simpl; lia].
  apply Qmult_le_compat_r; [|discriminate].
  apply Qle_shift_div_r.
  - change 0%Q with (inject_Z 0). rewrite <- Zlt_Qlt. exact Hpos.
  - rewrite Qmult_1_l. rewrite <- Zle_Qle. exact Hle.
Qed.

(** The raw score never grows with the attempts or the hints. *)
Lemma baseScore_antitone p q :
  timeLimit (settings p) = timeLimit (settings q) ->
  timeRemaining p = timeRemaining q ->
  attempts p <= attempts q -> hintsUsed p <= hintsUsed q ->
  baseScore q <= baseScore p.
Proof.
  intros Hl Hr Ha Hh. unfold baseScore, timeBonus. rewrite Hl, Hr.
  destruct ((0 <? timeLimit (settings q)) && (0 <? timeRemaining q)); lia.
Qed.

Lemma score_calculateScore p :
  score (calculateScore p) =
  Z.max 0 (Qfloor (inject_Z (baseScore p) * difficultyFactor (difficulty (settings p)))).
Proof. reflexivity. Qed.

Lemma score_antitone p q :
  difficulty (settings p) = difficulty (settings q) ->
  baseScore q <= baseScore p ->
  score (calculateScore q) <= score (calculateScore p).
Proof.
  intros Hd Hb. rewrite !score_calculateScore, Hd.
  apply Z.max_le_compat_l. apply Qfloor_resp_le.
  apply Qmult_le_compat_r; [|apply difficultyFactor_nonneg].
  rewrite <- Zle_Qle. exact Hb.
Qed.

Lemma score_upper p :
  1 <= attempts p -> 0 <= hintsUsed p ->
  timeRemaining p <= timeLimit (settings p) ->
  (inject_Z (score (calculateScore p))
   <= (100 + 20) * difficultyFactor (difficulty (settings p)))%Q.
Proof.
  intros Ha Hh Ht. rewrite score_calculateScore.
  pose proof (difficultyFactor_nonneg (difficulty (settings p))) as Hf.
  assert (Hb : baseScore p <= 120).
  { unfold baseScore.
    destruct (Z.ltb_spec 0 (timeLimit (settings p))) as [Hl|Hl]; simpl;
      [destruct (0 <? timeRemaining p);
       [pose proof (timeBonus_le_20 p Hl Ht)|] |]; lia. }
  apply Z.max_case_strong; intros _.
  - change (inject_Z 0) with 0%Q. apply Qmult_le_0_compat; [discriminate|exact Hf].
  - eapply Qle_trans; [apply Qfloor_le|].
    apply Qmult_le_compat_r; [|exact Hf].
    change (100 + 20)%Q with (inject_Z 120). rewrite <- Zle_Qle. exact Hb.
Qed.

Lemma timeBonus_full p :
  0 < timeLimit (settings p) -> timeRemaining p = timeLimit (settings p) ->
  timeBonus p = 20.
Proof.
  intros Hpos Heq. unfold timeBonus. rewrite Heq.
  assert (Hone : (inject_Z (timeLimit (settings p)) / inject_Z (timeLimit (settings p))
                  * 20 == inject_Z 20)%Q).
  { unfold Qdiv. rewrite Qmult_inv_r; [reflexivity|].
    intros Hz. unfold Qeq in Hz. simpl in Hz. lia. }
  rewrite Hone. apply Qfloor_Z.
Qed.

(** The fields of the instance that [complete] leaves. *)
Lemma complete_fields p :
  let p' := fst (complete p) in
  score p' = score (calculateScore p)
  /\ attempts p' = attempts p /\ hintsUsed p' = hintsUsed p
  /\ timeRemaining p' = timeRemaining p /\ settings p' = settings p
  /\ isComplete p' = true /\ isActive p' = false /\ isFailed p' = isFailed p
  /\ timerInterval p' = false.
Proof. simpl. repeat split; reflexivity. Qed.

End ScoreFacts.

(** C1, as the specification states it, fails: the time bonus is added
    before the difficulty modifier is applied.  An expert puzzle solved
    at the first attempt, without hints and before the first tick of its
    countdown scores 180, above 100 x 1.5 + 20 = 170. *)
Lemma expert_score_exceeds_stated_bound :
  let '(ok, solved, _) := Puzzle.submit expertSpell in
  ok = true
  /\ PuzzleController.attempts (base solved) = 1
  /\ PuzzleController.hintsUsed (base solved) = 0
  /\ PuzzleController.score (base solved) = 180
  /\ ~ (inject_Z (PuzzleController.score (base solved))
        <= 100 * PuzzleController.difficultyFactor
                   (PuzzleController.difficulty (PuzzleController.settings (base solved)))
           + 20)%Q.
Proof.
  vm_compute. repeat split; try reflexivity. intros H. apply H. reflexivity.
Qed.

(** C1, amended. For every puzzle variant, the score computed when the
    puzzle reaches complete is at least 0; it is at most (100 + 20) x
    difficultyFactor when at least one attempt was counted, the hint count
    is not negative and no more time remains than the limit; and with the
    difficulty, the time limit and the time remaining fixed it does not
    grow when the attempts used or the hints used grow. *)
Theorem score_bounds_and_monotone :
  forall (P : Type) (V : Variant P) (v w : P),
    let scored (x : P) := PuzzleController.score (base (fst (Puzzle.complete x))) in
    let p := base v in
    let q := base w in
    0 <= scored v
    /\ (1 <= PuzzleController.attempts p ->
        0 <= PuzzleController.hintsUsed p ->
        PuzzleController.timeRemaining p
          <= PuzzleController.timeLimit (PuzzleController.settings p) ->
        (inject_Z (scored v)
         <= (100 + 20) * PuzzleController.difficultyFactor
                           (PuzzleController.difficulty (PuzzleController.settings p)))%Q)
    /\ (PuzzleController.difficulty (PuzzleController.settings p)
          = PuzzleController.difficulty (PuzzleController.settings q) ->
        PuzzleController.timeLimit (PuzzleController.settings p)
          = PuzzleController.timeLimit (PuzzleController.settings q) ->
        PuzzleController.timeRemaining p = PuzzleController.timeRemaining q ->
        PuzzleController.attempts p <= PuzzleController.attempts q ->
        PuzzleController.hintsUsed p <= PuzzleController.hintsUsed q ->
        scored w <= scored v).
Proof.
  intros P V v w scored p q.
  assert (Hscored : forall x, scored x
                    = PuzzleController.score (PuzzleController.calculateScore (base x))).
  { intros x. unfold scored, Puzzle.complete, Puzzle.lift.
    destruct (PuzzleController.complete (base x)) as [b sigs] eqn:E. simpl.
    rewrite base_with_base.
    pose proof (complete_fields (base x)) as (Hs & _). rewrite E in Hs. exact Hs. }
  rewrite !Hscored. fold p q. split; [|split].
  - rewrite score_calculateScore. apply Z.le_max_l.
  - intros Ha Hh Ht. apply score_upper; assumption.
  - intros Hd Hl Hr Ha Hh. apply score_antitone; [exact Hd|].
    apply baseScore_antitone; assumption.
Qed.

Lemma score_bounds_and_monotone_witness :
  (inject_Z (PuzzleController.score (base (fst (Puzzle.complete
      (with_base (PuzzleController.set_attempts 1 (base expertSpell)) expertSpell)))))
   <= (100 + 20) * PuzzleController.difficultyFactor "expert")%Q
  /\ PuzzleController.score (base (fst (Puzzle.complete
       (with_base (PuzzleController.set_attempts 3 (base expertSpell)) expertSpell))))
     <= PuzzleController.score (base (fst (Puzzle.complete
       (with_base (PuzzleController.set_attempts 1 (base expertSpell)) expertSpell)))).
Proof.
  pose proof (score_bounds_and_monotone SpellCraftingPuzzle.t SpellCraftingPuzzle.variant
                (with_base (PuzzleController.set_attempts 1 (base expertSpell)) expertSpell)
                (with_base (PuzzleController.set_attempts 3 (base expertSpell)) expertSpell))
    as (_ & Hup & Hmono).
  split.
  - apply Hup; vm_compute; discriminate.
  - apply Hmono; vm_compute; first [reflexivity | discriminate].
Defined.

(** C2. For every puzzle of every variant in the active state, one call
    to submit increments the attempt count by exactly one and then: if the
    variant's validator accepts the current solution the puzzle completes;
    if it rejects and the incremented count has reached the configured
    maximum the puzzle fails with reason "Maximum attempts reached"; if it
    rejects and attempts remain, only the negative feedback is emitted and
    the puzzle stays active, neither complete nor failed more than before. *)
Theorem submit_counts_then_completes_fails_or_retries :
  forall (P : Type) (V : Variant P) (v : P),
    PuzzleController.isActive (base v) = true ->
    let counted :=
      with_base (PuzzleController.set_attempts
                   (PuzzleController.attempts (base v) + 1) (base v)) v in
    let '(ok, v', sigs) := Puzzle.submit v in
    PuzzleController.attempts (base v') = PuzzleController.attempts (base v) + 1
    /\ (solutionValid v = true ->
        ok = true /\ (v', sigs) = Puzzle.complete counted
        /\ PuzzleController.isComplete (base v') = true
        /\ PuzzleController.isActive (base v') = false)
    /\ (solutionValid v = false -> maximumReached (base v) ->
        ok = false /\ (v', sigs) = Puzzle.fail "Maximum attempts reached" counted
        /\ PuzzleController.isFailed (base v') = true
        /\ PuzzleController.isActive (base v') = false
        /\ sigs = failureSignals (base counted) "Maximum attempts reached")
    /\ (solutionValid v = false -> ~ maximumReached (base v) ->
        ok = false /\ v' = counted
        /\ sigs = [Feedback false "Incorrect solution. Try again!"]
        /\ PuzzleController.isActive (base v') = true
        /\ PuzzleController.isComplete (base v') = PuzzleController.isComplete (base v)
        /\ PuzzleController.isFailed (base v') = PuzzleController.isFailed (base v)).
Proof.
  intros P V v Hactive counted.
  assert (Hbase : base counted
                  = PuzzleController.set_attempts
                      (PuzzleController.attempts (base v) + 1) (base v)).
  { unfold counted. apply base_with_base. }
  assert (Hvalid : solutionValid counted = solutionValid v).
  { unfold counted. apply solutionValid_with_base. }
  assert (Hreached : PuzzleController.attemptsExhausted (base counted) = true
                     <-> maximumReached (base v)).
  { rewrite Hbase. unfold PuzzleController.attemptsExhausted, maximumReached. simpl.
    destruct (PuzzleController.maxAttempts (PuzzleController.settings (base v))) as [m|].
    - rewrite Z.leb_le. reflexivity.
    - split; [discriminate | contradiction]. }
  unfold Puzzle.submit. fold counted. rewrite Hvalid.
  destruct (solutionValid v) eqn:Hsol.
  - unfold Puzzle.complete, Puzzle.lift.
    destruct (PuzzleController.complete (base counted)) as [b sigs] eqn:E.
    pose proof (complete_fields (base counted)) as Hf. rewrite E in Hf. simpl in Hf.
    destruct Hf as (_ & Hatt & _ & _ & _ & Hc & Ha & _).
    rewrite !base_with_base. rewrite Hbase in Hatt. simpl in Hatt.
    split; [exact Hatt|]. split; [|split; intros Hf; discriminate Hf].
    intros _. repeat split; assumption.
  - destruct (PuzzleController.attemptsExhausted (base counted)) eqn:Hex.
    + unfold Puzzle.fail, Puzzle.lift. simpl. rewrite !base_with_base.
      rewrite Hbase. simpl.
      split; [reflexivity|]. split; [intros Hf; discriminate Hf|]. split.
      * intros _ _. repeat split; reflexivity.
      * intros _ Hn. exfalso. apply Hn. apply Hreached. reflexivity.
    + rewrite Hbase. simpl.
      split; [reflexivity|]. split; [intros Hf; discriminate Hf|]. split.
      * intros _ Hr. apply Hreached in Hr. discriminate Hr.
      * intros _ _. repeat split; try reflexivity. exact Hactive.
Qed.

Lemma submit_counts_then_completes_fails_or_retries_witness :
  PuzzleController.attempts (base (snd (fst (Puzzle.submit expertSpell)))) = 1
  /\ PuzzleController.isComplete (base (snd (fst (Puzzle.submit expertSpell)))) = true.
Proof.
  pose proof (submit_counts_then_completes_fails_or_retries
                SpellCraftingPuzzle.t SpellCraftingPuzzle.variant expertSpell) as H.
  destruct (Puzzle.submit expertSpell) as [[ok v'] sigs].
  destruct (H eq_refl) as (Hatt & Hok & _).
  split.
  - exact Hatt.
  - apply Hok. reflexivity.
Defined.

Section CountdownFacts.
Import PuzzleController.

Lemma set_timeRemaining_same p : set_timeRemaining (timeRemaining p) p = p.
Proof. destruct p; reflexivity. Qed.

Lemma deadlineTicks_bounds r :
  1000 * (deadlineTicks r - 1) < r <= 1000 * deadlineTicks r.
Proof.
  unfold deadlineTicks.
  pose proof (Z.div_mod (r + 999) 1000 ltac:(lia)) as Hdiv.
  pose proof (Z.mod_pos_bound (r + 999) 1000 ltac:(lia)) as Hmod.
  lia.
Qed.

(** While the countdown stays above zero a firing only lowers it. *)
Lemma ticks_running n p :
  timerInterval p = true ->
  1000 * Z.of_nat n < timeRemaining p ->
  ticks n p = (set_timeRemaining (timeRemaining p - 1000 * Z.of_nat n) p, []).
Proof.
  revert p. induction n as [|n IH]; intros p Hrun Hlt.
  - cbn [ticks].
    replace (timeRemaining p - 1000 * Z.of_nat 0) with (timeRemaining p) by lia.
    rewrite set_timeRemaining_same. reflexivity.
  - cbn [ticks]. unfold tick. rewrite Hrun. cbn [timeRemaining set_timeRemaining].
    destruct (Z.leb_spec (timeRemaining p - 1000) 0) as [Hle|Hgt]; [lia|].
    rewrite IH; cbn [timerInterval timeRemaining set_timeRemaining]; [|exact Hrun|lia].
    f_equal. unfold set_timeRemaining. cbn. f_equal. lia.
Qed.

(** A cleared interval does not fire. *)
Lemma ticks_stopped n p : timerInterval p = false -> ticks n p = (p, []).
Proof.
  intros Hstop. induction n as [|n IH]; [reflexivity|].
  cbn [ticks]. unfold tick. rewrite Hstop, IH. reflexivity.
Qed.

Lemma ticks_add n m p :
  ticks (n + m) p =
  let '(p1, sigs1) := ticks n p in
  let '(p2, sigs2) := ticks m p1 in
  (p2, sigs1 ++ sigs2).
Proof.
  revert p. induction n as [|n IH]; intros p; cbn [ticks Nat.add].
  - destruct (ticks m p). reflexivity.
  - destruct (tick p) as [p1 s1]. rewrite IH.
    destruct (ticks n p1) as [p2 s2]. destruct (ticks m p2) as [p3 s3].
    rewrite app_assoc. reflexivity.
Qed.

(** The firing that brings the countdown to zero or below fails the puzzle. *)
Lemma tick_expires p :
  timerInterval p = true -> timeRemaining p <= 1000 ->
  tick p = fail "Time's up!" (stopTimer (set_timeRemaining (timeRemaining p - 1000) p)).
Proof.
  intros Hrun Hle. unfold tick. rewrite Hrun. cbn [timeRemaining set_timeRemaining].
  destruct (Z.leb_spec (timeRemaining p - 1000) 0); [reflexivity|lia].
Qed.

Lemma ticks_expire n p :
  timerInterval p = true -> 0 < timeRemaining p ->
  (deadlineTicks (timeRemaining p) <= Z.of_nat n) ->
  ticks n p =
  fail "Time's up!"
       (stopTimer (set_timeRemaining
                     (timeRemaining p - 1000 * deadlineTicks (timeRemaining p)) p)).
Proof.
  intros Hrun Hpos Hn.
  pose proof (deadlineTicks_bounds (timeRemaining p)) as [Hlo Hhi].
  set (d := deadlineTicks (timeRemaining p)) in *.
  assert (Hd : 1 <= d) by lia.
  replace n with (Z.to_nat (d - 1) + (1 + (n - Z.to_nat d)))%nat by lia.
  rewrite ticks_add.
  rewrite (ticks_running (Z.to_nat (d - 1)) p Hrun) by (rewrite Z2Nat.id; lia).
  rewrite Z2Nat.id by lia.
  rewrite ticks_add. cbn [ticks].
  rewrite tick_expires; cbn [timerInterval timeRemaining set_timeRemaining];
    [|exact Hrun|lia].
  unfold fail at 1. cbn [app].
  rewrite ticks_stopped by reflexivity.
  unfold fail, stopTimer, set_timeRemaining, set_isActive, set_isFailed,
    set_timerInterval. cbn. rewrite !app_nil_r.
  replace (timeRemaining p - 1000 * (d - 1) - 1000) with (timeRemaining p - 1000 * d)
    by lia.
  reflexivity.
Qed.

End CountdownFacts.

(** C9, as the specification states it, fails for the sequence puzzle:
    its time limit is its input time, and every input phase sets the
    time remaining back to it while the countdown of the base contract
    keeps running.  With steps shown for 100 ms the puzzle, left alone
    for 5001 ms, is still active with 2000 ms remaining and has emitted
    no failure. *)
Lemma sequence_puzzle_outlives_time_limit :
  let f := PuzzleFactory.run quickSequenceRun emptyFactory in
  exists p,
    baseAt f 0 = Some p
    /\ PuzzleController.timeLimit (PuzzleController.settings p) = 5000
    /\ PuzzleController.isActive p = true
    /\ PuzzleController.isFailed p = false
    /\ PuzzleController.timeRemaining p = 2000
    /\ existsb isPuzzleFail (PuzzleFactory.emitted f) = false.
Proof.
  vm_compute. eexists. repeat split.
Qed.

(** C9, amended. For every puzzle whose countdown is running - [start]
    (or reset) ran with a time limit configured - and on which nothing but
    the 1000 ms interval runs: no firing before the one that brings the
    time remaining to zero or below changes anything else, and at that
    firing, the first at or after the limit, the puzzle is failed with
    reason "Time's up!", whatever the attempts used; later firings do not
    happen.  With a limit of 5000 ms the puzzle is failed once 5001 ms of
    wall clock have passed. *)
Theorem countdown_expiry_fails_puzzle :
  forall (p : PuzzleController.t),
    (0 < PuzzleController.timeLimit (PuzzleController.settings p) ->
     let started := fst (PuzzleController.start p) in
     PuzzleController.isActive started = true
     /\ PuzzleController.timerInterval started = true
     /\ PuzzleController.timeRemaining started
        = PuzzleController.timeLimit (PuzzleController.settings p))
    /\ (forall ms,
          PuzzleController.timerInterval p = true ->
          0 <= ms -> ms / 1000 < deadlineTicks (PuzzleController.timeRemaining p) ->
          elapse ms p
          = (PuzzleController.set_timeRemaining
               (PuzzleController.timeRemaining p - 1000 * (ms / 1000)) p, []))
    /\ (forall ms,
          PuzzleController.timerInterval p = true ->
          0 < PuzzleController.timeRemaining p ->
          1000 * deadlineTicks (PuzzleController.timeRemaining p) <= ms ->
          let '(p', sigs) := elapse ms p in
          PuzzleController.isFailed p' = true
          /\ PuzzleController.isActive p' = false
          /\ PuzzleController.isComplete p' = PuzzleController.isComplete p
          /\ PuzzleController.timerInterval p' = false
          /\ PuzzleController.attempts p' = PuzzleController.attempts p
          /\ sigs = failureSignals p "Time's up!").
Proof.
  intros p. split; [|split].
  - intros Hlimit started. unfold started, PuzzleController.start. cbn.
    destruct (Z.ltb_spec 0 (PuzzleController.timeLimit (PuzzleController.settings p)));
      [|lia].
    cbn. repeat split; reflexivity.
  - intros ms Hrun Hms Hbefore. unfold elapse.
    pose proof (deadlineTicks_bounds (PuzzleController.timeRemaining p)) as [Hlo _].
    assert (Hq : 0 <= ms / 1000) by (apply Z.div_pos; lia).
    rewrite ticks_running; rewrite ?Z2Nat.id; try assumption; [reflexivity|lia].
  - intros ms Hrun Hpos Hafter. unfold elapse.
    assert (Hq : deadlineTicks (PuzzleController.timeRemaining p) <= ms / 1000).
    { apply Z.div_le_lower_bound; lia. }
    pose proof (deadlineTicks_bounds (PuzzleController.timeRemaining p)) as [_ Hhi].
    rewrite ticks_expire; try assumption; [|rewrite Z2Nat.id; lia].
    simpl. repeat split; reflexivity.
Qed.

Lemma countdown_expiry_fails_puzzle_witness :
  PuzzleController.isFailed
    (fst (elapse 5001 (fst (PuzzleController.start timedPuzzle)))) = true
  /\ snd (elapse 5001 (fst (PuzzleController.start timedPuzzle)))
     = [Feedback false "Time's up!"; PuzzleFail "clock" "Time's up!" 0].
Proof.
  pose proof (countdown_expiry_fails_puzzle (fst (PuzzleController.start timedPuzzle)))
    as (_ & _ & Hexp).
  specialize (Hexp 5001).
  destruct (elapse 5001 (fst (PuzzleController.start timedPuzzle))) as [p' sigs].
  destruct Hexp as (Hfailed & _ & _ & _ & _ & Hsigs).
  - reflexivity.
  - reflexivity.
  - vm_compute. discriminate.
  - split; [exact Hfailed | exact Hsigs].
Defined.

(** What the reset of the base contract writes and what it leaves; the
    raw score of a first attempt after a reset still carries the penalty
    of the hints used before it. *)
Lemma reset_fields :
  forall (p : PuzzleController.t),
    let p' := fst (PuzzleController.reset p) in
    PuzzleController.hintsUsed p' = PuzzleController.hintsUsed p
    /\ PuzzleController.score p' = PuzzleController.score p
    /\ PuzzleController.attempts p' = 0
    /\ PuzzleController.timeRemaining p'
       = PuzzleController.timeLimit (PuzzleController.settings p)
    /\ PuzzleController.isComplete p' = false
    /\ PuzzleController.isFailed p' = false
    /\ PuzzleController.isActive p' = PuzzleController.isActive p
    /\ PuzzleController.settings p' = PuzzleController.settings p
    /\ PuzzleController.onComplete p' = PuzzleController.onComplete p
    /\ PuzzleController.onFail p' = PuzzleController.onFail p
    /\ PuzzleController.baseScore (PuzzleController.set_attempts 1 p')
       = 100 - PuzzleController.hintsUsed p * 15
         + (if 0 <? PuzzleController.timeLimit (PuzzleController.settings p)
            then 20 else 0)
    /\ PuzzleController.hintsUsed (fst (PuzzleController.start p)) = 0.
Proof.
  intros p p'. unfold p', PuzzleController.reset, PuzzleController.start. cbn.
  destruct (Z.ltb_spec 0 (PuzzleController.timeLimit (PuzzleController.settings p)))
    as [Hl|Hl]; cbn; repeat split; try reflexivity.
  - unfold PuzzleController.baseScore. cbn -[PuzzleController.timeBonus].
    destruct (Z.ltb_spec 0 (PuzzleController.timeLimit (PuzzleController.settings p)));
      [|lia].
    cbn [andb]. rewrite timeBonus_full; [lia | exact Hl | reflexivity].
  - unfold PuzzleController.baseScore. cbn.
    destruct (Z.ltb_spec 0 (PuzzleController.timeLimit (PuzzleController.settings p)));
      [lia|].
    cbn [andb]. lia.
Qed.

(** * Properties of the factory and of the objects it created *)

Section ObjectFacts.
Import PuzzleFactory.

Ltac atomic_scrutinee x :=
  lazymatch x with
  | context [if _ then _ else _] => fail
  | context [match _ with _ => _ end] => fail
  | _ => idtac
  end.

Ltac split_cases :=
  repeat (cbn;
          match goal with
          | |- context [if ?b then _ else _] => atomic_scrutinee b; destruct b
          | |- context [match ?x with _ => _ end] => atomic_scrutinee x; destruct x
          end).

Ltac keeps_by_cases :=
  unfold keeps; split_cases; cbn; split; first [lia | tauto | discriminate | auto].

Lemma keeps_refl p : keeps p p.
Proof. unfold keeps. split; [lia | tauto]. Qed.

Lemma keeps_tick o : keeps (base_of o) (base_of (fst (tick o))).
Proof.
  destruct o; unfold tick, inherited, Puzzle.lift, PuzzleController.tick,
    PuzzleController.timeUp, PuzzleController.fail; keeps_by_cases.
Qed.

Lemma keeps_submit o : keeps (base_of o) (base_of (fst (submit o))).
Proof.
  destruct o; unfold submit, Puzzle.submit, Puzzle.complete, Puzzle.fail, Puzzle.lift,
    PuzzleController.complete, PuzzleController.fail; keeps_by_cases.
Qed.

Lemma keeps_complete o : keeps (base_of o) (base_of (fst (complete o))).
Proof.
  destruct o; unfold complete, Puzzle.complete, Puzzle.lift,
    PuzzleController.complete; keeps_by_cases.
Qed.

Lemma keeps_reset o : keeps (base_of o) (base_of (fst (reset o))).
Proof.
  destruct o; unfold reset, PuzzleController.reset, MechanicalPuzzle.reset,
    SpellCraftingPuzzle.reset, DiagnosisPuzzle.reset, RepairSequencePuzzle.reset,
    RepairSequencePuzzle.render, ResonancePuzzle.reset, PuzzleController.reset;
    keeps_by_cases.
Qed.

Lemma keeps_useHint o : keeps (base_of o) (base_of (fst (useHint o))).
Proof.
  destruct o; unfold useHint, inherited, Puzzle.lift, PuzzleController.useHint;
    keeps_by_cases.
Qed.

Lemma keeps_resume k o : keeps (base_of o) (base_of (fst (resume k o))).
Proof.
  destruct o; destruct k;
    unfold resume, complete, submit, RepairSequencePuzzle.resume, ResonancePuzzle.resume,
      RepairSequencePuzzle.showSequence, RepairSequencePuzzle.startInputPhase,
      RepairSequencePuzzle.render,
      Puzzle.submit, Puzzle.complete, Puzzle.fail, Puzzle.lift,
      PuzzleController.complete, PuzzleController.fail; keeps_by_cases.
Qed.

Lemma keeps_handleInput u icon o :
  keeps (base_of o) (base_of (fst (fst (handleInput u icon o)))).
Proof.
  destruct o;
    unfold handleInput, RepairSequencePuzzle.handleInput,
      RepairSequencePuzzle.handleWrongInput, RepairSequencePuzzle.handleSequenceComplete,
      RepairSequencePuzzle.extendSequence,
      Puzzle.complete, Puzzle.lift, PuzzleController.complete; keeps_by_cases.
Qed.

Lemma keeps_handleTimeUp o :
  keeps (base_of o) (base_of (fst (fst (handleTimeUp o)))).
Proof.
  destruct o; unfold handleTimeUp, RepairSequencePuzzle.handleTimeUp; keeps_by_cases.
Qed.

Lemma keeps_lockNote o : keeps (base_of o) (base_of (fst (fst (lockNote o)))).
Proof.
  destruct o; unfold lockNote, ResonancePuzzle.lockNote; keeps_by_cases.
Qed.

End ObjectFacts.

Section FactoryFacts.
Import PuzzleFactory.

Lemma deliver_frame sigs f :
  objects (deliver sigs f) = objects f
  /\ currentPuzzle (deliver sigs f) = currentPuzzle f
  /\ timers (deliver sigs f) = timers f
  /\ puzzleConfigs (deliver sigs f) = puzzleConfigs f
  /\ dom (deliver sigs f) = dom f.
Proof.
  revert f. induction sigs as [|sig sigs IH]; intros f; [repeat split|].
  cbn [deliver].
  match goal with
  | |- context [deliver sigs ?g] => destruct (IH g) as (H1 & H2 & H3 & H4 & H5)
  end.
  rewrite H1, H2, H3, H4, H5.
  destruct sig; try (repeat split; reflexivity).
  - destruct (handlePuzzleComplete _ _ _). repeat split; reflexivity.
  - destruct (handlePuzzleFail _). repeat split; reflexivity.
Qed.

Lemma call_frame r m f :
  objects (call r m f)
  = match objects f !! r with
    | Some o => <[r := fst (fst (m o))]> (objects f)
    | None => objects f
    end
  /\ currentPuzzle (call r m f) = currentPuzzle f
  /\ puzzleConfigs (call r m f) = puzzleConfigs f
  /\ dom (call r m f) = dom f.
Proof.
  unfold call. destruct (objects f !! r) as [o|]; [|repeat split].
  destruct (m o) as [[o' sigs] pend]. cbn [fst].
  match goal with |- context [deliver sigs ?g] =>
    destruct (deliver_frame sigs g) as (H1 & H2 & _ & H4 & H5) end.
  rewrite H1, H2, H4, H5. repeat split.
Qed.

Lemma baseAt_call r m f r' :
  baseAt (call r m f) r'
  = if decide (r = r')
    then (fun o => base_of (fst (fst (m o)))) <$> objects f !! r
    else baseAt f r'.
Proof.
  unfold baseAt. destruct (call_frame r m f) as (Ho & _). rewrite Ho.
  destruct (objects f !! r) as [o|] eqn:E.
  - case_decide as Hd.
    + subst r'. rewrite list_lookup_insert_eq; [reflexivity|].
      apply lookup_lt_Some in E. exact E.
    + rewrite list_lookup_insert_ne by exact Hd. reflexivity.
  - case_decide as Hd; [subst r'; rewrite E|]; reflexivity.
Qed.

(** A method that is not [start], called on one object: every object
    keeps its hint count or grows it, and none becomes active. *)
Lemma call_keeps r m f r' :
  (forall o, keeps (base_of o) (base_of (fst (fst (m o))))) ->
  option_Forall2 keeps (baseAt f r') (baseAt (call r m f) r').
Proof.
  intros Hm. rewrite baseAt_call. case_decide as Hd.
  - subst r'. unfold baseAt. destruct (objects f !! r) as [o|]; cbn.
    + constructor. apply Hm.
    + constructor.
  - destruct (baseAt f r'); constructor. unfold keeps. split; [lia|tauto].
Qed.

Lemma step_keeps e f r :
  isStartPuzzle e = false ->
  option_Forall2 keeps (baseAt f r) (baseAt (step e f) r)
  /\ currentPuzzle (step e f) = currentPuzzle f.
Proof.
  intros He.
  assert (Hrefl : option_Forall2 keeps (baseAt f r) (baseAt f r)).
  { destruct (baseAt f r); constructor. unfold keeps. split; [lia|tauto]. }
  destruct e; try discriminate He; cbn [step].
  - split; [apply call_keeps; intros o; unfold quiet; destruct (tick o) eqn:E;
            pose proof (keeps_tick o) as K; rewrite E in K; exact K
           | apply call_frame].
  - destruct (scheduled r0 k f); [|split; [exact Hrefl|reflexivity]].
    split; [|exact (proj1 (proj2 (call_frame r0 _
               (mk (state f) (puzzleConfigs f) (objects f) (currentPuzzle f)
                   (unschedule r0 k (timers f)) (emitted f) (dom f)))))].
    apply (call_keeps r0 _ (mk (state f) (puzzleConfigs f) (objects f) (currentPuzzle f)
                           (unschedule r0 k (timers f)) (emitted f) (dom f)) r).
    intros o. unfold quiet. destruct (resume k o) eqn:E.
    pose proof (keeps_resume k o) as K. rewrite E in K. exact K.
  - split; [apply call_keeps; intros o; unfold quiet; destruct (submit o) eqn:E;
            pose proof (keeps_submit o) as K; rewrite E in K; exact K
           | apply call_frame].
  - split; [apply call_keeps; intros o; unfold quiet; destruct (reset o) eqn:E;
            pose proof (keeps_reset o) as K; rewrite E in K; exact K
           | apply call_frame].
  - split; [apply call_keeps; intros o; unfold quiet; destruct (useHint o) eqn:E;
            pose proof (keeps_useHint o) as K; rewrite E in K; exact K
           | apply call_frame].
  - split; [apply call_keeps; intros o; apply keeps_handleInput | apply call_frame].
  - split; [apply call_keeps; intros o; apply keeps_handleTimeUp | apply call_frame].
  - split; [apply call_keeps; intros o; apply keeps_lockNote | apply call_frame].
Qed.

End FactoryFacts.

Section StartPuzzleFacts.
Import PuzzleFactory.

Lemma base_of_destroy o :
  base_of (destroy o) = PuzzleController.destroy (base_of o).
Proof. destruct o; reflexivity. Qed.

Lemma stopCurrent_frame f :
  currentPuzzle (stopCurrent f) = currentPuzzle f
  /\ length (objects (stopCurrent f)) = length (objects f)
  /\ puzzleConfigs (stopCurrent f) = puzzleConfigs f
  /\ dom (stopCurrent f) = dom f.
Proof.
  unfold stopCurrent. destruct (currentPuzzle f) as [r|] eqn:Hc;
    [|repeat split; assumption].
  destruct (objects f !! r) as [o|] eqn:Ho; [|repeat split; assumption].
  destruct (PuzzleController.isActive (base_of o)); [|repeat split; assumption].
  destruct (call_frame r (fun o => (destroy o, [], [])) f) as (H1 & H2 & H3 & H4).
  rewrite H1, H2, H3, H4, Ho. rewrite length_insert. repeat split; assumption.
Qed.

(** What the first statement of [startPuzzle] does to each object: the
    object in the slot, when it is flagged active, is destroyed; every
    other object, and an inactive object in the slot, is left as it is. *)
Lemma baseAt_stopCurrent f r p :
  baseAt f r = Some p ->
  baseAt (stopCurrent f) r
  = Some (if decide (currentPuzzle f = Some r)
          then if PuzzleController.isActive p then PuzzleController.destroy p else p
          else p).
Proof.
  intros Hp. unfold stopCurrent.
  destruct (currentPuzzle f) as [c|] eqn:Hc; [|rewrite decide_False by discriminate; exact Hp].
  destruct (objects f !! c) as [o|] eqn:Ho.
  - destruct (PuzzleController.isActive (base_of o)) eqn:Ha.
    + rewrite baseAt_call. case_decide as Hd.
      * subst c. rewrite decide_True by reflexivity.
        unfold baseAt in Hp. rewrite Ho in Hp. cbn in Hp. injection Hp as <-.
        rewrite Ho, Ha. cbn. rewrite base_of_destroy. reflexivity.
      * rewrite decide_False by congruence. exact Hp.
    + case_decide as Hd; [|exact Hp].
      injection Hd as ->. unfold baseAt in Hp. rewrite Ho in Hp. cbn in Hp.
      injection Hp as <-. rewrite Ha. unfold baseAt. rewrite Ho. reflexivity.
  - case_decide as Hd; [|exact Hp].
    injection Hd as ->. unfold baseAt in Hp. rewrite Ho in Hp. discriminate Hp.
Qed.

Lemma baseAt_stopCurrent_None f r :
  baseAt f r = None -> baseAt (stopCurrent f) r = None.
Proof.
  intros Hn. unfold baseAt in *.
  destruct (objects (stopCurrent f) !! r) as [o|] eqn:E; [|reflexivity].
  apply lookup_lt_Some in E.
  destruct (stopCurrent_frame f) as (_ & Hlen & _). rewrite Hlen in E.
  destruct (objects f !! r) eqn:E'; [discriminate Hn|].
  apply lookup_ge_None in E'. lia.
Qed.

Lemma all_inactive_stopCurrent f : one_active f -> all_inactive (stopCurrent f).
Proof.
  intros Hone r p Hp.
  destruct (baseAt f r) as [p0|] eqn:E.
  - rewrite (baseAt_stopCurrent f r p0 E) in Hp. injection Hp as <-.
    case_decide as Hd.
    + destruct (PuzzleController.isActive p0) eqn:Ha; [reflexivity|exact Ha].
    + destruct (PuzzleController.isActive p0) eqn:Ha; [|reflexivity].
      exfalso. apply Hd. apply (Hone r p0 E Ha).
  - rewrite (baseAt_stopCurrent_None f r E) in Hp. discriminate Hp.
Qed.

Lemma start_active o :
  PuzzleController.isActive (base_of (fst (fst (start o)))) = true.
Proof.
  destruct o; unfold start, inherited, Puzzle.lift, RepairSequencePuzzle.start,
    RepairSequencePuzzle.render, PuzzleController.start; cbn;
    repeat match goal with
           | |- context [if ?b then _ else _] => destruct b
           end; reflexivity.
Qed.

(** The outcome of [startPuzzle] on the store of objects: the objects
    that existed are as [stopCurrent] left them; when a puzzle is
    created it is appended, takes the slot and is active. *)
Lemma startPuzzle_objects stamp puzzle f :
  let f1 := stopCurrent f in
  let '(started, f') := startPuzzle stamp puzzle f in
  (forall r, (r < length (objects f))%nat -> baseAt f' r = baseAt f1 r)
  /\ (started = true ->
      currentPuzzle f' = Some (length (objects f))
      /\ length (objects f') = S (length (objects f))
      /\ exists created, baseAt f' (length (objects f)) = Some created
                         /\ PuzzleController.isActive created = true)
  /\ (started = false ->
      objects f' = objects f1
      /\ (currentPuzzle f' = None \/ currentPuzzle f' = currentPuzzle f)).
Proof.
  intros f1. unfold startPuzzle. fold f1.
  destruct (stopCurrent_frame f) as (Hcur & Hlen & _). fold f1 in Hcur, Hlen.
  set (created :=
         match puzzle with
         | ById puzzleId => Some (createById stamp f1 puzzleId)
         | Inline config =>
             match PuzzleController.cfg_type (common config) with
             | Some ty => if String.eqb ty "" then None
                          else Some (Some (create stamp (Some ty) config))
             | None => None
             end
         end).
  destruct created as [[o|]|].
  - set (o' := fst (inherited (fun b => (PuzzleController.set_callbacks true true b, [])) o)).
    set (n := length (objects f1)).
    set (f2 := mk (state f1) (puzzleConfigs f1) (objects f1 ++ [o']) (Some n)
                  (timers f1) (emitted f1) (dom f1)).
    set (f3 := call n (fun o => (init (dom f2) o, [], [])) f2).
    assert (H2 : objects f2 !! n = Some o').
    { unfold f2, n. cbn [objects]. rewrite lookup_app_r by lia.
      rewrite Nat.sub_diag. reflexivity. }
    assert (H3 : objects f3 !! n = Some (init (dom f2) o')).
    { unfold f3. destruct (call_frame n (fun o => (init (dom f2) o, [], [])) f2) as (E & _).
      rewrite E, H2. cbn. apply list_lookup_insert_eq.
      apply lookup_lt_Some in H2. exact H2. }
    split; [|split].
    + intros r Hr. rewrite baseAt_call.
      rewrite decide_False by (unfold n; lia).
      unfold f3. rewrite baseAt_call.
      rewrite decide_False by (unfold n; lia).
      unfold baseAt, f2. cbn [objects]. rewrite lookup_app_l by lia. reflexivity.
    + intros _. split; [|split].
      * destruct (call_frame n start f3) as (_ & E & _). rewrite E.
        destruct (call_frame n (fun o => (init (dom f2) o, [], [])) f2) as (_ & E' & _).
        fold f3 in E'. rewrite E'. unfold f2, n. cbn. rewrite Hlen. reflexivity.
      * destruct (call_frame n start f3) as (E & _). rewrite E, H3.
        rewrite length_insert.
        destruct (call_frame n (fun o => (init (dom f2) o, [], [])) f2) as (E' & _).
        fold f3 in E'. rewrite E', H2. rewrite length_insert.
        unfold f2. cbn. rewrite length_app. cbn. lia.
      * rewrite <- Hlen. fold n. rewrite baseAt_call. rewrite decide_True by reflexivity.
        rewrite H3. cbn. eexists. split; [reflexivity|]. apply start_active.
    + intros Hf. discriminate Hf.
  - split; [|split].
    + intros r Hr. reflexivity.
    + intros Hf. discriminate Hf.
    + intros _. split; [reflexivity|]. left. reflexivity.
  - split; [|split].
    + intros r Hr. reflexivity.
    + intros Hf. discriminate Hf.
    + intros _. split; [reflexivity|]. right. exact Hcur.
Qed.

Lemma baseAt_beyond f r : (length (objects f) <= r)%nat -> baseAt f r = None.
Proof.
  intros Hr. unfold baseAt. rewrite (proj2 (lookup_ge_None _ _) Hr). reflexivity.
Qed.

Lemma one_active_startPuzzle stamp puzzle f :
  one_active f -> one_active (snd (startPuzzle stamp puzzle f)).
Proof.
  intros Hone.
  pose proof (startPuzzle_objects stamp puzzle f) as H.
  pose proof (all_inactive_stopCurrent f Hone) as Hin.
  destruct (stopCurrent_frame f) as (_ & Hlen & _).
  destruct (startPuzzle stamp puzzle f) as [started f']. cbn [snd].
  cbn zeta in H. destruct H as (Hold & Hnew & Hnone).
  intros r p Hp Ha.
  destruct (Nat.lt_ge_cases r (length (objects f))) as [Hlt|Hge].
  - rewrite (Hold r Hlt) in Hp. rewrite (Hin r p Hp) in Ha. discriminate Ha.
  - destruct started.
    + destruct (Hnew eq_refl) as (Hc & Hgrow & _). rewrite Hc. f_equal.
      destruct (Nat.eq_dec r (length (objects f))) as [->|Hne]; [reflexivity|].
      exfalso. rewrite (baseAt_beyond f' r) in Hp by lia. discriminate Hp.
    + destruct (Hnone eq_refl) as (Ho & _).
      rewrite (baseAt_beyond f' r) in Hp; [discriminate Hp|].
      rewrite Ho, Hlen. exact Hge.
Qed.

End StartPuzzleFacts.

Section InvariantFacts.
Import PuzzleFactory.

Lemma one_active_step e f : one_active f -> one_active (step e f).
Proof.
  intros Hone. destruct (isStartPuzzle e) eqn:He.
  - destruct e; try discriminate He. cbn [step]. apply one_active_startPuzzle. exact Hone.
  - intros r p' Hp' Ha.
    destruct (step_keeps e f r He) as (Hk & Hc). rewrite Hc.
    rewrite Hp' in Hk. destruct (baseAt f r) as [p|] eqn:Hp; [|inversion Hk].
    apply (Hone r p Hp).
    inversion Hk as [p0 p1 Hkk|]; subst. destruct Hkk as [_ Hact]. apply Hact. exact Ha.
Qed.

Lemma one_active_run es f : one_active f -> one_active (run es f).
Proof.
  revert f. induction es as [|e es IH]; intros f Hone; [exact Hone|].
  cbn. apply IH. apply one_active_step. exact Hone.
Qed.

Lemma one_active_new s configs page : one_active (new s configs page).
Proof. intros r p Hp. unfold baseAt in Hp. cbn in Hp. discriminate Hp. Qed.

(** A cleared interval of an object of any class does not fire. *)
Lemma tick_cleared o :
  PuzzleController.timerInterval (base_of o) = false -> tick o = (o, []).
Proof.
  intros Hoff.
  destruct o as [p|p|p|p|p|p]; cbn in Hoff;
    unfold tick, inherited, Puzzle.lift, PuzzleController.tick; cbn;
    rewrite Hoff; destruct p; reflexivity.
Qed.

(** No step but [startPuzzle] lowers the hint count of an object. *)
Lemma hintsUsed_step e f r p :
  isStartPuzzle e = false -> baseAt f r = Some p ->
  exists p', baseAt (step e f) r = Some p'
             /\ PuzzleController.hintsUsed p <= PuzzleController.hintsUsed p'.
Proof.
  intros He Hp. destruct (step_keeps e f r He) as (Hk & _).
  rewrite Hp in Hk. destruct (baseAt (step e f) r) as [p'|]; [|inversion Hk].
  exists p'. split; [reflexivity|].
  inversion Hk as [p0 p1 Hkk|]; subst. destruct Hkk as [Hh _]. exact Hh.
Qed.

Lemma reset_object_fields o :
  let o' := fst (reset o) in
  PuzzleController.hintsUsed (base_of o') = PuzzleController.hintsUsed (base_of o)
  /\ PuzzleController.score (base_of o') = PuzzleController.score (base_of o).
Proof.
  destruct o; unfold reset, PuzzleController.reset, MechanicalPuzzle.reset,
    SpellCraftingPuzzle.reset, DiagnosisPuzzle.reset, RepairSequencePuzzle.reset,
    RepairSequencePuzzle.render, ResonancePuzzle.reset, PuzzleController.reset; cbn;
    repeat match goal with
           | |- context [if ?b then _ else _] => destruct b
           end; split; reflexivity.
Qed.

Lemma start_object_hints o :
  PuzzleController.hintsUsed (base_of (fst (fst (start o)))) = 0.
Proof.
  destruct o; unfold start, inherited, Puzzle.lift, RepairSequencePuzzle.start,
    RepairSequencePuzzle.render, PuzzleController.start; cbn;
    repeat match goal with
           | |- context [if ?b then _ else _] => destruct b
           end; reflexivity.
Qed.

End InvariantFacts.

(** C3, as the specification states it, fails in two ways.  A callback
    that a destroyed puzzle had scheduled still fires: the chime, active
    with its completion pending, is destroyed when the lamp is started,
    and then completes, puts its completion on the bus and marks the lamp
    complete.  And a puzzle that is not flagged active is not destroyed:
    the lock, failed and reset by the player, is neither complete nor
    failed, keeps its countdown when the lamp is started, and five
    firings later fails with "Time's up!", a failure counted for the lamp. *)
Lemma replaced_puzzle_still_signals :
  (let f := PuzzleFactory.run chimeThenLamp twoPuzzleFactory in
   let f' := PuzzleFactory.step (PuzzleFactory.EFire 0 KComplete) f in
   PuzzleFactory.currentPuzzle f = Some 1%nat
   /\ PuzzleFactory.timers f = [(0%nat, After 500 KComplete)]
   /\ emittedAfter (length (PuzzleFactory.emitted f)) f'
      = [Feedback true "Puzzle Complete!"; PuzzleComplete "chime" 110 0 0 0 [];
         OnComplete "chime" 110 []; FlagSet "puzzle_lamp_complete" true;
         VariableSet "puzzle_lamp_score" (VNum 110)]
   /\ StateManager.hasFlag (PuzzleFactory.state f') "puzzle_lamp_complete" = true)
  /\ (let g := PuzzleFactory.run (take 3 lockResetThenLamp) twoPuzzleFactory in
      let g' := PuzzleFactory.run lockResetThenLamp twoPuzzleFactory in
      let g'' := PuzzleFactory.run (repeat (PuzzleFactory.ETick 0) 5) g' in
      (exists lock, baseAt g 0 = Some lock
                    /\ PuzzleController.isComplete lock = false
                    /\ PuzzleController.isFailed lock = false
                    /\ baseAt g' 0 = Some lock
                    /\ PuzzleController.timerInterval lock = true)
      /\ PuzzleFactory.currentPuzzle g = Some 0%nat
      /\ PuzzleFactory.currentPuzzle g' = Some 1%nat
      /\ emittedAfter (length (PuzzleFactory.emitted g')) g''
         = [Feedback false "Time's up!"; PuzzleFail "lock" "Time's up!" 0;
            OnFail "lock" "Time's up!"; VariableSet "puzzle_lamp_failures" (VNum 1)]).
Proof.
  split.
  - vm_compute. repeat split.
  - vm_compute. split; [eexists; repeat split|repeat split].
Qed.

(** C3, amended. At most one puzzle object is flagged active at any time,
    and it is the one in the factory's slot.  Whenever [startPuzzle] is
    called while the object in the slot is flagged active, that object is
    destroyed before anything is created: it is no longer active and its
    countdown is cleared, so that its interval does not fire again; and
    when the request yields a puzzle, the new object is appended to the
    store, takes the slot, is active, and is the only active object. *)
Theorem startPuzzle_destroys_active_installs_new :
  (forall s configs page es,
      one_active (PuzzleFactory.run es (PuzzleFactory.new s configs page)))
  /\ (forall f stamp puzzle r prior,
        one_active f ->
        PuzzleFactory.currentPuzzle f = Some r ->
        baseAt f r = Some prior ->
        PuzzleController.isActive prior = true ->
        let '(started, f') := PuzzleFactory.startPuzzle stamp puzzle f in
        baseAt f' r = Some (PuzzleController.destroy prior)
        /\ PuzzleController.isActive (PuzzleController.destroy prior) = false
        /\ PuzzleController.timerInterval (PuzzleController.destroy prior) = false
        /\ (forall o, PuzzleFactory.objects f' !! r = Some o ->
                      PuzzleFactory.tick o = (o, []))
        /\ (started = true ->
            PuzzleFactory.currentPuzzle f' = Some (length (PuzzleFactory.objects f))
            /\ r <> length (PuzzleFactory.objects f)
            /\ exists created,
                 baseAt f' (length (PuzzleFactory.objects f)) = Some created
                 /\ PuzzleController.isActive created = true)
        /\ (forall r' p', baseAt f' r' = Some p' ->
                          PuzzleController.isActive p' = true ->
                          started = true /\ r' = length (PuzzleFactory.objects f))).
Proof.
  split.
  - intros s configs page es. apply one_active_run. apply one_active_new.
  - intros f stamp puzzle r prior Hone Hcur Hprior Hact.
    pose proof (startPuzzle_objects stamp puzzle f) as H.
    pose proof (one_active_startPuzzle stamp puzzle f Hone) as Hone'.
    pose proof (all_inactive_stopCurrent f Hone) as Hin.
    destruct (PuzzleFactory.startPuzzle stamp puzzle f) as [started f'].
    cbn zeta in H. cbn [snd] in Hone'. destruct H as (Hold & Hnew & Hnone).
    assert (Hr : (r < length (PuzzleFactory.objects f))%nat).
    { unfold baseAt in Hprior.
      destruct (PuzzleFactory.objects f !! r) eqn:E; [|discriminate Hprior].
      apply lookup_lt_Some in E. exact E. }
    assert (Hdestroyed : baseAt f' r = Some (PuzzleController.destroy prior)).
    { rewrite (Hold r Hr). rewrite (baseAt_stopCurrent f r prior Hprior).
      rewrite decide_True by exact Hcur. rewrite Hact. reflexivity. }
    split; [exact Hdestroyed|]. split; [reflexivity|]. split; [reflexivity|]. split.
    + intros o Ho. apply tick_cleared.
      unfold baseAt in Hdestroyed. rewrite Ho in Hdestroyed. cbn in Hdestroyed.
      injection Hdestroyed as ->. reflexivity.
    + split.
      * intros Hs. destruct (Hnew Hs) as (Hc & _ & Hcreated).
        split; [exact Hc|]. split; [lia|exact Hcreated].
      * intros r' p' Hp' Ha'.
        destruct (Nat.lt_ge_cases r' (length (PuzzleFactory.objects f))) as [Hlt|Hge].
        -- rewrite (Hold r' Hlt) in Hp'. rewrite (Hin r' p' Hp') in Ha'. discriminate Ha'.
        -- destruct started.
           ++ split; [reflexivity|].
              destruct (Hnew eq_refl) as (_ & Hgrow & _).
              destruct (Nat.eq_dec r' (length (PuzzleFactory.objects f))) as [->|Hne];
                [reflexivity|].
              rewrite (baseAt_beyond f' r') in Hp' by lia. discriminate Hp'.
           ++ destruct (Hnone eq_refl) as (Ho & _).
              destruct (stopCurrent_frame f) as (_ & Hlen & _).
              rewrite (baseAt_beyond f' r') in Hp'; [discriminate Hp'|].
              rewrite Ho, Hlen. exact Hge.
Qed.

Lemma startPuzzle_destroys_active_installs_new_witness :
  let f := PuzzleFactory.run
             [PuzzleFactory.EStartPuzzle "puzzle_0" (PuzzleFactory.ById "lock")]
             twoPuzzleFactory in
  one_active f
  /\ PuzzleFactory.currentPuzzle
       (snd (PuzzleFactory.startPuzzle "puzzle_1" (PuzzleFactory.ById "lamp") f))
     = Some 1%nat.
Proof.
  pose proof startPuzzle_destroys_active_installs_new as (Hinv & Hstart).
  cbn zeta. split.
  - apply (Hinv StateManager.reset).
  - set (f := PuzzleFactory.run
                [PuzzleFactory.EStartPuzzle "puzzle_0" (PuzzleFactory.ById "lock")]
                twoPuzzleFactory).
    assert (Hp : exists prior, baseAt f 0 = Some prior
                               /\ PuzzleController.isActive prior = true).
    { vm_compute. eexists. split; reflexivity. }
    destruct Hp as (prior & Hprior & Hact).
    specialize (Hstart f "puzzle_1" (PuzzleFactory.ById "lamp") 0%nat prior
                  (Hinv StateManager.reset _ true _) eq_refl Hprior Hact).
    destruct (PuzzleFactory.startPuzzle "puzzle_1" (PuzzleFactory.ById "lamp") f)
      as [started f'] eqn:E.
    cbn [snd]. destruct Hstart as (_ & _ & _ & _ & Hnew & _).
    assert (Hs : started = true).
    { apply (f_equal fst) in E. cbn [fst] in E. rewrite <- E. vm_compute. reflexivity. }
    destruct (Hnew Hs) as (Hc & _). rewrite Hc. vm_compute. reflexivity.
Defined.

(** C10. For every puzzle instance, the reset of the base contract leaves
    [hintsUsed] and the running score as they were: it sets the attempts
    to 0, the time remaining to the limit and the completed and failed
    flags to false (and restarts the countdown of a timed puzzle), and the
    reset of every variant, which ends in it, does the same to the two
    fields; so the hint penalty of the score persists across a reset.
    [start] sets [hintsUsed] to 0, and no other step of any object - a
    firing of its interval or of a scheduled callback, submit, reset,
    hint, input, lock - lowers it. *)
Theorem reset_keeps_hints_only_start_clears :
  (forall p : PuzzleController.t,
      let p' := fst (PuzzleController.reset p) in
      PuzzleController.hintsUsed p' = PuzzleController.hintsUsed p
      /\ PuzzleController.score p' = PuzzleController.score p
      /\ PuzzleController.attempts p' = 0
      /\ PuzzleController.timeRemaining p'
         = PuzzleController.timeLimit (PuzzleController.settings p)
      /\ PuzzleController.isComplete p' = false
      /\ PuzzleController.isFailed p' = false
      /\ PuzzleController.isActive p' = PuzzleController.isActive p
      /\ PuzzleController.settings p' = PuzzleController.settings p
      /\ PuzzleController.baseScore (PuzzleController.set_attempts 1 p')
         = 100 - PuzzleController.hintsUsed p * 15
           + (if 0 <? PuzzleController.timeLimit (PuzzleController.settings p)
              then 20 else 0))
  /\ (forall o : PuzzleFactory.Instance,
        let o' := fst (PuzzleFactory.reset o) in
        PuzzleController.hintsUsed (PuzzleFactory.base_of o')
        = PuzzleController.hintsUsed (PuzzleFactory.base_of o)
        /\ PuzzleController.score (PuzzleFactory.base_of o')
           = PuzzleController.score (PuzzleFactory.base_of o))
  /\ (forall o : PuzzleFactory.Instance,
        PuzzleController.hintsUsed
          (PuzzleFactory.base_of (fst (fst (PuzzleFactory.start o)))) = 0)
  /\ (forall (e : PuzzleFactory.Event) (f : PuzzleFactory.t) (r : nat)
             (p : PuzzleController.t),
        isStartPuzzle e = false ->
        baseAt f r = Some p ->
        exists p', baseAt (PuzzleFactory.step e f) r = Some p'
                   /\ PuzzleController.hintsUsed p <= PuzzleController.hintsUsed p').
Proof.
  split; [|split; [|split]].
  - intros p p'. pose proof (reset_fields p) as H. cbn zeta in H. fold p' in H.
    destruct H as (H1 & H2 & H3 & H4 & H5 & H6 & H7 & H8 & _ & _ & H11 & _).
    repeat split; assumption.
  - intros o. apply reset_object_fields.
  - intros o. apply start_object_hints.
  - intros e f r p He Hp. apply hintsUsed_step; assumption.
Qed.

Lemma reset_keeps_hints_only_start_clears_witness :
  let f := PuzzleFactory.run
             [PuzzleFactory.EStartPuzzle "puzzle_0" (PuzzleFactory.ById "lock")]
             twoPuzzleFactory in
  exists p', baseAt (PuzzleFactory.step (PuzzleFactory.EReset 0) f) 0 = Some p'
             /\ 0 <= PuzzleController.hintsUsed p'.
Proof.
  pose proof reset_keeps_hints_only_start_clears as (_ & _ & _ & H).
  cbn zeta.
  destruct (H (PuzzleFactory.EReset 0)
              (PuzzleFactory.run
                 [PuzzleFactory.EStartPuzzle "puzzle_0" (PuzzleFactory.ById "lock")]
                 twoPuzzleFactory)
              0%nat
              (fst (PuzzleController.start
                      (PuzzleController.set_callbacks true true
                         (PuzzleController.new "puzzle_0"
                            (PuzzleFactory.common
                               (genericConfig "lock" (Some 1) (Some 5000)))))))
              eq_refl) as (p' & Hp' & Hle).
  - vm_compute. reflexivity.
  - exists p'. split; [exact Hp' | exact Hle].
Defined.

(** * Properties of the sequence puzzle *)

Section SequenceFacts.
Import RepairSequencePuzzle.

(** [Math.floor(Math.random() * n)] is an index below [n]. *)
Lemma randomIndex_range u p :
  isDraw u -> actions p <> [] ->
  0 <= randomIndex u p < Z.of_nat (length (actions p)).
Proof.
  intros [Hlo Hhi] Hne. unfold randomIndex.
  assert (Hn : 0 < Z.of_nat (length (actions p))).
  { destruct (actions p); [contradiction|cbn; lia]. }
  set (n := Z.of_nat (length (actions p))) in *.
  assert (Hn' : (0 < inject_Z n)%Q).
  { change 0%Q with (inject_Z 0). rewrite <- Zlt_Qlt. exact Hn. }
  split.
  - rewrite <- (Qfloor_Z 0). apply Qfloor_resp_le.
    change (inject_Z 0) with 0%Q.
    apply Qmult_le_0_compat; [exact Hlo|apply Qlt_le_weak; exact Hn'].
  - rewrite Zlt_Qlt. eapply Qle_lt_trans; [apply Qfloor_le|].
    setoid_rewrite <- (Qmult_1_l (inject_Z n)) at 2.
    apply Qmult_lt_compat_r; assumption.
Qed.

Lemma extendSequence_some u p :
  isDraw u -> actions p <> [] ->
  exists randomAction,
    randomAction ∈ actions p
    /\ extendSequence u p = Some (set_sequence (sequence p ++ [icon randomAction]) p).
Proof.
  intros Hu Hne. pose proof (randomIndex_range u p Hu Hne) as [Hlo Hhi].
  unfold extendSequence.
  destruct (Z.ltb_spec (randomIndex u p) 0); [lia|].
  destruct (actions p !! Z.to_nat (randomIndex u p)) as [a|] eqn:E.
  - exists a. split; [|reflexivity]. apply list_elem_of_lookup. eauto.
  - apply lookup_ge_None in E. lia.
Qed.

(** The last input of a fully correct round hands over to
    [handleSequenceComplete]. *)
Lemma handleInput_last u icon p :
  phase p = Input ->
  (length (sequence p) <= stepEls p)%nat ->
  playerInput p ++ [icon] = sequence p ->
  handleInput u icon p
  = let '(p', sigs, pend) := handleSequenceComplete u (set_playerInput (sequence p) p) in
    (p', SfxPlay "input_correct" :: sigs, pend).
Proof.
  intros Hph Hdom Hlast. unfold handleInput. rewrite Hph.
  rewrite bool_decide_eq_true_2 by reflexivity. cbn [negb].
  cbn [playerInput sequence stepEls set_playerInput]. rewrite Hlast.
  assert (Hlen : length (sequence p) = S (length (playerInput p))).
  { rewrite <- Hlast, length_app. cbn. lia. }
  replace (length (sequence p) - 1)%nat with (length (playerInput p)) by lia.
  assert (Hlook : sequence p !! length (playerInput p) = Some icon).
  { rewrite <- Hlast. rewrite lookup_app_r by lia. rewrite Nat.sub_diag. reflexivity. }
  rewrite bool_decide_eq_true_2 by exact Hlook. cbn [negb]. rewrite andb_false_r.
  destruct (Nat.ltb_spec (length (playerInput p)) (stepEls p)); [|lia].
  rewrite Nat.eqb_refl. reflexivity.
Qed.

(** A correct input that does not end the round is recorded. *)
Lemma handleInput_correct u icon p :
  phase p = Input ->
  sequence p !! length (playerInput p) = Some icon ->
  S (length (playerInput p)) <> length (sequence p) ->
  fst (fst (handleInput u icon p)) = set_playerInput (playerInput p ++ [icon]) p
  /\ snd (handleInput u icon p) = [].
Proof.
  intros Hph Hlook Hmore. unfold handleInput. rewrite Hph.
  rewrite bool_decide_eq_true_2 by reflexivity. cbn [negb].
  cbn [playerInput sequence stepEls set_playerInput].
  rewrite length_app. cbn [length].
  replace (length (playerInput p) + 1 - 1)%nat with (length (playerInput p)) by lia.
  rewrite bool_decide_eq_true_2 by exact Hlook. cbn [negb]. rewrite andb_false_r.
  destruct (Nat.eqb_spec (length (playerInput p) + 1) (length (sequence p))); [lia|].
  split; reflexivity.
Qed.


(** The show, with every step element in place, ends in the input phase. *)
Lemma showSequence_rendered p :
  (length (sequence p) <= stepEls p)%nat ->
  fst (showSequence p)
  = set_super (PuzzleController.set_timeRemaining (inputTime p) (super p))
      (set_currentStep 0 (set_playerInput [] (set_phase Input p))).
Proof.
  intros Hdom. unfold showSequence. cbn [sequence stepEls set_phase].
  destruct (Nat.leb_spec (length (sequence p)) (stepEls p)); [|lia].
  reflexivity.
Qed.

(** Entering the rest of the target sequence reaches the end of the round. *)
Lemma enterAll_correct u rest : forall p,
  rest <> [] ->
  phase p = Input ->
  (length (sequence p) <= stepEls p)%nat ->
  playerInput p ++ rest = sequence p ->
  enterAll u rest p
  = let '(p', _, pend) := handleSequenceComplete u (set_playerInput (sequence p) p) in
    (p', pend).
Proof.
  induction rest as [|icon rest IH]; intros p Hne Hph Hdom Hseq; [contradiction|].
  cbn [enterAll]. destruct rest as [|icon' rest].
  - rewrite (handleInput_last u icon p Hph Hdom Hseq).
    destruct (handleSequenceComplete u (set_playerInput (sequence p) p)) as [[p' sigs] pend].
    cbn [enterAll]. rewrite app_nil_r. reflexivity.
  - assert (Hlook : sequence p !! length (playerInput p) = Some icon).
    { rewrite <- Hseq. rewrite lookup_app_r by lia. rewrite Nat.sub_diag. reflexivity. }
    assert (Hmore : S (length (playerInput p)) <> length (sequence p)).
    { rewrite <- Hseq, length_app. cbn. lia. }
    destruct (handleInput_correct u icon p Hph Hlook Hmore) as [H1 H2].
    destruct (handleInput u icon p) as [[p1 sigs1] pend1]. cbn [fst snd] in H1, H2.
    subst p1 pend1.
    rewrite IH; cbn [phase sequence stepEls playerInput set_playerInput];
      [|discriminate|exact Hph|exact Hdom|rewrite <- app_assoc; exact Hseq].
    change (set_playerInput (sequence p) (set_playerInput (playerInput p ++ [icon]) p))
      with (set_playerInput (sequence p) p).
    destruct (handleSequenceComplete u (set_playerInput (sequence p) p)) as [[p' sigs] pend].
    reflexivity.
Qed.

End SequenceFacts.

Section RoundFacts.
Import RepairSequencePuzzle.

Lemma handleSequenceComplete_next u q :
  isDraw u -> actions q <> [] -> round q < maxRounds q ->
  exists randomAction,
    randomAction ∈ actions q
    /\ handleSequenceComplete u q
       = (set_sequence (sequence q ++ [icon randomAction])
            (set_round (round q + 1) (set_phase Checking q)),
          [RoundInstruction (round q + 1)], [After 1500 KNextRound]).
Proof.
  intros Hu Hne Hlt. unfold handleSequenceComplete. cbn [round maxRounds set_phase].
  destruct (Z.ltb_spec (round q) (maxRounds q)); [|lia].
  destruct (extendSequence_some u (set_round (round q + 1) (set_phase Checking q)) Hu Hne)
    as (a & Hin & Hext).
  rewrite Hext. exists a. split; [exact Hin|reflexivity].
Qed.

Lemma handleSequenceComplete_last u q :
  maxRounds q <= round q ->
  handleSequenceComplete u q
  = let '(p', sigs) := Puzzle.complete (set_phase Checking q) in (p', sigs, []).
Proof.
  intros Hge. unfold handleSequenceComplete. cbn [round maxRounds set_phase].
  destruct (Z.ltb_spec (round q) (maxRounds q)); [lia|]. reflexivity.
Qed.

(** A fully correct round before the last: the round counter grows by
    one, the sequence by one step, and the next input phase starts. *)
Lemma playRound_next u p :
  inputReady p -> isDraw u -> round p < maxRounds p ->
  exists randomAction,
    randomAction ∈ actions p
    /\ inputReady (playRound u p)
    /\ round (playRound u p) = round p + 1
    /\ sequence (playRound u p) = sequence p ++ [icon randomAction]
    /\ maxRounds (playRound u p) = maxRounds p
    /\ super (playRound u p)
       = PuzzleController.set_timeRemaining (inputTime p) (super p).
Proof.
  intros (Hph & Hin & Hdom & Hsteps & Hseq & Hact) Hu Hlt. unfold playRound.
  rewrite (enterAll_correct u (sequence p) p Hseq Hph); [|lia|rewrite Hin; reflexivity].
  destruct (handleSequenceComplete_next u (set_playerInput (sequence p) p) Hu Hact Hlt)
    as (a & Ha & Hnext).
  rewrite Hnext. exists a. split; [exact Ha|].
  cbn [fireAll foldl resume].
  set (q := set_sequence _ _).
  assert (Hrender : render q = set_stepEls (length (sequence q)) q).
  { unfold render. unfold q at 1. cbn [contentElement set_sequence set_round set_phase
                                         set_playerInput]. rewrite Hdom. reflexivity. }
  rewrite Hrender. rewrite showSequence_rendered by (cbn [sequence stepEls set_stepEls]; lia).
  unfold q, inputReady. cbn. repeat split; try assumption; try reflexivity.
  intros Hnil. apply app_eq_nil in Hnil. destruct Hnil as [_ Hnil]. discriminate Hnil.
Qed.

(** The fully correct round at the cap completes the puzzle. *)
Lemma playRound_last u p :
  inputReady p -> maxRounds p <= round p ->
  super (playRound u p) = fst (PuzzleController.complete (super p))
  /\ round (playRound u p) = round p
  /\ sequence (playRound u p) = sequence p.
Proof.
  intros (Hph & Hin & Hdom & Hsteps & Hseq & Hact) Hge. unfold playRound.
  rewrite (enterAll_correct u (sequence p) p Hseq Hph); [|lia|rewrite Hin; reflexivity].
  rewrite (handleSequenceComplete_last u (set_playerInput (sequence p) p) Hge).
  cbn. repeat split; reflexivity.
Qed.


End RoundFacts.

Section DrawFacts.
Import RepairSequencePuzzle.



End DrawFacts.




(** * Properties of the resonance puzzle *)

Section ResonanceFacts.
Import ResonancePuzzle.

Lemma lockNote_locked p target :
  targetPattern p !! currentNote p = Some target ->
  inTolerance p target ->
  lockNote p
  = (set_currentNote (S (currentNote p))
       (set_matchedNotes (matchedNotes p ++ [currentNote p]) p),
     [SfxPlay "note_locked";
      PuzzleUpdate (PuzzleController.id (PuzzleController.settings (super p)))
        (inject_Z (Z.of_nat (S (currentNote p)))
         / inject_Z (Z.of_nat (length (targetPattern p))))%Q
        (PuzzleController.attempts (super p))],
     if (length (targetPattern p) <=? S (currentNote p))%nat
     then [After 500 KComplete] else []).
Proof.
  intros Hlook Hin. unfold lockNote. rewrite Hlook.
  apply Qle_bool_iff in Hin. unfold inTolerance in Hin. rewrite Hin. reflexivity.
Qed.

Lemma lockNote_off p target :
  targetPattern p !! currentNote p = Some target ->
  ~ inTolerance p target ->
  lockNote p
  = (p, [FeedbackOffBy (Qabs (target - currentFrequency p)); SfxPlay "note_wrong"], []).
Proof.
  intros Hlook Hout. unfold lockNote. rewrite Hlook.
  destruct (Qle_bool (Qabs (target - currentFrequency p)) (tolerance p)) eqn:E;
    [|reflexivity].
  exfalso. apply Hout. apply Qle_bool_iff. exact E.
Qed.

Lemma app_singleton_neq {A} (l : list A) (x : A) : l <> l ++ [x].
Proof.
  intros H. apply (f_equal length) in H. rewrite length_app in H. cbn in H. lia.
Qed.

Lemma currentFrequency_tuned frequency p :
  currentFrequency (set_dialValues (<["frequency" := frequency]> (dialValues p)) p)
  = heard frequency.
Proof.
  unfold currentFrequency, heard. cbn [dialValues set_dialValues].
  rewrite lookup_insert_eq. reflexivity.
Qed.

(** Locking each note in turn with the dial within tolerance matches
    every remaining note and schedules the completion, once. *)
Lemma lockEach_all frequencies : forall p targets,
  drop (currentNote p) (targetPattern p) = targets ->
  targets <> [] ->
  Forall2 (fun frequency target =>
             (Qabs (target - heard frequency) <= tolerance p)%Q) frequencies targets ->
  exists p',
    lockEach frequencies p = (p', [After 500 KComplete])
    /\ super p' = super p
    /\ targetPattern p' = targetPattern p
    /\ currentNote p' = length (targetPattern p)
    /\ matchedNotes p'
       = matchedNotes p ++ seq (currentNote p) (length targets).
Proof.
  induction frequencies as [|frequency frequencies IH];
    intros p targets Hdrop Hne Hall.
  - inversion Hall; subst. exfalso. apply Hne. symmetry. assumption.
  - destruct targets as [|target rest]; [contradiction|].
    apply Forall2_cons_1 in Hall. destruct Hall as [Hin Hrest]. cbn [lockEach].
    set (tuned := set_dialValues (<["frequency" := frequency]> (dialValues p)) p).
    assert (Hlook : targetPattern tuned !! currentNote tuned = Some target).
    { cbn. rewrite <- (Nat.add_0_r (currentNote p)). rewrite <- lookup_drop.
      rewrite Hdrop. reflexivity. }
    assert (Hlen : (currentNote p < length (targetPattern p))%nat).
    { apply lookup_lt_Some in Hlook. exact Hlook. }
    assert (Hcount : (length (targetPattern p) - currentNote p)%nat = S (length rest)).
    { apply (f_equal length) in Hdrop. rewrite length_drop in Hdrop. exact Hdrop. }
    rewrite (lockNote_locked tuned target Hlook).
    2:{ unfold inTolerance. unfold tuned. rewrite currentFrequency_tuned. exact Hin. }
    cbn [targetPattern currentNote matchedNotes super set_dialValues tuned].
    destruct rest as [|target' rest].
    + apply Forall2_nil_inv_r in Hrest. subst frequencies. cbn [lockEach].
      cbn [length] in Hcount.
      destruct (Nat.leb_spec (length (targetPattern p)) (S (currentNote p))); [|lia].
      eexists. split; [reflexivity|]. cbn. repeat split; try reflexivity. lia.
    + cbn [length] in Hcount.
      destruct (Nat.leb_spec (length (targetPattern p)) (S (currentNote p))) as [Hle|Hgt];
        [lia|].
      set (p1 := set_currentNote _ _).
      destruct (IH p1 (target' :: rest)) as (p' & Hrun & Hs & Ht & Hc & Hm).
      * unfold p1. cbn.
        replace (S (currentNote p)) with (currentNote p + 1)%nat by lia.
        rewrite <- drop_drop. rewrite Hdrop. reflexivity.
      * discriminate.
      * exact Hrest.
      * rewrite Hrun. exists p'. split; [reflexivity|].
        rewrite Hs, Ht, Hc, Hm. unfold p1. cbn. repeat split; try reflexivity.
        rewrite <- app_assoc. reflexivity.
Qed.

End ResonanceFacts.

(** C8, as the specification states it, fails: [lockNote] does not read
    the frequency dial when its value is 0 (or when there is no such
    dial) but takes 440 Hz in its place.  With the dial at 0 Hz and the
    target note at 440 Hz, 440 Hz apart with a tolerance of 20 Hz, the
    note is locked. *)
Lemma zero_dial_locks_distant_note :
  exists dial,
    ResonancePuzzle.dialValues zeroDialChime !! "frequency" = Some dial
    /\ (dial == 0)%Q
    /\ ResonancePuzzle.targetPattern zeroDialChime
         !! ResonancePuzzle.currentNote zeroDialChime = Some 440%Q
    /\ (ResonancePuzzle.tolerance zeroDialChime == 20)%Q
    /\ ~ (Qabs (440 - dial) <= ResonancePuzzle.tolerance zeroDialChime)%Q
    /\ advanced zeroDialChime (fst (fst (ResonancePuzzle.lockNote zeroDialChime))).
Proof.
  eexists. split; [vm_compute; reflexivity|].
  split; [reflexivity|]. split; [reflexivity|]. split; [reflexivity|]. split.
  - vm_compute. intros H. apply H. reflexivity.
  - vm_compute. split; reflexivity.
Qed.

(** C8, amended. For the resonance puzzle with a current target note,
    [lockNote] appends the index of that note to [matchedNotes] and
    advances to the next note if and only if the absolute difference
    between the frequency it reads - the value of the frequency dial, or
    440 when that value is 0 or missing - and the frequency of the target
    note is at most the tolerance of the puzzle (the configured one, or
    20 when none or 0 is configured); otherwise it changes nothing.  Locking the last note schedules the completion, and once
    every target note has been matched in turn the puzzle completes when
    that callback fires: no submit is called and no attempt is counted. *)
Theorem lockNote_advances_iff_within_tolerance :
  forall (p : ResonancePuzzle.t),
    (forall target,
        ResonancePuzzle.targetPattern p !! ResonancePuzzle.currentNote p = Some target ->
        let '(p', _, pend) := ResonancePuzzle.lockNote p in
        (advanced p p' <-> inTolerance p target)
        /\ (~ inTolerance p target -> p' = p /\ pend = [])
        /\ (inTolerance p target ->
            ResonancePuzzle.super p' = ResonancePuzzle.super p
            /\ pend = if (length (ResonancePuzzle.targetPattern p)
                          <=? S (ResonancePuzzle.currentNote p))%nat
                      then [After 500 KComplete] else []))
    /\ (forall frequency,
          ResonancePuzzle.dialValues p !! "frequency" = Some frequency ->
          ~ (frequency == 0)%Q ->
          ResonancePuzzle.currentFrequency p = frequency)
    /\ (ResonancePuzzle.dialValues p !! "frequency" = None ->
        ResonancePuzzle.currentFrequency p = 440%Q)
    /\ (forall stamp common config,
          ResonancePuzzle.tolerance (ResonancePuzzle.new stamp common config)
          = ResonancePuzzle.q_or (ResonancePuzzle.cfg_tolerance config) 20)
    /\ (forall frequencies,
          ResonancePuzzle.currentNote p = 0%nat ->
          ResonancePuzzle.targetPattern p <> [] ->
          Forall2 (fun frequency target =>
                     (Qabs (target - heard frequency) <= ResonancePuzzle.tolerance p)%Q)
                  frequencies (ResonancePuzzle.targetPattern p) ->
          let '(p', pend) := lockEach frequencies p in
          let completed := fst (ResonancePuzzle.resume KComplete p') in
          pend = [After 500 KComplete]
          /\ length (ResonancePuzzle.matchedNotes p')
             = (length (ResonancePuzzle.matchedNotes p)
                + length (ResonancePuzzle.targetPattern p))%nat
          /\ PuzzleController.isComplete (ResonancePuzzle.super completed) = true
          /\ PuzzleController.isActive (ResonancePuzzle.super completed) = false
          /\ PuzzleController.attempts (ResonancePuzzle.super completed)
             = PuzzleController.attempts (ResonancePuzzle.super p)).
Proof.
  intros p. split; [|split; [|split; [|split]]].
  - intros target Hlook.
    destruct (Qlt_le_dec (ResonancePuzzle.tolerance p)
                (Qabs (target - ResonancePuzzle.currentFrequency p))) as [Hout|Hin].
    + assert (Hn : ~ inTolerance p target).
      { unfold inTolerance. apply Qlt_not_le. exact Hout. }
      rewrite (lockNote_off p target Hlook Hn). split; [|split].
      * split; [|intros H; contradiction].
        intros [Hm _]. exfalso. exact (app_singleton_neq _ _ Hm).
      * intros _. split; reflexivity.
      * intros H. contradiction.
    + rewrite (lockNote_locked p target Hlook Hin). split; [|split].
      * split; [intros _; exact Hin|]. intros _. split; reflexivity.
      * intros H. contradiction.
      * intros _. split; reflexivity.
  - intros frequency Hdial Hnz. unfold ResonancePuzzle.currentFrequency. rewrite Hdial.
    unfold ResonancePuzzle.q_or.
    destruct (Qeq_bool frequency 0) eqn:E; [|reflexivity].
    exfalso. apply Hnz. apply Qeq_bool_iff. exact E.
  - intros Hnone. unfold ResonancePuzzle.currentFrequency. rewrite Hnone. reflexivity.
  - intros stamp common config. reflexivity.
  - intros frequencies Hstart Hne Hall.
    destruct (lockEach_all frequencies p (ResonancePuzzle.targetPattern p))
      as (p' & Hrun & Hs & _ & _ & Hm).
    + rewrite Hstart. reflexivity.
    + exact Hne.
    + exact Hall.
    + rewrite Hrun. cbn zeta. split; [reflexivity|]. split.
      * rewrite Hm, length_app, length_seq. reflexivity.
      * cbn [ResonancePuzzle.resume]. unfold Puzzle.complete, Puzzle.lift. cbn.
        rewrite Hs. repeat split; reflexivity.
Qed.

Lemma lockNote_advances_iff_within_tolerance_witness :
  advanced defaultChime (fst (fst (ResonancePuzzle.lockNote
     (ResonancePuzzle.set_dialValues
        (<["frequency" := 450%Q]> (ResonancePuzzle.dialValues defaultChime))
        defaultChime)))).
Proof.
  pose proof (lockNote_advances_iff_within_tolerance
                (ResonancePuzzle.set_dialValues
                   (<["frequency" := 450%Q]> (ResonancePuzzle.dialValues defaultChime))
                   defaultChime)) as (H & _).
  specialize (H 440%Q eq_refl).
  destruct (ResonancePuzzle.lockNote _) as [[p' sigs] pend].
  destruct H as (Hiff & _). cbn [fst].
  apply Hiff. vm_compute. discriminate.
Defined.

(** * Properties of conditions, flags and items *)

Section ConditionFacts.
Import StateManager StateManagerFlags.

(** Induction over a condition and the conditions nested in it. *)
Lemma Condition_nested_ind (P : Condition -> Prop) :
  (forall v, P (CondValue v)) ->
  (forall type key operator value conditions condition,
      match conditions with Some cs => Forall P cs | None => True end ->
      P condition ->
      P (CondObject type key operator value conditions condition)) ->
  forall c, P c.
Proof.
  intros Hv Ho.
  fix IH 1.
  intros [v | type key operator value conditions condition].
  - apply Hv.
  - apply Ho.
    + destruct conditions as [cs |]; [| exact I].
      induction cs as [| c cs IHcs]; constructor; [apply IH | exact IHcs].
    + apply IH.
Qed.

Lemma evaluateCondition_and_cons s type key operator value c cs condition :
  switch_type type = TAnd ->
  evaluateCondition s (CondObject type key operator value (Some (c :: cs)) condition)
  = and_then (evaluateCondition s c)
      (evaluateCondition s (CondObject type key operator value (Some cs) condition)).
Proof.
  intros Ht. cbn. rewrite Ht.
  destruct (evaluateCondition s c) as [[] |]; reflexivity.
Qed.

Lemma evaluateCondition_or_cons s type key operator value c cs condition :
  switch_type type = TOr ->
  evaluateCondition s (CondObject type key operator value (Some (c :: cs)) condition)
  = match evaluateCondition s c with
    | Return true => Return true
    | Return false =>
        evaluateCondition s (CondObject type key operator value (Some cs) condition)
    | Throw e => Throw e
    end.
Proof.
  intros Ht. cbn. rewrite Ht.
  destruct (evaluateCondition s c) as [[] |]; reflexivity.
Qed.

Lemma evaluateCondition_not s c :
  evaluateCondition s (condNot c) = negated (evaluateCondition s c).
Proof. reflexivity. Qed.

End ConditionFacts.


Section ConditionTheorems.
Import StateManager StateManagerFlags.

Lemma evaluateCondition_condAnd_cons s c cs :
  evaluateCondition s (condAnd (c :: cs))
  = and_then (evaluateCondition s c) (evaluateCondition s (condAnd cs)).
Proof. apply evaluateCondition_and_cons. reflexivity. Qed.

Lemma evaluateCondition_condOr_cons s c cs :
  evaluateCondition s (condOr (c :: cs))
  = match evaluateCondition s c with
    | Return true => Return true
    | Return false => evaluateCondition s (condOr cs)
    | Throw e => Throw e
    end.
Proof. apply evaluateCondition_or_cons. reflexivity. Qed.

(** X1. De Morgan's laws hold for conditions, with their errors: for every
    store and every list of conditions, [not (and cs)] evaluates to the
    same completion (the same boolean, or the same error) as
    [or (map not cs)], and [not (or cs)] to the same completion as
    [and (map not cs)]. *)
Theorem evaluateCondition_de_morgan :
  forall (s : StateManager.t) (cs : list StateManager.Condition),
    StateManager.evaluateCondition s (condNot (condAnd cs))
    = StateManager.evaluateCondition s (condOr (map condNot cs))
    /\ StateManager.evaluateCondition s (condNot (condOr cs))
       = StateManager.evaluateCondition s (condAnd (map condNot cs)).
Proof.
  intros s cs. rewrite !evaluateCondition_not.
  induction cs as [| c cs [IHa IHo]]; [split; reflexivity |].
  rewrite !map_cons, evaluateCondition_condAnd_cons, !evaluateCondition_condOr_cons,
    evaluateCondition_condAnd_cons, !evaluateCondition_not.
  rewrite <- IHa, <- IHo.
  destruct (evaluateCondition s c) as [[] |]; split; reflexivity.
Qed.

(** X2. [evaluateCondition] throws only for a missing array: a condition in
    which every [and] and [or] node that the evaluation can reach carries an
    array of conditions evaluates to a boolean, on every store; and when an
    evaluation throws, the error is the one of calling [every] or [some] on
    something that is no array, and the condition has such a node. *)
Theorem evaluateCondition_throws_only_without_array :
  forall (s : StateManager.t) (c : StateManager.Condition),
    (wellFormed c = true -> exists b, StateManager.evaluateCondition s c = Return b)
    /\ (forall e, StateManager.evaluateCondition s c = Throw e ->
                  e = StateManager.not_an_array /\ wellFormed c = false).
Proof.
  intros s c.
  assert (Hmain : (wellFormed c = true -> exists b, evaluateCondition s c = Return b)
                  /\ (forall e, evaluateCondition s c = Throw e -> e = not_an_array)).
  { induction c as [v | type key operator value conditions condition IHcs IHc]
      using Condition_nested_ind.
    - split; [intros _ | intros e He].
      + destruct v; cbn; eauto.
      + destruct v; discriminate He.
    - destruct (switch_type type) eqn:Ht.
      1-5, 9: split; [intros _; cbn; rewrite Ht; eauto
                     | intros e He; cbn in He; rewrite Ht in He; discriminate He].
      + (* and *)
        destruct conditions as [cs |].
        * induction cs as [| c cs IH].
          { split; [intros _; cbn; rewrite Ht; eauto
                   | intros e He; cbn in He; rewrite Ht in He; discriminate He]. }
          inversion IHcs as [| ? ? [Hc1 Hc2] Hrest]; subst.
          specialize (IH Hrest) as [IH1 IH2].
          rewrite (evaluateCondition_and_cons _ _ _ _ _ _ _ _ Ht).
          split.
          -- intros Hwf. cbn in Hwf. rewrite Ht in Hwf. cbn in Hwf.
             apply andb_true_iff in Hwf as [Hw1 Hw2].
             destruct (Hc1 Hw1) as [b ->].
             destruct b; cbn; [| eauto].
             apply IH1. cbn. rewrite Ht. exact Hw2.
          -- intros e He.
             destruct (evaluateCondition s c) as [[] | e'] eqn:Hev; cbn in He.
             ++ apply IH2. exact He.
             ++ discriminate He.
             ++ inversion He; subst. apply Hc2. reflexivity.
        * split; [intros Hwf; cbn in Hwf; rewrite Ht in Hwf; discriminate Hwf
                 | intros e He; cbn in He; rewrite Ht in He; inversion He; reflexivity].
      + (* or *)
        destruct conditions as [cs |].
        * induction cs as [| c cs IH].
          { split; [intros _; cbn; rewrite Ht; eauto
                   | intros e He; cbn in He; rewrite Ht in He; discriminate He]. }
          inversion IHcs as [| ? ? [Hc1 Hc2] Hrest]; subst.
          specialize (IH Hrest) as [IH1 IH2].
          rewrite (evaluateCondition_or_cons _ _ _ _ _ _ _ _ Ht).
          split.
          -- intros Hwf. cbn in Hwf. rewrite Ht in Hwf. cbn in Hwf.
             apply andb_true_iff in Hwf as [Hw1 Hw2].
             destruct (Hc1 Hw1) as [b ->].
             destruct b; [eauto |].
             apply IH1. cbn. rewrite Ht. exact Hw2.
          -- intros e He.
             destruct (evaluateCondition s c) as [[] | e'] eqn:Hev.
             ++ discriminate He.
             ++ apply IH2. exact He.
             ++ inversion He; subst. apply Hc2. reflexivity.
        * split; [intros Hwf; cbn in Hwf; rewrite Ht in Hwf; discriminate Hwf
                 | intros e He; cbn in He; rewrite Ht in He; inversion He; reflexivity].
      + (* not *)
        destruct IHc as [Hc1 Hc2].
        split.
        * intros Hwf. cbn in Hwf. rewrite Ht in Hwf.
          destruct (Hc1 Hwf) as [b Hb]. cbn. rewrite Ht, Hb. eauto.
        * intros e He. cbn in He. rewrite Ht in He.
          destruct (evaluateCondition s condition) as [b | e'] eqn:Hev;
            [discriminate He |].
          inversion He; subst. apply Hc2. reflexivity. }
  destruct Hmain as [H1 H2].
  split; [exact H1 |].
  intros e He. split; [apply H2; exact He |].
  destruct (wellFormed c) eqn:Hwf; [| reflexivity].
  destruct (H1 eq_refl) as [b Hb]. congruence.
Qed.

Lemma evaluateCondition_throws_only_without_array_witness :
  (exists b,
      StateManager.evaluateCondition StateManager.reset
        (condAnd [condFlagNamed "met_wizard"; condNot (condOr [])]) = Return b)
  /\ wellFormed
       (StateManager.CondObject (VStr "and") VUndefined VUndefined VUndefined None
          (StateManager.CondValue VUndefined)) = false.
Proof.
  split.
  - apply (proj1 (evaluateCondition_throws_only_without_array StateManager.reset _)).
    reflexivity.
  - apply (proj2 (evaluateCondition_throws_only_without_array StateManager.reset _)
             StateManager.not_an_array).
    reflexivity.
Defined.

(** X3. [hasAllFlags] and [hasAnyFlag] agree with the conditions: on every
    store, an [and] condition over bare flag names returns what
    [hasAllFlags] returns for these names, an [or] condition over them
    returns what [hasAnyFlag] returns, and [hasAnyFlag] is false exactly
    when every flag is not set (so it is false for no flags at all). *)
Theorem hasAllFlags_hasAnyFlag_as_conditions :
  forall (s : StateManager.t) (flags : list string),
    StateManager.evaluateCondition s (condAnd (map condFlagNamed flags))
    = Return (StateManagerFlags.hasAllFlags s flags)
    /\ StateManager.evaluateCondition s (condOr (map condFlagNamed flags))
       = Return (StateManagerFlags.hasAnyFlag s flags)
    /\ StateManagerFlags.hasAnyFlag s flags
       = negb (forallb (fun flag => negb (StateManager.hasFlag s flag)) flags).
Proof.
  intros s flags.
  induction flags as [| flag flags (IHa & IHo & IHd)]; [repeat split |].
  rewrite !map_cons, evaluateCondition_condAnd_cons, evaluateCondition_condOr_cons,
    IHa, IHo.
  unfold hasAllFlags, hasAnyFlag in *. cbn [forallb existsb]. rewrite IHd.
  change (evaluateCondition s (condFlagNamed flag)) with (Return (hasFlag s flag)).
  destruct (hasFlag s flag); repeat split.
Qed.

End ConditionTheorems.


Section FlagTheorems.
Import StateManager StateManagerFlags.

Lemma evaluateCondition_same_answers s1 s2 c :
  sameFlagAnswers s1 s2 ->
  state s1 = state s2 -> variables s1 = variables s2 -> inventory s1 = inventory s2 ->
  evaluateCondition s1 c = evaluateCondition s2 c.
Proof.
  intros Hf Hs Hv Hi.
  induction c as [v | type key operator value conditions condition IHcs IHc]
    using Condition_nested_ind.
  - destruct v; try reflexivity. cbn. unfold hasFlag. rewrite Hf. reflexivity.
  - destruct (switch_type type) eqn:Ht.
    1-5, 9: cbn; rewrite Ht; unfold hasItem, getItemQuantityV, getVariableV, get;
            rewrite ?Hf, ?Hs, ?Hv, ?Hi; reflexivity.
    + destruct conditions as [cs |]; [| cbn; rewrite Ht; reflexivity].
      induction cs as [| c cs IH]; [cbn; rewrite Ht; reflexivity |].
      inversion IHcs as [| ? ? Hc Hrest]; subst.
      rewrite !(evaluateCondition_and_cons _ _ _ _ _ _ _ _ Ht), Hc, (IH Hrest).
      reflexivity.
    + destruct conditions as [cs |]; [| cbn; rewrite Ht; reflexivity].
      induction cs as [| c cs IH]; [cbn; rewrite Ht; reflexivity |].
      inversion IHcs as [| ? ? Hc Hrest]; subst.
      rewrite !(evaluateCondition_or_cons _ _ _ _ _ _ _ _ Ht), Hc, (IH Hrest).
      reflexivity.
    + cbn. rewrite Ht, IHc. reflexivity.
Qed.

Lemma sameFlagAnswers_clearFlag s flag :
  sameFlagAnswers (fst (clearFlag s flag)) (fst (setFlag s flag false)).
Proof.
  intros [| | | |name]; try reflexivity.
  unfold hasFlagV. cbn.
  destruct (decide (flag = name)) as [-> | Hne].
  - rewrite lookup_delete_eq, lookup_insert_eq. reflexivity.
  - rewrite lookup_delete_ne, lookup_insert_ne by exact Hne. reflexivity.
Qed.

(** X4. After [clearFlag(flag)] the flag is not set: [hasFlag] and [getFlag]
    return false, and every other flag answers as before.  No query tells
    [clearFlag(flag)] from [setFlag(flag, false)]: [hasFlag], [getFlag] and
    every condition give the same result on the two stores, although the
    first store has no entry for the flag and the second holds [false]. *)
Theorem clearFlag_answers_like_setFlag_false :
  forall (s : StateManager.t) (flag : string),
    let cleared := fst (StateManagerFlags.clearFlag s flag) in
    let lowered := fst (StateManager.setFlag s flag false) in
    StateManager.hasFlag cleared flag = false
    /\ StateManager.getFlag cleared flag = false
    /\ (forall other, other <> flag ->
          StateManager.hasFlag cleared other = StateManager.hasFlag s other)
    /\ (forall name, StateManager.hasFlag cleared name = StateManager.hasFlag lowered name
                     /\ StateManager.getFlag cleared name
                        = StateManager.getFlag lowered name)
    /\ (forall c, StateManager.evaluateCondition cleared c
                  = StateManager.evaluateCondition lowered c)
    /\ StateManager.flags cleared !! flag = None
    /\ StateManager.flags lowered !! flag = Some false.
Proof.
  intros s flag cleared lowered.
  assert (Hdel : flags cleared !! flag = None) by apply lookup_delete_eq.
  assert (Hins : flags lowered !! flag = Some false) by apply lookup_insert_eq.
  repeat split.
  - unfold hasFlag, hasFlagV. cbn [lookup_key]. rewrite Hdel. reflexivity.
  - unfold getFlag. rewrite Hdel. reflexivity.
  - intros other Hne. unfold hasFlag, hasFlagV, cleared. cbn.
    rewrite lookup_delete_ne by congruence. reflexivity.
  - apply (sameFlagAnswers_clearFlag s flag (VStr name)).
  - unfold getFlag, cleared, lowered. cbn.
    destruct (decide (flag = name)) as [-> | Hne].
    + rewrite lookup_delete_eq, lookup_insert_eq. reflexivity.
    + rewrite lookup_delete_ne, lookup_insert_ne by exact Hne. reflexivity.
  - intros c. apply evaluateCondition_same_answers; try reflexivity.
    apply sameFlagAnswers_clearFlag.
  - exact Hdel.
  - exact Hins.
Qed.

Lemma clearFlag_answers_like_setFlag_false_witness :
  StateManager.hasFlag
    (fst (StateManagerFlags.clearFlag
            (fst (StateManager.setFlag StateManager.reset "lamp_lit" true)) "door_open"))
    "lamp_lit" = true.
Proof.
  pose proof (clearFlag_answers_like_setFlag_false
                (fst (StateManager.setFlag StateManager.reset "lamp_lit" true))
                "door_open") as (_ & _ & Hother & _).
  rewrite (Hother "lamp_lit") by discriminate.
  reflexivity.
Defined.

(** X5. An item condition asks for [value || 1] pieces: with a numeric
    [value] it holds exactly when [removeItem] of [value] pieces, or of one
    piece when [value] is 0, would succeed, and with no [value] exactly when
    [removeItem] of one piece would succeed; [hasItem(id, n)] is the result
    that [removeItem(id, n)] returns, namely whether [n] is at most the
    count of the item. *)
Theorem item_condition_matches_removeItem :
  forall (s : StateManager.t) (itemId : string) (n : Z),
    StateManager.evaluateCondition s (condItem itemId (VNum n))
    = Return (fst (fst (StateManager.removeItem s itemId (num_or (Some n) 1))))
    /\ StateManager.evaluateCondition s (condItem itemId VUndefined)
       = Return (fst (fst (StateManager.removeItem s itemId 1)))
    /\ StateManager.hasItem s (VStr itemId) (VNum n)
       = fst (fst (StateManager.removeItem s itemId n))
    /\ StateManager.hasItem s (VStr itemId) (VNum n)
       = bool_decide (n <= StateManager.getItemQuantity s itemId).
Proof.
  intros s itemId n.
  assert (Hhas : forall q, hasItem s (VStr itemId) (VNum q)
                           = bool_decide (q <= getItemQuantity s itemId)).
  { intros q. unfold hasItem, Js.ge, Js.le, getItemQuantity. cbn.
    destruct (Z.leb_spec q (getItemQuantityV s (VStr itemId)));
      [rewrite bool_decide_eq_true_2 | rewrite bool_decide_eq_false_2]; auto; lia. }
  assert (Hrem : forall q, fst (fst (removeItem s itemId q))
                           = bool_decide (q <= getItemQuantity s itemId)).
  { intros q. unfold removeItem.
    destruct (Z.ltb_spec (getItemQuantity s itemId) q); cbn;
      [rewrite bool_decide_eq_false_2 | rewrite bool_decide_eq_true_2]; auto; lia. }
  repeat split.
  - change (evaluateCondition s (condItem itemId (VNum n)))
      with (Return (hasItem s (VStr itemId) (or_else (VNum n) (VNum 1)))).
    rewrite Hrem. unfold or_else, truthy, num_or.
    destruct (Z.eqb_spec n 0) as [-> | Hn]; cbn [negb]; rewrite Hhas; reflexivity.
  - change (evaluateCondition s (condItem itemId VUndefined))
      with (Return (hasItem s (VStr itemId) (VNum 1))).
    rewrite Hrem, Hhas. reflexivity.
  - rewrite Hhas, Hrem. reflexivity.
  - apply Hhas.
Qed.

End FlagTheorems.

(** * Properties of the hints *)

Section HintFacts.
Import PuzzleController.

Lemma useHint_exhausted p k :
  hintsUsed p = Z.of_nat k -> (hintLimit p <= k)%nat ->
  useHint p = (None, p, [UiNotification "No more hints available"]).
Proof.
  intros Hk Hlim. unfold useHint, hintLimit in *.
  destruct (Z.leb_spec (maxHints (settings p)) (hintsUsed p));
    destruct (Z.leb_spec (Z.of_nat (length (hints (settings p)))) (hintsUsed p));
    try reflexivity.
  lia.
Qed.

Lemma useHint_available p k :
  hintsUsed p = Z.of_nat k -> (k < hintLimit p)%nat ->
  exists hint,
    hints (settings p) !! k = Some hint
    /\ useHint p
       = (Some hint,
          set_score (Z.max 0 (score p - 10)) (set_hintsUsed (Z.of_nat (S k)) p),
          [HintPanel hint; PuzzleHint (id (settings p)) (Z.of_nat k) (Some hint)]).
Proof.
  intros Hk Hlim. unfold hintLimit in Hlim.
  assert (Hlen : (k < length (hints (settings p)))%nat) by lia.
  destruct (lookup_lt_is_Some_2 _ _ Hlen) as [hint Hhint].
  exists hint. split; [exact Hhint |].
  unfold useHint, hintAt.
  destruct (Z.leb_spec (maxHints (settings p)) (hintsUsed p)); [lia |].
  destruct (Z.leb_spec (Z.of_nat (length (hints (settings p)))) (hintsUsed p)); [lia |].
  cbn [orb].
  destruct (Z.ltb_spec (hintsUsed p) 0); [lia |].
  rewrite Hk, Nat2Z.id, Hhint. cbn.
  repeat f_equal; lia.
Qed.

Lemma useHints_from k : forall n p,
  hintsUsed p = Z.of_nat k ->
  let remaining := (hintLimit p - k)%nat in
  fst (useHints n p)
  = map Some (take (n `min` remaining) (drop k (hints (settings p))))
    ++ repeat None (n - remaining)
  /\ hintsUsed (snd (useHints n p)) = Z.of_nat (k + n `min` remaining)
  /\ settings (snd (useHints n p)) = settings p
  /\ (0 <= score p ->
      score (snd (useHints n p))
      = Z.max 0 (score p - 10 * Z.of_nat (n `min` remaining))).
Proof.
  intros n. revert k. induction n as [| n IH]; intros k p Hk remaining.
  - cbn. rewrite Nat.add_0_r. repeat split; auto. lia.
  - cbn [useHints].
    destruct (le_lt_dec (hintLimit p) k) as [Hex | Hav].
    + rewrite (useHint_exhausted p k Hk Hex).
      specialize (IH k p Hk). cbn zeta in IH.
      destruct (useHints n p) as [given p2]. cbn [fst snd] in *.
      destruct IH as (IH1 & IH2 & IH3 & IH4).
      assert (Hr : (hintLimit p - k = 0)%nat) by lia.
      subst remaining. rewrite Hr in *.
      rewrite Nat.min_0_r in *. rewrite Nat.sub_0_r in *.
      rewrite IH1. cbn. auto.
    + destruct (useHint_available p k Hk Hav) as (hint & Hhint & ->).
      set (p1 := set_score _ _).
      assert (Hk1 : hintsUsed p1 = Z.of_nat (S k)) by reflexivity.
      specialize (IH (S k) p1 Hk1). cbn zeta in IH.
      change (hintLimit p1) with (hintLimit p) in IH.
      change (settings p1) with (settings p) in IH.
      destruct (useHints n p1) as [given p2]. cbn [fst snd] in *.
      destruct IH as (IH1 & IH2 & IH3 & IH4).
      assert (Hr : (hintLimit p - k)%nat = S (hintLimit p - S k)) by lia.
      subst remaining. rewrite Hr. rewrite <- Nat.succ_min_distr.
      rewrite (drop_S _ _ _ Hhint). cbn [take map app Nat.sub].
      rewrite IH1, IH2. repeat split; [| exact IH3 |].
      * f_equal. lia.
      * intros Hs. rewrite IH4 by (subst p1; cbn; lia).
        subst p1. cbn [score set_score]. lia.
Qed.

End HintFacts.

(** X6. Hints come out in order and stop at the limit: on a puzzle that has
    used no hint yet, [n] calls of [useHint] return the first
    [min(n, limit)] hints of the puzzle in order, where [limit] is the
    smaller of [maxHints] and the number of hints, and [null] for every call
    after that; the hint count ends at [min(n, limit)], a score that was not
    negative has lost 10 points for each hint given but is not below 0, and
    once the limit is reached a further call changes nothing. *)
Theorem useHint_gives_hints_in_order_up_to_limit :
  forall (p : PuzzleController.t) (n : nat),
    PuzzleController.hintsUsed p = 0 ->
    let '(given, p') := useHints n p in
    given
    = map Some (take (n `min` hintLimit p)
                     (PuzzleController.hints (PuzzleController.settings p)))
      ++ repeat None (n - hintLimit p)
    /\ PuzzleController.hintsUsed p' = Z.of_nat (n `min` hintLimit p)
    /\ (0 <= PuzzleController.score p ->
        PuzzleController.score p'
        = Z.max 0 (PuzzleController.score p - 10 * Z.of_nat (n `min` hintLimit p)))
    /\ ((hintLimit p <= n)%nat ->
        PuzzleController.useHint p'
        = (None, p', [UiNotification "No more hints available"])).
Proof.
  intros p n Hk.
  pose proof (useHints_from 0 n p Hk) as H. cbn zeta in H.
  rewrite Nat.sub_0_r, drop_0 in H.
  destruct (useHints n p) as [given p'] eqn:Hrun. cbn [fst snd] in H.
  destruct H as (H1 & H2 & H3 & H4).
  repeat split; [exact H1 | exact H2 | exact H4 |].
  intros Hn.
  apply (useHint_exhausted p' (n `min` hintLimit p)); [exact H2 |].
  unfold hintLimit in *. rewrite H3. lia.
Qed.

Lemma useHint_gives_hints_in_order_up_to_limit_witness :
  fst (useHints 4 hintedPuzzle)
  = [Some "Look at the gears"; Some "Start with the largest"; None; None].
Proof.
  pose proof (useHint_gives_hints_in_order_up_to_limit hintedPuzzle 4%nat eq_refl) as H.
  destruct (useHints 4 hintedPuzzle) as [given p'].
  destruct H as (H & _). cbn [fst]. rewrite H. reflexivity.
Defined.

(** * Properties of the factory's completion and failure handlers *)

Section RewardFacts.
Import StateManager PuzzleFactory.

Lemma hasFlag_setFlag s flag value other :
  hasFlag (fst (setFlag s flag value)) other
  = if decide (flag = other) then value else hasFlag s other.
Proof.
  unfold hasFlag, hasFlagV. cbn.
  destruct (decide (flag = other)) as [-> | Hne].
  - rewrite lookup_insert_eq. destruct value; reflexivity.
  - rewrite lookup_insert_ne by exact Hne. reflexivity.
Qed.

Lemma getVariable_setVariable s name value other d :
  getVariable (fst (setVariable s name value)) other d
  = if decide (name = other) then value else getVariable s other d.
Proof.
  unfold getVariable, getVariableV. cbn.
  destruct (decide (name = other)) as [-> | Hne].
  - rewrite lookup_insert_eq. reflexivity.
  - rewrite lookup_insert_ne by exact Hne. reflexivity.
Qed.

Lemma applyRewards_cons s reward rest :
  fst (applyRewards s (reward :: rest))
  = fst (applyRewards (fst (applyReward s reward)) rest).
Proof.
  cbn [applyRewards]. destruct (applyReward s reward) as [s1 sigs1]. cbn [fst].
  destruct (applyRewards s1 rest) as [s2 sigs2]. reflexivity.
Qed.

Lemma applyRewards_items rewards : forall s itemId,
  getItemQuantity (fst (applyRewards s rewards)) itemId
  = getItemQuantity s itemId + itemsGranted itemId rewards.
Proof.
  induction rewards as [| reward rest IH]; intros s itemId.
  - cbn. lia.
  - rewrite applyRewards_cons, IH.
    destruct reward as [id quantity | id | name value |]; cbn [applyReward itemsGranted].
    + rewrite getItemQuantity_addItem.
      destruct (decide (id = itemId)) as [-> | Hne].
      * rewrite String.eqb_refl. lia.
      * destruct (String.eqb_spec id itemId); [contradiction | lia].
    + reflexivity.
    + reflexivity.
    + reflexivity.
Qed.

Lemma applyRewards_flags rewards : forall s flag,
  (hasFlag s flag = true \/ In (RewardFlag flag) rewards) ->
  hasFlag (fst (applyRewards s rewards)) flag = true.
Proof.
  induction rewards as [| reward rest IH]; intros s flag H.
  - destruct H as [H | []]. exact H.
  - rewrite applyRewards_cons. apply IH.
    destruct H as [H | [-> | H]].
    + left. destruct reward as [id quantity | id | name value |]; cbn [applyReward fst];
        try exact H.
      rewrite hasFlag_setFlag. destruct (decide (id = flag)); [reflexivity | exact H].
    + left. cbn [applyReward]. rewrite hasFlag_setFlag.
      rewrite decide_True by reflexivity. reflexivity.
    + right. exact H.
Qed.

Lemma applyRewards_variable rewards : forall s name d,
  writesVariable name rewards = false ->
  getVariable (fst (applyRewards s rewards)) name d = getVariable s name d.
Proof.
  induction rewards as [| reward rest IH]; intros s name d H.
  - reflexivity.
  - rewrite applyRewards_cons. cbn in H. apply orb_false_iff in H as [H1 H2].
    rewrite IH by exact H2.
    destruct reward as [id quantity | id | n value |]; cbn [applyReward fst];
      try reflexivity.
    rewrite getVariable_setVariable.
    destruct (decide (n = name)) as [-> | Hne]; [| reflexivity].
    rewrite String.eqb_refl in H1. discriminate H1.
Qed.

End RewardFacts.

(** X7. What [handlePuzzleComplete] leaves in the store: the count of every
    item has grown by the sum of [quantity || 1] over the item rewards for
    it; every flag that was set and every flag named by a flag reward is set;
    and when a puzzle occupies the slot, its completion flag
    [puzzle_<id>_complete] is set and its score variable holds the reported
    score unless a variable reward writes that same variable. *)
Theorem handlePuzzleComplete_records_completion_and_rewards :
  forall (f : PuzzleFactory.t) (score : Z) (rewards : list Reward),
    let s' := fst (PuzzleFactory.handlePuzzleComplete f score rewards) in
    (forall itemId,
        StateManager.getItemQuantity s' itemId
        = StateManager.getItemQuantity (PuzzleFactory.state f) itemId
          + itemsGranted itemId rewards)
    /\ (forall flag,
          StateManager.hasFlag (PuzzleFactory.state f) flag = true
          \/ In (RewardFlag flag) rewards ->
          StateManager.hasFlag s' flag = true)
    /\ (forall puzzleId,
          PuzzleFactory.currentId f = Some puzzleId ->
          StateManager.hasFlag s' ("puzzle_" +:+ puzzleId +:+ "_complete") = true
          /\ (writesVariable ("puzzle_" +:+ puzzleId +:+ "_score") rewards = false ->
              StateManager.getVariable s' ("puzzle_" +:+ puzzleId +:+ "_score") VNull
              = VNum score)).
Proof.
  intros f score rewards s'. subst s'. unfold PuzzleFactory.handlePuzzleComplete.
  destruct (PuzzleFactory.currentId f) as [pid |] eqn:Hid.
  - cbn [StateManager.setFlag StateManager.setVariable].
    match goal with
    | |- context [PuzzleFactory.applyRewards ?s0 rewards] => set (s1 := s0)
    end.
    pose proof (applyRewards_items rewards s1) as Hitems.
    pose proof (applyRewards_flags rewards s1) as Hflags.
    pose proof (applyRewards_variable rewards s1) as Hvars.
    destruct (PuzzleFactory.applyRewards s1 rewards) as [s2 sigs2]. cbn [fst] in *.
    repeat split.
    + intros itemId. rewrite Hitems. reflexivity.
    + intros flag [H | H]; apply Hflags; [left | right; exact H].
      subst s1. unfold StateManager.hasFlag, StateManager.hasFlagV in *. cbn in *.
      destruct (decide ("puzzle_" +:+ pid +:+ "_complete" = flag)) as [<- | Hne].
      * rewrite lookup_insert_eq. reflexivity.
      * rewrite lookup_insert_ne by exact Hne. exact H.
    + inversion H; subst. apply Hflags. left.
      subst s1. unfold StateManager.hasFlag, StateManager.hasFlagV. cbn.
      rewrite lookup_insert_eq. reflexivity.
    + intros Hw. inversion H; subst. rewrite Hvars by exact Hw.
      subst s1. unfold StateManager.getVariable, StateManager.getVariableV. cbn.
      rewrite lookup_insert_eq. reflexivity.
  - pose proof (applyRewards_items rewards (PuzzleFactory.state f)) as Hitems.
    pose proof (applyRewards_flags rewards (PuzzleFactory.state f)) as Hflags.
    destruct (PuzzleFactory.applyRewards (PuzzleFactory.state f) rewards) as [s2 sigs2].
    cbn [fst] in *.
    repeat split; try discriminate.
    + exact Hitems.
    + exact Hflags.
Qed.

Lemma handlePuzzleComplete_records_completion_and_rewards_witness :
  let s' := fst (PuzzleFactory.handlePuzzleComplete lampStarted 110
                   [RewardItem "gear" (Some 2); RewardItem "gear" None;
                    RewardFlag "workshop_open"]) in
  StateManager.hasFlag s' "puzzle_lamp_complete" = true
  /\ StateManager.hasFlag s' "workshop_open" = true
  /\ StateManager.getItemQuantity s' "gear" = 3.
Proof.
  pose proof (handlePuzzleComplete_records_completion_and_rewards lampStarted 110
                [RewardItem "gear" (Some 2); RewardItem "gear" None;
                 RewardFlag "workshop_open"]) as (Hitems & Hflags & Hdone).
  cbn zeta in *. split; [| split].
  - apply (Hdone "lamp"). vm_compute. reflexivity.
  - apply Hflags. right. cbn. auto.
  - rewrite Hitems. vm_compute. reflexivity.
Defined.


(** X8. The failure handler counts: while a puzzle occupies the factory's
    slot and its failure variable holds the number [k] (0 when it was never
    written), delivering [n] failure callbacks, whichever puzzle they come
    from, leaves [k + n] in the failure variable of the puzzle in the slot,
    which stays in the slot. *)
Theorem handlePuzzleFail_counts_failures :
  forall (fails : list (string * string)) (f : PuzzleFactory.t) (puzzleId : string)
         (k : Z),
    PuzzleFactory.currentId f = Some puzzleId ->
    StateManager.getVariable (PuzzleFactory.state f) (failuresName puzzleId) (VNum 0)
    = VNum k ->
    let f' := PuzzleFactory.deliver
                (map (fun '(failed, reason) => OnFail failed reason) fails) f in
    StateManager.getVariable (PuzzleFactory.state f') (failuresName puzzleId) (VNum 0)
    = VNum (k + Z.of_nat (length fails))
    /\ PuzzleFactory.currentId f' = Some puzzleId.
Proof.
  induction fails as [| [failed reason] rest IH]; intros f puzzleId k Hid Hk f'.
  - subst f'. cbn. rewrite Z.add_0_r. auto.
  - subst f'. cbn [map PuzzleFactory.deliver].
    set (f1 := PuzzleFactory.with_state (PuzzleFactory.state f) _ f).
    assert (Hid1 : PuzzleFactory.currentId f1 = Some puzzleId) by exact Hid.
    unfold PuzzleFactory.handlePuzzleFail. rewrite Hid1.
    change (PuzzleFactory.state f1) with (PuzzleFactory.state f).
    fold (failuresName puzzleId). rewrite Hk.
    cbn [StateManager.setVariable PuzzleFactory.plusOne].
    match goal with
    | |- context [PuzzleFactory.deliver _ ?g] => set (f2 := g)
    end.
    assert (Hid2 : PuzzleFactory.currentId f2 = Some puzzleId) by exact Hid.
    assert (Hk2 : StateManager.getVariable (PuzzleFactory.state f2)
                    (failuresName puzzleId) (VNum 0) = VNum (k + 1)).
    { subst f2. unfold StateManager.getVariable, StateManager.getVariableV. cbn.
      rewrite lookup_insert_eq. reflexivity. }
    destruct (IH f2 puzzleId (k + 1) Hid2 Hk2) as [IH1 IH2].
    split; [| exact IH2].
    rewrite IH1. f_equal. cbn [length]. lia.
Qed.

Lemma handlePuzzleFail_counts_failures_witness :
  StateManager.getVariable
    (PuzzleFactory.state
       (PuzzleFactory.deliver
          [OnFail "lamp" "Time's up!"; OnFail "lamp" "Maximum attempts reached"]
          lampStarted))
    (failuresName "lamp") (VNum 0)
  = VNum 2.
Proof.
  apply (handlePuzzleFail_counts_failures
           [("lamp", "Time's up!"); ("lamp", "Maximum attempts reached")]
           lampStarted "lamp" 0).
  - vm_compute. reflexivity.
  - vm_compute. reflexivity.
Defined.

(** * Properties of puzzles of an unregistered type *)

Section GenericFacts.
Import PuzzleFactory.

Ltac innermost x :=
  lazymatch x with
  | if _ then _ else _ => fail
  | match _ with _ => _ end => fail
  | _ => idtac
  end.

Ltac open_pairs :=
  repeat match goal with
         | |- context [match ?x with _ => _ end] => innermost x; destruct x
         end.

Ltac other_class := cbn; open_pairs; reflexivity.

Ltac base_cases :=
  repeat (cbn;
          match goal with
          | |- context [if ?b then _ else _] => destruct b
          end).

Ltac base_class :=
  eexists; split; [reflexivity | split; [cbn; auto | reflexivity]].

Lemma genericSafe_tick o : genericSafe (quiet tick) o.
Proof.
  unfold genericSafe, quiet, tick, inherited.
  destruct o as [p | | | | |]; try other_class.
  unfold Puzzle.lift, PuzzleController.tick, PuzzleController.timeUp,
    PuzzleController.fail.
  base_cases; base_class.
Qed.

Lemma genericSafe_submit o : genericSafe (quiet submit) o.
Proof.
  unfold genericSafe, quiet, submit.
  destruct o as [p | | | | |]; try other_class.
  unfold Puzzle.submit, Puzzle.fail, Puzzle.lift, PuzzleController.fail.
  base_cases; base_class.
Qed.

Lemma genericSafe_reset o : genericSafe (quiet reset) o.
Proof.
  unfold genericSafe, quiet, reset.
  destruct o as [p | | | | |]; try other_class.
  unfold PuzzleController.reset.
  base_cases; base_class.
Qed.

Lemma genericSafe_useHint o : genericSafe (quiet useHint) o.
Proof.
  unfold genericSafe, quiet, useHint, inherited.
  destruct o as [p | | | | |]; try other_class.
  unfold Puzzle.lift, PuzzleController.useHint.
  base_cases; base_class.
Qed.

Lemma genericSafe_handleInput u icon o : genericSafe (handleInput u icon) o.
Proof.
  unfold genericSafe, handleInput.
  destruct o as [p | | | | |]; try other_class. base_class.
Qed.

Lemma genericSafe_handleTimeUp o : genericSafe handleTimeUp o.
Proof.
  unfold genericSafe, handleTimeUp.
  destruct o as [p | | | | |]; try other_class. base_class.
Qed.

Lemma genericSafe_lockNote o : genericSafe lockNote o.
Proof.
  unfold genericSafe, lockNote.
  destruct o as [p | | | | |]; try other_class. base_class.
Qed.

Lemma genericSafe_destroy o : genericSafe (fun o => (destroy o, [], [])) o.
Proof.
  unfold genericSafe, destroy, inherited.
  destruct o as [p | | | | |]; try other_class. base_class.
Qed.

Lemma genericSafe_init page o : genericSafe (fun o => (init page o, [], [])) o.
Proof.
  unfold genericSafe, init.
  destruct o as [p | | | | |]; try other_class. base_class.
Qed.

Lemma genericSafe_start o : genericSafe start o.
Proof.
  unfold genericSafe, start, inherited.
  destruct o as [p | | | | |]; try other_class.
  unfold Puzzle.lift, PuzzleController.start.
  base_cases; base_class.
Qed.

(** A callback fires on an object of another class. *)
Lemma genericSafe_resume k o : isGeneric o = false -> genericSafe (quiet (resume k)) o.
Proof.
  unfold genericSafe, quiet, resume, complete, submit.
  destruct o as [p | | | | |]; [discriminate | ..]; intros _;
    destruct k; other_class.
Qed.

End GenericFacts.


Section GenericInvariant.
Import PuzzleFactory.

Lemma timers_call r m f :
  timers (call r m f)
  = match objects f !! r with
    | Some o => timers f ++ map (pair r) (snd (m o))
    | None => timers f
    end.
Proof.
  unfold call. destruct (objects f !! r) as [o |]; [| reflexivity].
  destruct (m o) as [[o' sigs] pend]. cbn [snd].
  match goal with
  | |- context [deliver sigs ?g] =>
      destruct (deliver_frame sigs g) as (_ & _ & H & _)
  end.
  rewrite H. reflexivity.
Qed.

Lemma genericsUnsolved_call r m f :
  (forall o, objects f !! r = Some o -> genericSafe m o) ->
  genericsUnsolved f -> genericsUnsolved (call r m f).
Proof.
  intros Hm [Hdone Hnone].
  destruct (call_frame r m f) as (Hobj & _).
  pose proof (timers_call r m f) as Htim.
  destruct (objects f !! r) as [o |] eqn:Ho.
  2: { split; [intros r0 p0 | intros r0 pending]; rewrite ?Hobj, ?Htim; eauto. }
  specialize (Hm o eq_refl). unfold genericSafe in Hm.
  destruct (m o) as [[o' sigs] pend]. cbn [fst snd] in *.
  assert (Hlt : (r < length (objects f))%nat) by (apply lookup_lt_Some in Ho; exact Ho).
  assert (Hclass : isGeneric o = false -> isGeneric o' = false).
  { destruct o; [discriminate | ..]; intros _; exact Hm. }
  split.
  - intros r0 p0. rewrite Hobj.
    destruct (decide (r = r0)) as [<- | Hne].
    + rewrite list_lookup_insert_eq by exact Hlt. intros [= ->].
      destruct o as [p | | | | |]; try discriminate Hm.
      destruct Hm as (p' & [= <-] & Hkeep & _). apply Hkeep. eapply Hdone. exact Ho.
    + rewrite list_lookup_insert_ne by exact Hne. apply Hdone.
  - intros r0 pending. rewrite Hobj, Htim. intros Hin.
    apply in_app_iff in Hin as [Hin | Hin].
    + destruct (Hnone r0 pending Hin) as (o0 & Ho0 & Hg).
      destruct (decide (r = r0)) as [<- | Hne].
      * rewrite list_lookup_insert_eq by exact Hlt.
        exists o'. split; [reflexivity |]. apply Hclass. congruence.
      * rewrite list_lookup_insert_ne by exact Hne. eauto.
    + apply in_map_iff in Hin as (x & [= <- <-] & Hx).
      rewrite list_lookup_insert_eq by exact Hlt.
      exists o'. split; [reflexivity |].
      destruct o as [p | | | | |]; try exact Hm.
      destruct Hm as (p' & _ & _ & ->). destruct Hx.
Qed.

Lemma genericsUnsolved_stopCurrent f :
  genericsUnsolved f -> genericsUnsolved (stopCurrent f).
Proof.
  intros H. unfold stopCurrent.
  destruct (currentPuzzle f) as [r |]; [| exact H].
  destruct (objects f !! r) as [o |]; [| exact H].
  destruct (PuzzleController.isActive (base_of o)); [| exact H].
  apply genericsUnsolved_call; [| exact H].
  intros o' _. apply genericSafe_destroy.
Qed.

Lemma create_incomplete stamp type config :
  PuzzleController.isComplete (base_of (create stamp type config)) = false.
Proof.
  unfold create.
  repeat match goal with
         | |- context [if ?b then _ else _] => destruct b
         end; reflexivity.
Qed.

(** A constructed object is stored, given its callbacks, initialised and
    started. *)
Lemma genericsUnsolved_install o f :
  PuzzleController.isComplete (base_of o) = false ->
  genericsUnsolved f ->
  let r := length (objects f) in
  let o := fst (inherited (fun b => (PuzzleController.set_callbacks true true b, [])) o) in
  let f := mk (state f) (puzzleConfigs f) (objects f ++ [o]) (Some r)
              (timers f) (emitted f) (dom f) in
  let f := call r (fun o => (init (dom f) o, [], [])) f in
  genericsUnsolved (call r start f).
Proof.
  intros Hnew [Hdone Hnone]. cbn zeta.
  apply genericsUnsolved_call; [intros o' _; apply genericSafe_start |].
  apply genericsUnsolved_call; [intros o' _; apply genericSafe_init |].
  split; cbn [objects timers].
  - intros r p Hr. apply lookup_app_Some in Hr as [Hr | [Hge Hr]].
    + eapply Hdone. exact Hr.
    + apply list_lookup_singleton_Some in Hr as [_ Ho1].
      destruct o as [p0 | | | | |]; cbn in Ho1; try discriminate Ho1.
      injection Ho1 as <-. exact Hnew.
  - intros r pending Hin.
    destruct (Hnone r pending Hin) as (o0 & Ho0 & Hg).
    exists o0. split; [| exact Hg].
    apply lookup_app_l_Some. exact Ho0.
Qed.

Lemma genericsUnsolved_startPuzzle stamp puzzle f :
  genericsUnsolved f -> genericsUnsolved (snd (startPuzzle stamp puzzle f)).
Proof.
  intros H. apply genericsUnsolved_stopCurrent in H.
  unfold startPuzzle. set (f1 := stopCurrent f) in *.
  destruct puzzle as [puzzleId | config].
  - unfold createById. destruct (puzzleConfigs f1 !! puzzleId) as [config |].
    + cbn [snd]. apply genericsUnsolved_install; [apply create_incomplete | exact H].
    + exact H.
  - destruct (PuzzleController.cfg_type (common config)) as [ty |]; [| exact H].
    destruct (String.eqb ty ""); [exact H |].
    cbn [snd]. apply genericsUnsolved_install; [apply create_incomplete | exact H].
Qed.

Lemma In_unschedule r k l x : In x (unschedule r k l) -> In x l.
Proof.
  induction l as [| [r' [ms k']] l IH]; [intros [] |].
  cbn. destruct (bool_decide (r' = r) && bool_decide (k' = k)).
  - intros H. right. exact H.
  - intros [H | H]; [left; exact H | right; apply IH; exact H].
Qed.

Lemma scheduled_In r k f :
  scheduled r k f = true -> exists ms, In (r, After ms k) (timers f).
Proof.
  unfold scheduled. intros H. apply existsb_exists in H as ([r' [ms k']] & Hin & Heq).
  apply andb_true_iff in Heq as [H1 H2].
  apply bool_decide_eq_true in H1, H2. subst. eauto.
Qed.

Lemma genericsUnsolved_step e f : genericsUnsolved f -> genericsUnsolved (step e f).
Proof.
  intros H.
  destruct e as [stamp puzzle | r | r k | r | r | r | r u icon | r | r]; cbn [step].
  - apply genericsUnsolved_startPuzzle. exact H.
  - apply genericsUnsolved_call; [intros o _; apply genericSafe_tick | exact H].
  - destruct (scheduled r k f) eqn:Hs; [| exact H].
    destruct (scheduled_In r k f Hs) as (ms & Hin).
    destruct H as [Hdone Hnone].
    destruct (Hnone r _ Hin) as (o & Ho & Hg).
    apply genericsUnsolved_call.
    + cbn [objects]. intros o' Ho'. apply genericSafe_resume. congruence.
    + split; cbn [objects timers]; [exact Hdone |].
      intros r0 pending Hin0. apply (Hnone r0 pending).
      eapply In_unschedule. exact Hin0.
  - apply genericsUnsolved_call; [intros o _; apply genericSafe_submit | exact H].
  - apply genericsUnsolved_call; [intros o _; apply genericSafe_reset | exact H].
  - apply genericsUnsolved_call; [intros o _; apply genericSafe_useHint | exact H].
  - apply genericsUnsolved_call; [intros o _; apply genericSafe_handleInput | exact H].
  - apply genericsUnsolved_call; [intros o _; apply genericSafe_handleTimeUp | exact H].
  - apply genericsUnsolved_call; [intros o _; apply genericSafe_lockNote | exact H].
Qed.

Lemma genericsUnsolved_run es : forall f,
  genericsUnsolved f -> genericsUnsolved (run es f).
Proof.
  induction es as [| e es IH]; intros f H; [exact H |].
  cbn. apply IH. apply genericsUnsolved_step. exact H.
Qed.

Lemma create_unregistered stamp type config :
  (forall ty, type = Some ty -> ty ∉ specialised) ->
  create stamp type config = Generic (PuzzleController.new stamp (common config)).
Proof.
  intros Hty. unfold create.
  repeat match goal with
         | |- context [bool_decide (type = Some ?ty)] =>
             rewrite (bool_decide_eq_false_2 (type = Some ty))
               by (intros Heq; apply (Hty ty Heq); unfold specialised;
                   repeat first [apply list_elem_of_here | apply list_elem_of_further])
         end.
  reflexivity.
Qed.

End GenericInvariant.

(** X9. A puzzle whose type has no class of its own is never solved:
    [create] gives such a configuration (one with a type other than the five
    specialised ones, or with none) an instance of the base class that keeps
    the configured type name; [submit] on an instance of the base class
    returns false and never sets [isComplete]; and in every run of the
    factory from its construction no instance of the base class is ever
    complete. *)
Theorem unregistered_type_gives_puzzle_that_never_completes :
  (forall (stamp : string) (type : option string) (config : PuzzleFactory.Config),
      (forall ty, type = Some ty -> ty ∉ specialised) ->
      PuzzleFactory.create stamp type config
      = PuzzleFactory.Generic (PuzzleController.new stamp (PuzzleFactory.common config))
      /\ PuzzleController.type
           (PuzzleController.settings
              (PuzzleController.new stamp (PuzzleFactory.common config)))
         = PuzzleController.str_or
             (PuzzleController.cfg_type (PuzzleFactory.common config)) "generic")
  /\ (forall (p : PuzzleController.t),
        let '(ok, p', _) := Puzzle.submit p in
        ok = false
        /\ PuzzleController.isComplete p' = PuzzleController.isComplete p)
  /\ (forall (s : StateManager.t) (configs : gmap string PuzzleFactory.Config)
             (page : bool) (es : list PuzzleFactory.Event) (r : nat)
             (p : PuzzleController.t),
        PuzzleFactory.objects (PuzzleFactory.run es (PuzzleFactory.new s configs page))
          !! r = Some (PuzzleFactory.Generic p) ->
        PuzzleController.isComplete p = false).
Proof.
  split; [| split].
  - intros stamp type config Hty. split; [| reflexivity].
    apply create_unregistered. exact Hty.
  - intros p. unfold Puzzle.submit, Puzzle.fail, Puzzle.lift, PuzzleController.fail.
    cbn. destruct (PuzzleController.attemptsExhausted _); cbn; auto.
  - intros s configs page es r p Hr.
    assert (H0 : genericsUnsolved (PuzzleFactory.new s configs page)).
    { split; cbn; [intros r0 p0 Hr0; rewrite lookup_nil in Hr0; discriminate Hr0
                  | intros r0 pending []]. }
    destruct (genericsUnsolved_run es _ H0) as [Hdone _].
    eapply Hdone. exact Hr.
Qed.

Lemma unregistered_type_gives_puzzle_that_never_completes_witness :
  exists p,
    PuzzleFactory.objects (PuzzleFactory.run riddleRun emptyFactory) !! 0%nat
    = Some (PuzzleFactory.Generic p)
    /\ PuzzleController.type (PuzzleController.settings p) = "riddle"
    /\ PuzzleController.attempts p = 2
    /\ PuzzleController.isComplete p = false.
Proof.
  eexists. split; [vm_compute; reflexivity |].
  split; [reflexivity | split; [reflexivity |]].
  apply (proj2 (proj2 unregistered_type_gives_puzzle_that_never_completes)
           StateManager.reset ∅ true riddleRun 0%nat).
  vm_compute. reflexivity.
Defined.

(** * Properties of the validators *)

Section ValidatorFacts.

Lemma everyMatches_spec solution : forall i target,
  RepairSequencePuzzle.everyMatches i solution target = true
  <-> take (length solution) (drop i target) = solution.
Proof.
  induction solution as [| icon rest IH]; intros i target; cbn [RepairSequencePuzzle.everyMatches length].
  - rewrite take_0. tauto.
  - rewrite andb_true_iff, bool_decide_eq_true, IH.
    destruct (target !! i) as [x |] eqn:Hx.
    + rewrite (drop_S _ _ _ Hx). cbn [take]. split.
      * intros [[= ->] ->]. reflexivity.
      * intros [= -> ->]. split; reflexivity.
    + rewrite (drop_ge target i) by (apply lookup_ge_None; exact Hx).
      rewrite take_nil. split; [intros [[=] _] | intros [=]].
Qed.

Lemma recipeMatches_spec rest : forall i given,
  SpellCraftingPuzzle.recipeMatches i rest given = true
  <-> take (length rest) (drop i given) = rest.
Proof.
  induction rest as [| r rest IH]; intros i given; cbn [SpellCraftingPuzzle.recipeMatches length].
  - rewrite take_0. tauto.
  - destruct (given !! i) as [x |] eqn:Hx.
    + rewrite (drop_S _ _ _ Hx). cbn [take].
      case_bool_decide as Hd.
      * rewrite IH. injection Hd as ->. split; [intros ->; reflexivity | intros [= ->]; reflexivity].
      * split; [discriminate | intros [= -> _]; congruence].
    + rewrite bool_decide_eq_false_2 by discriminate.
      rewrite (drop_ge given i) by (apply lookup_ge_None; exact Hx).
      rewrite take_nil. split; discriminate.
Qed.

End ValidatorFacts.

(** X10. The validators of the sequence puzzle and of the spell puzzle are
    equality of arrays: a solution is valid exactly when it is the target
    sequence, respectively the recipe, element for element and in the same
    order. *)
Theorem sequence_and_recipe_validators_are_list_equality :
  (forall (p : RepairSequencePuzzle.t) (solution : list string),
      RepairSequencePuzzle.validateSolution p solution
      = bool_decide (solution = RepairSequencePuzzle.sequence p))
  /\ (forall (p : SpellCraftingPuzzle.t) (given : list string),
        SpellCraftingPuzzle.validateSolution p given
        = bool_decide (given = SpellCraftingPuzzle.recipe p)).
Proof.
  split.
  - intros p solution. unfold RepairSequencePuzzle.validateSolution.
    destruct (Nat.eqb_spec (length solution) (length (RepairSequencePuzzle.sequence p)))
      as [Hlen | Hlen]; cbn [negb].
    + apply eq_true_iff_eq. rewrite everyMatches_spec, bool_decide_eq_true, drop_0, Hlen.
      rewrite firstn_all. split; congruence.
    + symmetry. apply bool_decide_eq_false_2. congruence.
  - intros p given. unfold SpellCraftingPuzzle.validateSolution.
    destruct (Nat.eqb_spec (length given) (length (SpellCraftingPuzzle.recipe p)))
      as [Hlen | Hlen]; cbn [negb].
    + apply eq_true_iff_eq. rewrite recipeMatches_spec, bool_decide_eq_true, drop_0, <- Hlen.
      rewrite firstn_all. split; congruence.
    + symmetry. apply bool_decide_eq_false_2. congruence.
Qed.

(** X11. The validator of the mechanical puzzle is inclusion: a placement is
    valid exactly when every slot of the target mapping holds the part that
    the mapping names; slots that the mapping does not mention do not
    matter. *)
Theorem mechanical_validator_is_inclusion :
  forall (p : MechanicalPuzzle.t) (given : gmap string string),
    MechanicalPuzzle.validateSolution p given
    = bool_decide (MechanicalPuzzle.solution p ⊆ given).
Proof.
  intros p given. unfold MechanicalPuzzle.validateSolution.
  apply eq_true_iff_eq. rewrite forallb_forall, bool_decide_eq_true, map_subseteq_spec.
  split.
  - intros H slotId partId Hs.
    apply elem_of_map_to_list in Hs. apply list_elem_of_In in Hs.
    specialize (H _ Hs). cbn in H. apply bool_decide_eq_true in H. exact H.
  - intros H [slotId partId] Hin. apply bool_decide_eq_true. apply H.
    apply elem_of_map_to_list. apply list_elem_of_In. exact Hin.
Qed.

(** * Properties of the ingredient shelf *)

Section ShelfFacts.
Import SpellCraftingPuzzle SpellCraftingShelf.









End ShelfFacts.



(** * Properties of the reset and the input timer of the sequence puzzle *)

Section SequenceResetFacts.
Import RepairSequencePuzzle.

Lemma reset_sequence p :
  sequence (fst (reset p)) = take 4 (sequence p)
  /\ round (fst (reset p)) = 1
  /\ phase (fst (reset p)) = Ready
  /\ playerInput (fst (reset p)) = []
  /\ maxRounds (fst (reset p)) = maxRounds p.
Proof.
  unfold reset, render. cbn.
  destruct (contentElement p); repeat split; reflexivity.
Qed.

(** Fully correct rounds only append to the sequence. *)
Lemma playRounds_extends draws : forall p,
  inputReady p -> Forall isDraw draws ->
  round p + Z.of_nat (length draws) <= maxRounds p + 1 ->
  exists extension,
    sequence (playRounds draws p) = sequence p ++ extension
    /\ (length extension = length draws
        \/ S (length extension) = length draws
           /\ PuzzleController.isComplete (super (playRounds draws p)) = true).
Proof.
  induction draws as [| u draws IH]; intros p Hready Hdraws Hcount.
  - exists []. cbn. rewrite app_nil_r. auto.
  - inversion Hdraws as [| ? ? Hu Hrest]; subst. cbn [playRounds].
    destruct (Z.lt_ge_cases (round p) (maxRounds p)) as [Hlt | Hge].
    + destruct (playRound_next u p Hready Hu Hlt)
        as (a & _ & Hready' & Hr & Hq & Hm & _).
      destruct (IH (playRound u p) Hready' Hrest) as (ext & Hext & Hlen).
      { rewrite Hr, Hm. cbn [length] in Hcount. lia. }
      exists (icon a :: ext). rewrite Hext, Hq, <- app_assoc. split; [reflexivity |].
      cbn [length]. destruct Hlen as [Hlen | [Hlen Hdone]]; [left | right]; auto.
    + assert (draws = []) as ->.
      { destruct draws; [reflexivity | cbn [length] in Hcount; lia]. }
      destruct (playRound_last u p Hready Hge) as (Hs & _ & Hq).
      exists []. cbn [playRounds]. rewrite Hq, app_nil_r. split; [reflexivity |].
      right. split; [reflexivity |]. rewrite Hs. reflexivity.
Qed.

End SequenceResetFacts.

(** X13. [reset] of the sequence puzzle keeps the first four steps of the
    current sequence.  After any number of fully correct rounds this is the
    sequence the puzzle started with when that sequence had exactly four
    steps; a sequence of more than four steps is cut to four, and a sequence
    of fewer than four steps keeps a step that a round appended. *)
Theorem sequence_reset_restores_only_four_step_sequence :
  forall (p : RepairSequencePuzzle.t),
    let after q := RepairSequencePuzzle.sequence (fst (RepairSequencePuzzle.reset q)) in
    after p = take 4 (RepairSequencePuzzle.sequence p)
    /\ (forall draws,
          inputReady p -> Forall isDraw draws ->
          RepairSequencePuzzle.round p + Z.of_nat (length draws)
            <= RepairSequencePuzzle.maxRounds p + 1 ->
          length (RepairSequencePuzzle.sequence p) = 4%nat ->
          after (playRounds draws p) = RepairSequencePuzzle.sequence p)
    /\ ((4 < length (RepairSequencePuzzle.sequence p))%nat ->
        length (after p) = 4%nat /\ after p <> RepairSequencePuzzle.sequence p)
    /\ (forall u,
          inputReady p -> isDraw u ->
          RepairSequencePuzzle.round p < RepairSequencePuzzle.maxRounds p ->
          (length (RepairSequencePuzzle.sequence p) < 4)%nat ->
          length (after (playRound u p))
          = S (length (RepairSequencePuzzle.sequence p))).
Proof.
  intros p after.
  assert (Hafter : forall q, after q = take 4 (RepairSequencePuzzle.sequence q)).
  { intros q. apply reset_sequence. }
  split; [apply Hafter | split; [| split]].
  - intros draws Hready Hdraws Hcount Hfour.
    destruct (playRounds_extends draws p Hready Hdraws Hcount) as (ext & Hext & _).
    rewrite Hafter, Hext, <- Hfour. apply take_app_length.
  - intros Hlong. rewrite Hafter. split.
    + rewrite length_take. lia.
    + intros Heq. apply (f_equal length) in Heq. rewrite length_take in Heq. lia.
  - intros u Hready Hu Hlt Hshort.
    destruct (playRound_next u p Hready Hu Hlt) as (a & _ & _ & _ & Hq & _).
    rewrite Hafter, Hq, length_take, length_app. cbn [length]. lia.
Qed.

Lemma sequence_reset_restores_only_four_step_sequence_witness :
  RepairSequencePuzzle.sequence
    (fst (RepairSequencePuzzle.reset (playRounds [1 # 2; 0 # 1] scenarioSequence)))
  = RepairSequencePuzzle.sequence scenarioSequence.
Proof.
  apply (proj1 (proj2 (sequence_reset_restores_only_four_step_sequence scenarioSequence))
           [1 # 2; 0 # 1]).
  - vm_compute. repeat split; discriminate.
  - repeat constructor; vm_compute; discriminate.
  - vm_compute. discriminate.
  - reflexivity.
Defined.




(** * Properties of the dials and the notes of the resonance puzzle *)




Section ObjectInvariants.
Import PuzzleFactory.
Context (Q : Instance -> Prop).

Lemma everyObject_call r m f :
  preserves Q m -> everyObject Q f -> everyObject Q (call r m f).
Proof.
  intros Hm Hf r0 o0. destruct (call_frame r m f) as (Hobj & _). rewrite Hobj.
  destruct (objects f !! r) as [o |] eqn:Ho; [| apply Hf].
  destruct (decide (r = r0)) as [<- | Hne].
  - rewrite list_lookup_insert_eq by (apply lookup_lt_Some in Ho; exact Ho).
    intros [= <-]. apply Hm. eapply Hf. exact Ho.
  - rewrite list_lookup_insert_ne by exact Hne. apply Hf.
Qed.

Lemma everyObject_step e f :
  objectInvariant Q -> everyObject Q f -> everyObject Q (step e f).
Proof.
  intros (Hnew & Hcb & Hinit & Hstart & Hdestroy & Htick & Hresume & Hsubmit & Hreset
          & Hhint & Hinput & Htime & Hlock) Hf.
  destruct e as [stamp puzzle | r | r k | r | r | r | r u icon | r | r]; cbn [step];
    try (apply everyObject_call; auto; fail).
  - assert (H1 : everyObject Q (stopCurrent f)).
    { unfold stopCurrent.
      destruct (currentPuzzle f) as [r |]; [| exact Hf].
      destruct (objects f !! r) as [o |]; [| exact Hf].
      destruct (PuzzleController.isActive (base_of o)); [| exact Hf].
      apply everyObject_call; assumption. }
    unfold startPuzzle. set (f1 := stopCurrent f) in *.
    assert (Hinstall : forall o, Q o ->
      everyObject Q
        (call (length (objects f1)) start
           (call (length (objects f1))
              (fun o => (init (dom f1) o, [], []))
              (mk (state f1) (puzzleConfigs f1)
                  (objects f1
                   ++ [fst (inherited
                              (fun b => (PuzzleController.set_callbacks true true b, []))
                              o)])
                  (Some (length (objects f1))) (timers f1) (emitted f1) (dom f1))))).
    { intros o Ho. apply everyObject_call; [exact Hstart |].
      apply everyObject_call; [apply Hinit |].
      intros r0 o0. cbn [objects]. intros Hr.
      apply lookup_app_Some in Hr as [Hr | [_ Hr]]; [eapply H1; exact Hr |].
      apply list_lookup_singleton_Some in Hr as [_ <-]. apply (Hcb o Ho). }
    destruct puzzle as [puzzleId | config].
    + unfold createById. destruct (puzzleConfigs f1 !! puzzleId) as [config |].
      * cbn [snd]. apply Hinstall. apply Hnew.
      * exact H1.
    + destruct (PuzzleController.cfg_type (common config)) as [ty |]; [| exact H1].
      destruct (String.eqb ty ""); [exact H1 |].
      cbn [snd]. apply Hinstall. apply Hnew.
  - destruct (scheduled r k f); [| exact Hf].
    apply everyObject_call; [apply Hresume | exact Hf].
Qed.

Lemma everyObject_run es : forall f,
  objectInvariant Q -> everyObject Q f -> everyObject Q (run es f).
Proof.
  induction es as [| e es IH]; intros f HQ Hf; [exact Hf |].
  cbn. apply IH; [exact HQ |]. apply everyObject_step; assumption.
Qed.

End ObjectInvariants.

Section ResonanceOrder.
Import ResonancePuzzle.

Lemma notesInOrder_super b p : notesInOrder p -> notesInOrder (set_super b p).
Proof. intros H. exact H. Qed.

Lemma notesInOrder_lockNote p :
  notesInOrder p -> notesInOrder (fst (fst (lockNote p))).
Proof.
  intros [Hm Hc]. unfold lockNote.
  destruct (targetPattern p !! currentNote p) as [target |] eqn:Ht; [| split; assumption].
  destruct (Qle_bool _ _); [| split; assumption].
  split; cbn [fst matchedNotes currentNote targetPattern set_currentNote set_matchedNotes].
  - rewrite Hm, seq_S. reflexivity.
  - apply lookup_lt_Some in Ht. lia.
Qed.

Lemma notesInOrder_reset p : notesInOrder (fst (reset p)).
Proof.
  unfold reset. cbn. destruct (0 <? _); split; cbn; try reflexivity; lia.
Qed.

Lemma notesInOrder_new stamp common config : notesInOrder (new stamp common config).
Proof. split; cbn; [reflexivity | lia]. Qed.

End ResonanceOrder.

Section ResonanceObjects.
Import PuzzleFactory.

Ltac top_level x :=
  lazymatch x with
  | if _ then _ else _ => fail
  | match _ with _ => _ end => fail
  | _ => idtac
  end.

Ltac open_results :=
  repeat match goal with
         | |- context [match ?x with _ => _ end] => top_level x; destruct x
         end.

Ltac other_object :=
  unfold quiet, start, tick, submit, useHint, reset, destroy, init, handleInput,
    handleTimeUp, lockNote, resume, complete, inherited;
  cbn; open_results; cbn; exact I.

Ltac super_only H :=
  unfold quiet, start, tick, submit, useHint, resume, inherited,
    ResonancePuzzle.resume, Puzzle.submit, Puzzle.complete, Puzzle.fail, Puzzle.lift;
  cbn; open_results; cbn; exact H.

Lemma resonanceInOrder_invariant : objectInvariant resonanceInOrder.
Proof.
  unfold objectInvariant, preserves.
  split; [| repeat split].
  - intros stamp type config. unfold create.
    repeat match goal with
           | |- context [if ?b then _ else _] => destruct b
           end; cbn; try exact I.
    apply notesInOrder_new.
  - intros [| | | | | p] H; try other_object. exact H.
  - intros page [| | | | | p] H; try other_object. exact H.
  - intros [| | | | | p] H; try other_object. super_only H.
  - intros [| | | | | p] H; try other_object. exact H.
  - intros [| | | | | p] H; try other_object. super_only H.
  - intros k [| | | | | p] H; try (destruct k; other_object).
    destruct k; super_only H.
  - intros [| | | | | p] H; try other_object. super_only H.
  - intros [| | | | | p] H; try other_object.
    unfold quiet, reset.
    pose proof (notesInOrder_reset p) as Hr.
    destruct (ResonancePuzzle.reset p). exact Hr.
  - intros [| | | | | p] H; try other_object. super_only H.
  - intros u icon [| | | | | p] H; try other_object. exact H.
  - intros [| | | | | p] H; try other_object. exact H.
  - intros [| | | | | p] H; try other_object.
    unfold lockNote. pose proof (notesInOrder_lockNote p H) as Hl.
    destruct (ResonancePuzzle.lockNote p) as [[? ?] ?]. exact Hl.
Qed.

End ResonanceObjects.

(** X16. The notes of a resonance puzzle are locked in order: [matchedNotes]
    is always the list 0, 1, ..., currentNote - 1 and [currentNote] never
    exceeds the length of the pattern.  This holds of a constructed puzzle,
    is kept by [lockNote] and by every dial movement, is restored by
    [reset], and holds of every resonance puzzle in every run of the factory;
    so no note is matched twice, and the validator, which only compares
    lengths, accepts exactly when every note of the pattern has been
    locked. *)
Theorem resonance_notes_are_locked_in_order :
  (forall (stamp : string) (common : PuzzleController.Config)
          (config : ResonancePuzzle.Config),
      notesInOrder (ResonancePuzzle.new stamp common config))
  /\ (forall (p : ResonancePuzzle.t),
        notesInOrder p ->
        notesInOrder (fst (fst (ResonancePuzzle.lockNote p)))
        /\ (forall dialId startValue delta,
              notesInOrder (ResonancePuzzle.handleMove dialId startValue delta p))
        /\ NoDup (ResonancePuzzle.matchedNotes p)
        /\ (ResonancePuzzle.validateSolution p (ResonancePuzzle.getSolution p) = true
            <-> ResonancePuzzle.currentNote p = length (ResonancePuzzle.targetPattern p)))
  /\ (forall (p : ResonancePuzzle.t), notesInOrder (fst (ResonancePuzzle.reset p)))
  /\ (forall (s : StateManager.t) (configs : gmap string PuzzleFactory.Config)
             (page : bool) (es : list PuzzleFactory.Event) (r : nat)
             (p : ResonancePuzzle.t),
        PuzzleFactory.objects (PuzzleFactory.run es (PuzzleFactory.new s configs page))
          !! r = Some (PuzzleFactory.Resonance p) ->
        notesInOrder p).
Proof.
  split; [apply notesInOrder_new | split; [| split; [apply notesInOrder_reset |]]].
  - intros p H. split; [apply notesInOrder_lockNote; exact H | split; [| split]].
    + intros dialId startValue delta. unfold ResonancePuzzle.handleMove.
      destruct (List.find _ _); exact H.
    + destruct H as [-> _]. apply NoDup_seq.
    + destruct H as [Hm Hc].
      unfold ResonancePuzzle.validateSolution, ResonancePuzzle.getSolution.
      rewrite Hm, length_seq. apply Nat.eqb_eq.
  - intros s configs page es r p Hr.
    apply (everyObject_run resonanceInOrder es (PuzzleFactory.new s configs page)
             resonanceInOrder_invariant) in Hr; [exact Hr |].
    intros r0 o0 H0. cbn in H0. rewrite lookup_nil in H0. discriminate H0.
Qed.

Lemma resonance_notes_are_locked_in_order_witness :
  notesInOrder
    (fst (fst (ResonancePuzzle.lockNote
                 (ResonancePuzzle.set_dialValues
                    (<["frequency" := 450%Q]> (ResonancePuzzle.dialValues defaultChime))
                    defaultChime)))).
Proof.
  apply (proj1 (proj2 resonance_notes_are_locked_in_order)).
  split; [reflexivity | vm_compute; lia].
Defined.

(** * Properties of the counters of every puzzle *)

Section CounterFacts.
Import PuzzleController.

(** The second puzzle has the settings of the first and counters in range. *)
Lemma countersInRange_intro p p' :
  settings p' = settings p ->
  0 <= attempts p' -> 0 <= hintsUsed p' -> hintsUsed p' <= Z.of_nat (hintLimit p) ->
  0 <= score p' ->
  countersInRange p'.
Proof.
  intros Hs Ha Hh Hl Hsc. unfold countersInRange, hintLimit in *. rewrite Hs. auto.
Qed.

Lemma countersInRange_new stamp config : countersInRange (new stamp config).
Proof. unfold countersInRange, hintLimit. cbn. lia. Qed.

Lemma countersInRange_tick p : countersInRange p -> countersInRange (fst (tick p)).
Proof.
  intros (Ha & Hh & Hl & Hs). unfold tick, timeUp, fail.
  destruct (timerInterval p); [| repeat split; assumption].
  cbn. destruct (_ <=? 0); apply (countersInRange_intro p); auto.
Qed.

Lemma countersInRange_complete p : countersInRange p -> countersInRange (fst (complete p)).
Proof.
  intros (Ha & Hh & Hl & Hs).
  apply (countersInRange_intro p); try assumption; try reflexivity.
  cbn. lia.
Qed.

Lemma countersInRange_fail reason p :
  countersInRange p -> countersInRange (fst (fail reason p)).
Proof. intros (Ha & Hh & Hl & Hs). apply (countersInRange_intro p); auto. Qed.

Lemma countersInRange_start p : countersInRange p -> countersInRange (fst (start p)).
Proof.
  intros (Ha & Hh & Hl & Hs). unfold start. cbn.
  destruct (0 <? _); apply (countersInRange_intro p); cbn; auto; lia.
Qed.

Lemma countersInRange_reset p : countersInRange p -> countersInRange (fst (reset p)).
Proof.
  intros (Ha & Hh & Hl & Hs). unfold reset. cbn.
  destruct (0 <? _); apply (countersInRange_intro p); cbn; auto; lia.
Qed.

Lemma countersInRange_useHint p :
  countersInRange p -> countersInRange (snd (fst (useHint p))).
Proof.
  intros (Ha & Hh & Hl & Hs). unfold useHint.
  destruct (Z.leb_spec (maxHints (settings p)) (hintsUsed p));
    destruct (Z.leb_spec (Z.of_nat (length (hints (settings p)))) (hintsUsed p));
    cbn [orb fst snd]; try (repeat split; assumption).
  apply (countersInRange_intro p); cbn; try lia; try reflexivity.
  unfold hintLimit. lia.
Qed.

Lemma countersInRange_submit {P} `{Variant P} (v : P) :
  countersInRange (base v) ->
  countersInRange (base (snd (fst (Puzzle.submit v)))).
Proof.
  intros (Ha & Hh & Hl & Hs). unfold Puzzle.submit, Puzzle.complete, Puzzle.fail, Puzzle.lift.
  destruct (solutionValid _).
  - cbn. rewrite !base_with_base.
    apply (countersInRange_intro (base v)); cbn; try lia; reflexivity.
  - destruct (attemptsExhausted _); cbn; rewrite !base_with_base;
      apply (countersInRange_intro (base v)); cbn; try lia; reflexivity.
Qed.

Lemma countersInRange_frame p p' :
  settings p' = settings p -> attempts p' = attempts p ->
  hintsUsed p' = hintsUsed p -> score p' = score p ->
  countersInRange p -> countersInRange p'.
Proof.
  intros Hs Ha Hh Hsc (H1 & H2 & H3 & H4).
  apply (countersInRange_intro p); try assumption; lia.
Qed.

End CounterFacts.


Section ObjectCounterFacts.
Import PuzzleFactory.

Ltac top_level x :=
  lazymatch x with
  | if _ then _ else _ => fail
  | match _ with _ => _ end => fail
  | _ => idtac
  end.

Lemma base_of_inherited f o :
  base_of (fst (inherited f o)) = fst (f (base_of o)).
Proof.
  destruct o; unfold inherited, Puzzle.lift; cbn; destruct (f _); reflexivity.
Qed.

Lemma base_of_submit o :
  countersInRange (base_of o) -> countersInRange (base_of (fst (submit o))).
Proof.
  intros H.
  destruct o as [p | p | p | p | p | p]; unfold submit;
    pose proof (countersInRange_submit p H) as Hs;
    destruct (Puzzle.submit p) as [[ok p'] sigs]; exact Hs.
Qed.

Lemma base_of_complete o :
  countersInRange (base_of o) -> countersInRange (base_of (fst (complete o))).
Proof.
  intros H.
  destruct o as [p | p | p | p | p | p]; unfold complete, Puzzle.complete, Puzzle.lift;
    pose proof (countersInRange_complete _ H) as Hc; cbn in Hc |- *; exact Hc.
Qed.

Lemma base_of_reset o :
  countersInRange (base_of o) -> countersInRange (base_of (fst (reset o))).
Proof.
  intros H.
  destruct o as [p | p | p | p | p | p];
    unfold reset, MechanicalPuzzle.reset, SpellCraftingPuzzle.reset, DiagnosisPuzzle.reset,
      RepairSequencePuzzle.reset, RepairSequencePuzzle.render, ResonancePuzzle.reset;
    pose proof (countersInRange_reset _ H) as Hr; cbn in Hr |- *;
    repeat match goal with
           | |- context [if ?b then _ else _] => top_level b; destruct b
           end; exact Hr.
Qed.

Ltac open_cases :=
  repeat match goal with
         | |- context [if ?b then _ else _] => top_level b; destruct b
         | |- context [match ?x with _ => _ end] => top_level x; destruct x
         end.

Ltac in_range H :=
  first [ exact H
        | destruct H as (Ha & Hh & Hl & Hs);
          unfold countersInRange, hintLimit in *;
          cbn -[Z.max Z.min Qfloor Z.of_nat Z.to_nat Z.mul Z.add Z.sub] in *;
          repeat split; lia ].

Lemma base_of_resume k o :
  countersInRange (base_of o) -> countersInRange (base_of (fst (resume k o))).
Proof.
  intros H.
  destruct o as [p | p | p | p | p | p]; destruct k; cbn [resume];
    try exact H; try (apply base_of_complete; exact H);
    try (apply base_of_submit; exact H).
  all: unfold RepairSequencePuzzle.resume, ResonancePuzzle.resume,
         RepairSequencePuzzle.showSequence, RepairSequencePuzzle.startInputPhase,
         RepairSequencePuzzle.render.
  all: try (pose proof (countersInRange_submit p H) as Hs;
            destruct (Puzzle.submit p) as [[ok p'] sigs]; exact Hs).
  all: try (pose proof (countersInRange_complete _ H) as Hc;
            unfold Puzzle.complete, Puzzle.lift; cbn in Hc |- *; exact Hc).
  all: cbn; open_cases; cbn; in_range H.
Qed.

Lemma base_of_handleInput u icon o :
  countersInRange (base_of o) ->
  countersInRange (base_of (fst (fst (handleInput u icon o)))).
Proof.
  intros H. destruct o as [p | p | p | p | p | p]; try exact H.
  unfold handleInput, RepairSequencePuzzle.handleInput,
    RepairSequencePuzzle.handleWrongInput, RepairSequencePuzzle.handleSequenceComplete,
    RepairSequencePuzzle.extendSequence, Puzzle.complete, Puzzle.lift.
  pose proof (countersInRange_complete _ H) as Hc.
  cbn in Hc |- *; open_cases; cbn; first [exact H | exact Hc].
Qed.

Lemma base_of_handleTimeUp o :
  countersInRange (base_of o) ->
  countersInRange (base_of (fst (fst (handleTimeUp o)))).
Proof.
  intros H. destruct o as [p | p | p | p | p | p]; try exact H.
  unfold handleTimeUp, RepairSequencePuzzle.handleTimeUp.
  cbn; open_cases; exact H.
Qed.

Lemma base_of_lockNote o :
  countersInRange (base_of o) ->
  countersInRange (base_of (fst (fst (lockNote o)))).
Proof.
  intros H. destruct o as [p | p | p | p | p | p]; try exact H.
  unfold lockNote, ResonancePuzzle.lockNote.
  cbn; open_cases; exact H.
Qed.

Lemma base_of_start o :
  countersInRange (base_of o) ->
  countersInRange (base_of (fst (fst (start o)))).
Proof.
  intros H. pose proof (countersInRange_start _ H) as Hs.
  destruct o as [p | p | p | p | p | p];
    unfold start, inherited, Puzzle.lift, RepairSequencePuzzle.start,
      RepairSequencePuzzle.render;
    cbn in Hs |- *; open_cases; exact Hs.
Qed.

Lemma countersInRange_create stamp type config :
  countersInRange (base_of (create stamp type config)).
Proof.
  unfold create. open_cases; unfold countersInRange, hintLimit; cbn; lia.
Qed.

Lemma objectCountersInRange_invariant : objectInvariant objectCountersInRange.
Proof.
  unfold objectInvariant, preserves, objectCountersInRange.
  repeat match goal with |- _ /\ _ => split end; [apply countersInRange_create | ..].
  - intros o H. cbn [fst]. rewrite base_of_inherited. exact H.
  - intros page o H. destruct o; exact H.
  - intros o H. apply base_of_start. exact H.
  - intros o H. cbn [fst]. unfold destroy. rewrite base_of_inherited. exact H.
  - intros o H. unfold quiet, tick.
    pose proof (base_of_inherited PuzzleController.tick o) as E.
    destruct (inherited PuzzleController.tick o). cbn [fst] in *. rewrite E.
    apply countersInRange_tick. exact H.
  - intros k o H. unfold quiet. pose proof (base_of_resume k o H) as E.
    destruct (resume k o). exact E.
  - intros o H. unfold quiet. pose proof (base_of_submit o H) as E.
    destruct (submit o). exact E.
  - intros o H. unfold quiet. pose proof (base_of_reset o H) as E.
    destruct (reset o). exact E.
  - intros o H. unfold quiet, useHint.
    match goal with
    | |- context [inherited ?f o] =>
        pose proof (base_of_inherited f o) as E; destruct (inherited f o)
    end.
    cbn [fst] in *. rewrite E.
    pose proof (countersInRange_useHint _ H) as Hu.
    destruct (PuzzleController.useHint (base_of o)) as [[hint b] sigs]. exact Hu.
  - intros u icon o H. apply base_of_handleInput. exact H.
  - intros o H. apply base_of_handleTimeUp. exact H.
  - intros o H. apply base_of_lockNote. exact H.
Qed.

End ObjectCounterFacts.


(** X17. The counters of every puzzle stay in range: in every run of the
    factory from its construction, every puzzle object has an attempt count,
    a hint count and a score that are not negative, and a hint count that is
    at most the smaller of [maxHints] and the number of hints (or 0, when
    that is negative). *)
Theorem counters_of_every_puzzle_stay_in_range :
  forall (s : StateManager.t) (configs : gmap string PuzzleFactory.Config)
         (page : bool) (es : list PuzzleFactory.Event) (r : nat)
         (p : PuzzleController.t),
    baseAt (PuzzleFactory.run es (PuzzleFactory.new s configs page)) r = Some p ->
    0 <= PuzzleController.attempts p
    /\ 0 <= PuzzleController.hintsUsed p
    /\ PuzzleController.hintsUsed p
       <= Z.min (PuzzleController.maxHints (PuzzleController.settings p))
                (Z.of_nat (length (PuzzleController.hints (PuzzleController.settings p))))
          `max` 0
    /\ 0 <= PuzzleController.score p.
Proof.
  intros s configs page es r p Hp. unfold baseAt in Hp.
  destruct (PuzzleFactory.objects _ !! r) as [o |] eqn:Ho; [| discriminate Hp].
  injection Hp as <-.
  apply (everyObject_run objectCountersInRange es (PuzzleFactory.new s configs page)
           objectCountersInRange_invariant) in Ho.
  - destruct Ho as (Ha & Hh & Hl & Hs). unfold hintLimit in Hl. repeat split; try assumption.
    lia.
  - intros r0 o0 H0. cbn in H0. rewrite lookup_nil in H0. discriminate H0.
Qed.

Lemma counters_of_every_puzzle_stay_in_range_witness :
  exists p,
    baseAt (PuzzleFactory.run lockResetThenLamp twoPuzzleFactory) 0 = Some p
    /\ 0 <= PuzzleController.attempts p
    /\ 0 <= PuzzleController.hintsUsed p
    /\ 0 <= PuzzleController.score p.
Proof.
  assert (H : exists p,
             baseAt (PuzzleFactory.run lockResetThenLamp twoPuzzleFactory) 0 = Some p).
  { vm_compute. eexists. reflexivity. }
  destruct H as (p & Hp). exists p. split; [exact Hp |].
  destruct (counters_of_every_puzzle_stay_in_range StateManager.reset _ true
              lockResetThenLamp 0%nat p Hp) as (Ha & Hh & _ & Hs).
  auto.
Defined.

(** * Properties of the helpers *)

Section HelperFacts.
Import Helpers.

(** [Math.floor(u * n)] for a draw [u] is an index below [n]. *)
Lemma floor_draw_range u n :
  isDraw u -> 0 < n -> 0 <= Qfloor (u * inject_Z n)%Q < n.
Proof.
  intros [Hlo Hhi] Hn.
  assert (Hn' : (0 < inject_Z n)%Q).
  { change 0%Q with (inject_Z 0). rewrite <- Zlt_Qlt. exact Hn. }
  split.
  - rewrite <- (Qfloor_Z 0). apply Qfloor_resp_le.
    change (inject_Z 0) with 0%Q.
    apply Qmult_le_0_compat; [exact Hlo | apply Qlt_le_weak; exact Hn'].
  - rewrite Zlt_Qlt. eapply Qle_lt_trans; [apply Qfloor_le |].
    setoid_rewrite <- (Qmult_1_l (inject_Z n)) at 2.
    apply Qmult_lt_compat_r; assumption.
Qed.

Lemma swap_length {A} i j (l : list A) : length (swap i j l) = length l.
Proof.
  unfold swap. destruct (l !! i), (l !! j); try reflexivity.
  rewrite !length_insert. reflexivity.
Qed.

Lemma insert_Permutation {A} (l : list A) i x y :
  l !! i = Some x -> <[i := y]> l ≡ₚ y :: delete i l.
Proof.
  revert i. induction l as [| a l IH]; intros [| i] Hi; try discriminate Hi.
  - reflexivity.
  - cbn in Hi |- *. rewrite (IH i Hi). apply Permutation_swap.
Qed.

Lemma swap_Permutation {A} i j (l : list A) : swap i j l ≡ₚ l.
Proof.
  unfold swap.
  destruct (l !! i) as [x |] eqn:Hi; [| reflexivity].
  destruct (l !! j) as [y |] eqn:Hj; [| reflexivity].
  destruct (decide (i = j)) as [-> | Hne].
  - assert (x = y) as -> by congruence.
    rewrite list_insert_insert_eq, list_insert_id by exact Hi. reflexivity.
  - set (m := <[i := y]> l).
    assert (Hmj : m !! j = Some y).
    { unfold m. rewrite list_lookup_insert_ne by exact Hne. exact Hj. }
    assert (Hm : m ≡ₚ y :: delete i l) by (apply (insert_Permutation l i x y Hi)).
    rewrite (insert_Permutation m j y x Hmj).
    assert (Hdel : delete j m ≡ₚ delete i l).
    { apply (Permutation_cons_inv (a := y)).
      rewrite <- Hm. symmetry. apply delete_Permutation. exact Hmj. }
    rewrite Hdel. symmetry. apply delete_Permutation. exact Hi.
Qed.

Lemma shuffleFrom_Permutation {A} i : forall random k (l : list A),
  shuffleFrom i random k l ≡ₚ l.
Proof.
  induction i as [| i IH]; intros random k l; [reflexivity |].
  cbn [shuffleFrom]. rewrite IH. apply swap_Permutation.
Qed.

End HelperFacts.


(** X18. [clamp] keeps a value within its bounds: when [min <= max] the
    result lies between [min] and [max], and a value already between them is
    returned as it is; when the bounds are given in the wrong order
    ([max < min]) the result is [max] whatever the value; and clamping twice
    is clamping once. *)
Theorem clamp_stays_within_bounds :
  forall (value min max : Q),
    ((min <= max)%Q ->
     (min <= Helpers.clamp value min max)%Q /\ (Helpers.clamp value min max <= max)%Q)
    /\ ((min <= value)%Q -> (value <= max)%Q ->
        (Helpers.clamp value min max == value)%Q)
    /\ ((max < min)%Q -> (Helpers.clamp value min max == max)%Q)
    /\ (Helpers.clamp (Helpers.clamp value min max) min max
        == Helpers.clamp value min max)%Q.
Proof.
  intros value min max. unfold Helpers.clamp.
  assert (Hin : forall v, (min <= v)%Q -> (v <= max)%Q -> (Qmin (Qmax v min) max == v)%Q).
  { intros v Hlo Hhi. rewrite (Q.max_l v min Hlo). apply Q.min_l. exact Hhi. }
  assert (Hswap : forall v, (max < min)%Q -> (Qmin (Qmax v min) max == max)%Q).
  { intros v Hlt. apply Q.min_r. apply Qlt_le_weak.
    eapply Qlt_le_trans; [exact Hlt | apply Q.le_max_r]. }
  assert (Hbounds : (min <= max)%Q ->
                    (min <= Qmin (Qmax value min) max)%Q
                    /\ (Qmin (Qmax value min) max <= max)%Q).
  { intros Hle. split; [| apply Q.le_min_r].
    apply Q.min_glb; [apply Q.le_max_r | exact Hle]. }
  split; [exact Hbounds | split; [apply Hin | split; [apply Hswap |]]].
  destruct (Qlt_le_dec max min) as [Hlt | Hle].
  - rewrite (Hswap _ Hlt). rewrite (Hswap value Hlt). reflexivity.
  - destruct (Hbounds Hle) as [Hlo Hhi]. apply Hin; assumption.
Qed.

Lemma clamp_stays_within_bounds_witness :
  (0 <= Helpers.clamp 150 0 100)%Q /\ (Helpers.clamp 150 0 100 <= 100)%Q.
Proof.
  apply (proj1 (clamp_stays_within_bounds 150 0 100)).
  vm_compute. discriminate.
Defined.

(** X19. [randomInt(min, max)] with [min <= max] returns an integer between
    [min] and [max], both included, for every value of [Math.random];
    [randomPick] returns an element of a non-empty array, and [undefined]
    for an empty one. *)
Theorem randomInt_and_randomPick_stay_in_range :
  forall (u : Q),
    isDraw u ->
    (forall min max, min <= max ->
                     min <= Helpers.randomInt u min max <= max)
    /\ (forall (A : Type) (array : list A),
          array <> [] ->
          exists x, Helpers.randomPick u array = Some x /\ x ∈ array)
    /\ (forall (A : Type), Helpers.randomPick u (@nil A) = None).
Proof.
  intros u Hu. split; [| split].
  - intros min max Hle. unfold Helpers.randomInt.
    pose proof (floor_draw_range u (max - min + 1) Hu ltac:(lia)). lia.
  - intros A array Hne. unfold Helpers.randomPick.
    assert (Hn : 0 < Z.of_nat (length array)).
    { destruct array; [contradiction | cbn; lia]. }
    pose proof (floor_draw_range u _ Hu Hn) as [Hlo Hhi].
    destruct (Z.ltb_spec (Qfloor (u * inject_Z (Z.of_nat (length array)))) 0); [lia |].
    destruct (array !! Z.to_nat (Qfloor (u * inject_Z (Z.of_nat (length array)))))
      as [x |] eqn:E.
    + exists x. split; [reflexivity |]. apply list_elem_of_lookup. eauto.
    + apply lookup_ge_None in E. lia.
  - intros A. unfold Helpers.randomPick. cbn [length].
    destruct (_ <? 0); [reflexivity | apply lookup_nil].
Qed.

Lemma randomInt_and_randomPick_stay_in_range_witness :
  1 <= Helpers.randomInt (1 # 2) 1 6 <= 6.
Proof.
  assert (Hu : isDraw (1 # 2)) by (split; [discriminate | reflexivity]).
  destruct (randomInt_and_randomPick_stay_in_range (1 # 2) Hu) as (Hint & _).
  apply Hint. discriminate.
Defined.

(** X20. [shuffle] returns a permutation of its argument: for every sequence
    of values of [Math.random], the result has the same elements with the
    same multiplicities (so also the same length) as the array passed in;
    each index that the loop draws for position [i] is at most [i], so every
    exchange is between two positions of the array. *)
Theorem shuffle_returns_a_permutation :
  forall (A : Type) (random : nat -> Q) (array : list A),
    (forall k, isDraw (random k)) ->
    Helpers.shuffle random array ≡ₚ array
    /\ length (Helpers.shuffle random array) = length array
    /\ (forall x, x ∈ Helpers.shuffle random array <-> x ∈ array)
    /\ (forall i k,
          (Z.to_nat (Qfloor (random k * inject_Z (Z.of_nat (i + 1)))) <= i)%nat).
Proof.
  intros A random array Hdraws.
  assert (Hperm : Helpers.shuffle random array ≡ₚ array)
    by apply shuffleFrom_Permutation.
  split; [exact Hperm | split; [| split]].
  - rewrite Hperm. reflexivity.
  - intros x. rewrite Hperm. reflexivity.
  - intros i k.
    pose proof (floor_draw_range (random k) (Z.of_nat (i + 1)) (Hdraws k) ltac:(lia)).
    lia.
Qed.

Lemma shuffle_returns_a_permutation_witness :
  Helpers.shuffle (fun _ => 1 # 2)%Q ["gear"; "spring"; "valve"]
  ≡ₚ ["gear"; "spring"; "valve"].
Proof.
  apply (shuffle_returns_a_permutation string (fun _ => 1 # 2)%Q).
  intros k. split; [vm_compute; discriminate | reflexivity].
Defined.

(** * Properties of the history of the state store *)

Section HistoryFacts.
Import StateManagerHistory.

Lemma cloneObject_id {A} (o : gmap string A) :
  o !! "__proto__" = None -> cloneObject o = o.
Proof. intros H. unfold cloneObject. apply delete_id. exact H. Qed.

Lemma cloneObjects_id (m : gmap string JournalObject) :
  map_Forall (fun _ o => o !! "__proto__" = None) m -> cloneObject <$> m = m.
Proof.
  intros H. transitivity (id <$> m); [| apply map_fmap_id].
  apply map_fmap_ext. intros k o Hk. apply cloneObject_id. exact (H k o Hk).
Qed.

Lemma deepClone_protoFree snapshot : protoFree snapshot -> deepClone snapshot = snapshot.
Proof.
  destruct snapshot as [st fl va inv [en ch it]].
  intros (H1 & H2 & H3 & H4 & H5 & H6 & H7 & H8 & H9). cbn in *.
  unfold deepClone. cbn -[cloneObject].
  assert (Hen : cloneObject <$> en = en).
  { induction H5 as [| o en Ho _ IH]; [reflexivity |].
    cbn. rewrite (cloneObject_id o Ho). f_equal. exact IH. }
  rewrite Hen, (cloneObjects_id ch H8), (cloneObjects_id it H9).
  rewrite (cloneObject_id st H1), (cloneObject_id fl H2), (cloneObject_id va H3),
    (cloneObject_id inv H4), (cloneObject_id ch H6), (cloneObject_id it H7).
  reflexivity.
Qed.

Lemma saveToHistory_history s :
  (length (history s) <= maxHistory)%nat ->
  (length (history (saveToHistory s)) <= maxHistory)%nat
  /\ length (history (saveToHistory s)) = (S (length (history s)) `min` maxHistory)%nat
  /\ last (history (saveToHistory s)) = Some (deepClone (getAll s))
  /\ history (saveToHistory s)
     = if (length (history s) <? maxHistory)%nat
       then history s ++ [deepClone (getAll s)]
       else drop 1 (history s) ++ [deepClone (getAll s)].
Proof.
  intros Hlen. unfold saveToHistory. cbn [history].
  rewrite length_app. cbn [length].
  destruct (Nat.ltb_spec maxHistory (length (history s) + 1));
    destruct (Nat.ltb_spec (length (history s)) maxHistory); try lia.
  - assert (Hne : history s <> []) by (intros E; rewrite E in *; cbn in *; unfold maxHistory in *; lia).
    destruct (history s) as [| x h] eqn:E; [contradiction |].
    cbn [app drop]. rewrite drop_0. rewrite length_app. cbn [length] in *.
    repeat split; try lia. apply last_snoc.
  - rewrite length_app. cbn [length]. repeat split; try lia. apply last_snoc.
Qed.

Lemma restoreFromHistory_history s :
  (length (history (snd (fst (restoreFromHistory s)))) <= length (history s))%nat.
Proof.
  unfold restoreFromHistory. destruct (last (history s)); cbn; [| lia].
  rewrite length_take. lia.
Qed.

End HistoryFacts.

(** X21. The history keeps the newest fifty snapshots: starting from a
    history of at most 50 snapshots, after any sequence of [saveToHistory]
    and [restoreFromHistory] the history has at most 50; [saveToHistory]
    puts the copy of the current state last, appending it while fewer than
    50 are stored and dropping the oldest one when 50 are. *)
Theorem history_keeps_the_newest_fifty_snapshots :
  forall (s : StateManagerHistory.t),
    (length (StateManagerHistory.history s) <= 50)%nat ->
    (forall calls,
        (length (StateManagerHistory.history (foldl (fun s c => historyCall c s) s calls))
         <= 50)%nat)
    /\ last (StateManagerHistory.history (StateManagerHistory.saveToHistory s))
       = Some (StateManagerHistory.deepClone (StateManagerHistory.getAll s))
    /\ ((length (StateManagerHistory.history s) < 50)%nat ->
        StateManagerHistory.history (StateManagerHistory.saveToHistory s)
        = StateManagerHistory.history s
          ++ [StateManagerHistory.deepClone (StateManagerHistory.getAll s)])
    /\ (length (StateManagerHistory.history s) = 50%nat ->
        StateManagerHistory.history (StateManagerHistory.saveToHistory s)
        = drop 1 (StateManagerHistory.history s)
          ++ [StateManagerHistory.deepClone (StateManagerHistory.getAll s)]).
Proof.
  intros s Hlen.
  destruct (saveToHistory_history s Hlen) as (_ & _ & Hlast & Hhist).
  split; [| split; [exact Hlast | split]].
  - intros calls. revert s Hlen Hlast Hhist.
    induction calls as [| c calls IH]; intros s Hlen _ _; [exact Hlen |].
    cbn [foldl].
    assert (Hstep : (length (StateManagerHistory.history (historyCall c s)) <= 50)%nat).
    { destruct c; cbn [historyCall].
      - apply (saveToHistory_history s Hlen).
      - pose proof (restoreFromHistory_history s). lia. }
    destruct (saveToHistory_history (historyCall c s) Hstep) as (_ & _ & Hl & Hh).
    exact (IH (historyCall c s) Hstep Hl Hh).
  - intros Hlt. rewrite Hhist.
    destruct (Nat.ltb_spec (length (StateManagerHistory.history s))
                StateManagerHistory.maxHistory); [reflexivity |].
    unfold StateManagerHistory.maxHistory in *. lia.
  - intros Heq. rewrite Hhist.
    destruct (Nat.ltb_spec (length (StateManagerHistory.history s))
                StateManagerHistory.maxHistory); [| reflexivity].
    unfold StateManagerHistory.maxHistory in *. lia.
Qed.

Lemma history_keeps_the_newest_fifty_snapshots_witness :
  (length (StateManagerHistory.history
             (foldl (fun s c => historyCall c s) savedManager
                [CallSave; CallSave; CallRestore])) <= 50)%nat
  /\ StateManagerHistory.history (StateManagerHistory.saveToHistory savedManager)
     = [StateManagerHistory.deepClone (StateManagerHistory.getAll savedManager)].
Proof.
  assert (Hlen : (length (StateManagerHistory.history savedManager) <= 50)%nat)
    by (cbn; lia).
  destruct (history_keeps_the_newest_fifty_snapshots savedManager Hlen)
    as (Hbound & _ & Hpush & _).
  split; [apply Hbound |].
  rewrite Hpush; [reflexivity | cbn; lia].
Defined.

(** X22. [restoreFromHistory] returns to the last saved state: with an empty
    history it returns false and changes nothing; after [saveToHistory],
    whatever has been done to the maps and the journal since, it returns
    true, emits the state change of type load, and leaves in the store the
    copy that was saved, which is the saved state itself when no object of
    it has a key [__proto__]; the history is then what it was before the
    save, when fewer than 50 snapshots were stored. *)
Theorem restore_returns_to_the_last_saved_state :
  forall (s : StateManagerHistory.t),
    (StateManagerHistory.history s = [] ->
     StateManagerHistory.restoreFromHistory s = (false, s, []))
    /\ (forall later,
          (length (StateManagerHistory.history s) <= 50)%nat ->
          StateManagerHistory.history later
          = StateManagerHistory.history (StateManagerHistory.saveToHistory s) ->
          let '(ok, restored, sigs) := StateManagerHistory.restoreFromHistory later in
          ok = true
          /\ sigs = [StateChange "load"]
          /\ StateManagerHistory.getAll restored
             = StateManagerHistory.deepClone (StateManagerHistory.getAll s)
          /\ (protoFree (StateManagerHistory.getAll s) ->
              StateManagerHistory.store restored = StateManagerHistory.store s
              /\ StateManagerHistory.journal restored = StateManagerHistory.journal s)
          /\ ((length (StateManagerHistory.history s) < 50)%nat ->
              StateManagerHistory.history restored = StateManagerHistory.history s)).
Proof.
  intros s. split.
  - intros Hempty. unfold StateManagerHistory.restoreFromHistory. rewrite Hempty.
    reflexivity.
  - intros later Hlen Hlater.
    destruct (saveToHistory_history s Hlen) as (_ & Hcount & Hlast & Hhist).
    unfold StateManagerHistory.restoreFromHistory. rewrite Hlater, Hlast.
    cbn [StateManagerHistory.loadAll].
    split; [reflexivity | split; [reflexivity | split; [reflexivity | split]]].
    + intros Hfree. cbn [StateManagerHistory.store StateManagerHistory.journal].
      rewrite (deepClone_protoFree _ Hfree). cbn.
      split; [destruct (StateManagerHistory.store s) | ]; reflexivity.
    + intros Hlt. cbn [StateManagerHistory.history]. rewrite Hhist.
      destruct (Nat.ltb_spec (length (StateManagerHistory.history s))
                  StateManagerHistory.maxHistory);
        [| unfold StateManagerHistory.maxHistory in *; lia].
      rewrite length_app. cbn [length].
      replace (length (StateManagerHistory.history s) + 1 - 1)%nat
        with (length (StateManagerHistory.history s)) by lia.
      apply take_app_length.
Qed.

Lemma restore_returns_to_the_last_saved_state_witness :
  let '(ok, restored, _) := StateManagerHistory.restoreFromHistory changedManager in
  ok = true
  /\ StateManager.getFlag (StateManagerHistory.store changedManager) "door_open" = false
  /\ StateManager.getFlag (StateManagerHistory.store restored) "door_open" = true
  /\ StateManagerHistory.history restored = [].
Proof.
  assert (Hlen : (length (StateManagerHistory.history savedManager) <= 50)%nat)
    by (cbn; lia).
  pose proof (proj2 (restore_returns_to_the_last_saved_state savedManager)
                changedManager Hlen eq_refl) as H.
  destruct (StateManagerHistory.restoreFromHistory changedManager)
    as [[ok restored] sigs].
  destruct H as (Hok & _ & _ & Hfree & Hhist).
  assert (Hproto : protoFree (StateManagerHistory.getAll savedManager)).
  { unfold protoFree. repeat match goal with |- _ /\ _ => split end;
      try (vm_compute; reflexivity).
    - constructor.
    - apply map_Forall_empty.
    - apply map_Forall_empty. }
  destruct (Hfree Hproto) as (Hstore & _).
  split; [exact Hok |]. split; [vm_compute; reflexivity |]. split.
  - rewrite Hstore. vm_compute. reflexivity.
  - rewrite Hhist; [reflexivity | cbn; lia].
Defined.
